(** * Vector-Plot: KML folder tree, tri-state toggles, entity reconciliation
      and visibility projection.

    Shallow embedding of the viewer script (the tree builder, the toggle
    math, the entity indexing and the visibility code, the loader, the
    handlers of the page, the filter, the totals and the text escaping)
    together with the properties of its specification and further
    properties of the code.

    Conventions.
    - A JavaScript [Map] is an association list in insertion order; [set] on a
      present key replaces the value in place, otherwise it appends.
    - JavaScript numbers are kept abstract (class [JsNum]): the script only
      rounds them, prints them, measures a haversine distance and compares two
      distances.  The general theorems hold for every interpretation; the
      worked documents at the end use the grid numbers of [Sample].
    - Loops and recursions that follow ids through the arena take fuel; the
      top-level functions supply [S (size arena)] and return [None] only
      when a chain of more present nodes than the arena holds was followed,
      that is when the script itself would not return.
    - A Cesium entity is addressed by its position in
      [kmlDataSource.entities.values] (a handle); the maps of the session
      hold handles, so writing [show] through a map entry writes the entity
      of the collection. *)

From Stdlib Require Import List String Ascii Bool Arith ZArith Lia.
From Stdlib Require Import DecimalNat DecimalString.
Import ListNotations.
Open Scope string_scope.
Open Scope list_scope.

Set Implicit Arguments.
Set Warnings "-register-all".

(* ------------------------------------------------------------------ *)
(** ** Option monad for fuel-bounded code *)

Definition obind {A B : Type} (o : option A) (f : A -> option B) : option B :=
  match o with
  | Some a => f a
  | None => None
  end.

Notation "x <- c1 ;; c2" := (obind c1 (fun x => c2))
  (at level 61, c1 at next level, right associativity).

(* ------------------------------------------------------------------ *)
(** ** Strings *)

(** White space removed by [String.prototype.trim] (ASCII part). *)
Definition is_ws (c : ascii) : bool :=
  match nat_of_ascii c with
  | 9 | 10 | 11 | 12 | 13 | 32 => true
  | _ => false
  end.

Fixpoint ltrim (s : string) : string :=
  match s with
  | EmptyString => EmptyString
  | String c r => if is_ws c then ltrim r else s
  end.

Definition string_rev (s : string) : string :=
  string_of_list_ascii (rev (list_ascii_of_string s)).

Definition trim (s : string) : string :=
  string_rev (ltrim (string_rev (ltrim s))).

Definition is_empty (s : string) : bool :=
  match s with
  | EmptyString => true
  | _ => false
  end.

Fixpoint mem (x : string) (l : list string) : bool :=
  match l with
  | [] => false
  | y :: r => if String.eqb x y then true else mem x r
  end.

(** [Array.from(new Set(l))]: first occurrences, in order. *)
Fixpoint dedupe_acc (seen l : list string) : list string :=
  match l with
  | [] => []
  | x :: r => if mem x seen then dedupe_acc seen r
              else x :: dedupe_acc (x :: seen) r
  end.

Definition dedupe (l : list string) : list string := dedupe_acc [] l.

(* ------------------------------------------------------------------ *)
(** ** JavaScript [Map] with string keys *)

Module JsMap.

Definition t (V : Type) : Type := list (string * V).

Definition empty {V : Type} : t V := [].

Fixpoint get {V : Type} (m : t V) (k : string) : option V :=
  match m with
  | [] => None
  | (k', v) :: r => if String.eqb k k' then Some v else get r k
  end.

Fixpoint set {V : Type} (m : t V) (k : string) (v : V) : t V :=
  match m with
  | [] => [(k, v)]
  | (k', v') :: r =>
      if String.eqb k k' then (k', v) :: r else (k', v') :: set r k v
  end.

Definition size {V : Type} (m : t V) : nat := List.length m.

Definition keys {V : Type} (m : t V) : list string := map fst m.

Definition values {V : Type} (m : t V) : list V := map snd m.

Definition entries {V : Type} (m : t V) : list (string * V) := m.

End JsMap.

(** Two maps with the same keys in the same order and related values. *)
Definition rel_map {V : Type} (R : V -> V -> Prop) (m m' : JsMap.t V) : Prop :=
  Forall2 (fun x y => fst x = fst y /\ R (snd x) (snd y)) m m'.

(* ------------------------------------------------------------------ *)
(** ** Numbers, coordinates and geo-keys *)

Class JsNum (Num : Type) : Type := {
  (** [Number.isFinite] *)
  num_isFinite : Num -> bool;
  (** [Math.round(v * 10 ** digits) / 10 ** digits] *)
  num_round : Num -> nat -> Num;
  (** the text a template literal prints for a number *)
  num_show : Num -> string;
  (** the haversine formula on two (lon, lat) pairs, in metres *)
  num_haversine : Num * Num -> Num * Num -> Num;
  (** [<] on numbers *)
  num_ltb : Num -> Num -> bool;
  (** [Infinity] *)
  num_infinity : Num
}.

Section Keys.

Context {Num : Type} {ops : JsNum Num}.

Record Coord : Type := mkCoord { lon : Num; lat : Num }.

(** [roundCoord(n, digits)]; an absent argument is [undefined], which
    [Number] turns into NaN. *)
Definition roundCoord (n : option Num) (digits : nat) : option Num :=
  match n with
  | None => None
  | Some v => if num_isFinite v then Some (num_round v digits) else None
  end.

Definition coordKey (lo0 la0 : option Num) : option string :=
  match roundCoord lo0 5, roundCoord la0 5 with
  | Some lo, Some la => Some (num_show lo ++ "," ++ num_show la)%string
  | _, _ => None
  end.

(** [placemarkKey({name, lon, lat})]; [ck] is either [null] or a text that
    holds a comma, so the truth test is the test for [null]. *)
Definition placemarkKey (name : string) (lo la : option Num) : string :=
  let ck := coordKey lo la in
  let nm := trim name in
  match ck with
  | Some c => (nm ++ "|" ++ c)%string
  | None => nm
  end.

Definition haversineMeters (a b : Coord) : Num :=
  num_haversine (lon a, lat a) (lon b, lat b).

End Keys.

Arguments Coord Num : clear implicits.

(* ------------------------------------------------------------------ *)
(** ** Data model *)

Section Model.

Context {Num : Type} {ops : JsNum Num}.

(** A DOM element of the parsed document, as far as the script looks at
    it: its tag, the text of its direct [name] child, the first vertex that
    [firstCoordFromPlacemark] finds and parses (absent when there is no
    coordinates text or a component is not finite), and its child
    elements. *)
Inductive Element : Type :=
  mkElement (tagName : string) (nameText : option string)
            (firstCoord : option (Coord Num)) (elChildren : list Element).

Definition tagName (e : Element) : string :=
  match e with mkElement t _ _ _ => t end.
Definition nameText (e : Element) : option string :=
  match e with mkElement _ n _ _ => n end.
Definition firstCoord (e : Element) : option (Coord Num) :=
  match e with mkElement _ _ c _ => c end.
Definition elChildren (e : Element) : list Element :=
  match e with mkElement _ _ _ k => k end.

(** The parsed XML document, given by its document element. *)
Record XmlDoc : Type := mkXmlDoc {
  documentElement : Element
}.

Record Node : Type := mkNode {
  id : string;
  parentId : option string;
  name : string;
  tag : string;
  featureEl : Element;
  children : list string;
  checked : bool;
  indeterminate : bool;
  expanded : bool;
  placemarkKeys : list string
}.

Definition with_toggle (n : Node) (c i : bool) : Node :=
  mkNode (id n) (parentId n) (name n) (tag n) (featureEl n) (children n)
         c i (expanded n) (placemarkKeys n).

Definition with_indeterminate (n : Node) (i : bool) : Node :=
  with_toggle n (checked n) i.

Definition with_expanded (n : Node) (e : bool) : Node :=
  mkNode (id n) (parentId n) (name n) (tag n) (featureEl n) (children n)
         (checked n) (indeterminate n) e (placemarkKeys n).

Definition with_children (n : Node) (cs ks : list string) : Node :=
  mkNode (id n) (parentId n) (name n) (tag n) (featureEl n) cs
         (checked n) (indeterminate n) (expanded n) ks.

Definition with_placemarkKeys (n : Node) (ks : list string) : Node :=
  with_children n (children n) ks.

Definition NodeMap : Type := JsMap.t Node.

(** Value of [placemarkIndex]: [{ placemarkEl, path }]. *)
Record PmInfo : Type := mkPmInfo {
  placemarkEl : Element;
  path : list string
}.

(** A Cesium entity.  [ent_position] is [Some None] when the property is
    there but has no value now; [ent_polyline] is [Some l] when the entity
    has polyline graphics, [l] being the positions they give now (empty
    when there are none); [ent_label] and [ent_billboard] hold the [show]
    flag of the sub-graphics when the entity has them. *)
Record Entity : Type := mkEntity {
  ent_id : string;
  ent_name : option string;
  ent_position : option (option (Coord Num));
  ent_polyline : option (list (Coord Num));
  ent_polygon : bool;
  ent_show : bool;
  ent_label : option bool;
  ent_billboard : option bool
}.

(** Position in [kmlDataSource.entities.values]. *)
Definition Handle : Type := nat.

Record State : Type := mkState {
  fileName : option string;
  xml : option XmlDoc;
  rootFeature : option Element;
  nodesById : NodeMap;
  rootNodeId : option string;
  includePlacemarks : bool;
  entityIndex : JsMap.t (list Handle);
  placemarkIndex : JsMap.t PmInfo;
  placemarkToEntity : JsMap.t (list Handle);
  filterText : string;
  userHasInteracted : bool
}.

(** The module-level variables: [state], [kmlDataSource] (its
    [entities.values]) and the [hideLabels] check box. *)
Record World : Type := mkWorld {
  state : State;
  kmlDataSource : option (list Entity);
  hideLabels : bool
}.

Definition initialState : State :=
  mkState None None None JsMap.empty None true
          JsMap.empty JsMap.empty JsMap.empty "" false.

Definition with_nodes (st : State) (m : NodeMap) : State :=
  mkState (fileName st) (xml st) (rootFeature st) m (rootNodeId st)
          (includePlacemarks st) (entityIndex st) (placemarkIndex st)
          (placemarkToEntity st) (filterText st) (userHasInteracted st).

Definition with_entityIndex (st : State) (m : JsMap.t (list Handle)) : State :=
  mkState (fileName st) (xml st) (rootFeature st) (nodesById st)
          (rootNodeId st) (includePlacemarks st) m (placemarkIndex st)
          (placemarkToEntity st) (filterText st) (userHasInteracted st).

Definition with_placemarkToEntity (st : State) (m : JsMap.t (list Handle))
  : State :=
  mkState (fileName st) (xml st) (rootFeature st) (nodesById st)
          (rootNodeId st) (includePlacemarks st) (entityIndex st)
          (placemarkIndex st) m (filterText st) (userHasInteracted st).

Definition with_interacted (st : State) (b : bool) : State :=
  mkState (fileName st) (xml st) (rootFeature st) (nodesById st)
          (rootNodeId st) (includePlacemarks st) (entityIndex st)
          (placemarkIndex st) (placemarkToEntity st) (filterText st) b.

Definition with_state (w : World) (st : State) : World :=
  mkWorld st (kmlDataSource w) (hideLabels w).

Definition with_entities (w : World) (es : list Entity) : World :=
  mkWorld (state w) (Some es) (hideLabels w).

(** JavaScript truth of an id that may be [null]. *)
Definition truthy (o : option string) : option string :=
  match o with
  | Some s => if is_empty s then None else Some s
  | None => None
  end.

(* ---------------------------------------------------------------- *)
(** ** Tree builder *)

(** [nextIdFactory]: the n-th id is the letter n followed by the decimal
    digits of the counter. *)
Definition nodeIdOf (n : nat) : string :=
  ("n" ++ NilEmpty.string_of_uint (Nat.to_uint n))%string.

Definition isFeatureTag (t : string) : bool :=
  (t =? "Folder")%string || (t =? "Placemark")%string
  || (t =? "Document")%string.

Definition getChildFeatures (featureEl : Element) : list Element :=
  filter (fun c => isFeatureTag (tagName c)) (elChildren featureEl).

Definition getFeatureName (featureEl : Element) : string :=
  match nameText featureEl with
  | Some t => let n := trim t in
              if is_empty n then tagName featureEl else n
  | None => tagName featureEl
  end.

Definition firstCoordFromPlacemark (placemarkEl : Element)
  : option (Coord Num) := firstCoord placemarkEl.

Record BuildState : Type := mkBuild {
  b_next : nat;
  b_nodes : NodeMap;
  b_index : JsMap.t PmInfo
}.

Section ChildLoop.

(** The body of [for (const childEl of getChildFeatures(featureEl))],
    with the recursive call as a parameter.  Elements that the filter of
    [getChildFeatures] drops are skipped; [node] is the parent, whose
    entry of the arena is kept equal to it. *)
Variable build : Element -> list string -> BuildState -> BuildState * Node.
Variable pathNames : list string.

Fixpoint buildChildren (kids : list Element) (s : BuildState) (node : Node)
  : BuildState * Node :=
  match kids with
  | [] => (s, node)
  | childEl :: rest =>
      if isFeatureTag (tagName childEl) then
        let childTag := tagName childEl in
        let childName := getFeatureName childEl in
        let childPath := if (childTag =? "Placemark")%string then pathNames
                         else pathNames ++ [childName] in
        let '(s', childNode) := build childEl childPath s in
        let node' := with_children node (children node ++ [id childNode])
                       (placemarkKeys node ++ placemarkKeys childNode) in
        buildChildren rest
          (mkBuild (b_next s') (JsMap.set (b_nodes s') (id node) node')
                   (b_index s'))
          node'
      else buildChildren rest s node
  end.

End ChildLoop.

(** [buildNode].  The node object is shared between [nodesById] and the
    local variable: every write to the local node is also made to its entry
    of the arena. *)
Fixpoint buildNode (featureEl : Element) (parentId : option string)
         (pathNames : list string) (s : BuildState) {struct featureEl}
  : BuildState * Node :=
  match featureEl with
  | mkElement tag _ _ kids =>
      let name := getFeatureName featureEl in
      let id := nodeIdOf (b_next s) in
      let node := mkNode id parentId name tag featureEl [] true false
                         (negb (tag =? "Placemark")%string) [] in
      let s1 := mkBuild (S (b_next s)) (JsMap.set (b_nodes s) id node)
                        (b_index s) in
      if (tag =? "Placemark")%string then
        let c := firstCoordFromPlacemark featureEl in
        let key := placemarkKey name (option_map lon c) (option_map lat c) in
        let node' := with_placemarkKeys node [key] in
        (mkBuild (b_next s1) (JsMap.set (b_nodes s1) id node')
                 (JsMap.set (b_index s1) key
                            (mkPmInfo featureEl (pathNames ++ [name]))),
         node')
      else
        let '(s2, node2) :=
          buildChildren (fun c p st => buildNode c (Some id) p st)
                        pathNames kids s1 node in
        let node3 := if Nat.ltb 1 (List.length (placemarkKeys node2))
                     then with_placemarkKeys node2
                            (dedupe (placemarkKeys node2))
                     else node2 in
        (mkBuild (b_next s2) (JsMap.set (b_nodes s2) id node3) (b_index s2),
         node3)
  end.

Record BuiltTree : Type := mkBuilt {
  built_nodesById : NodeMap;
  built_rootNodeId : string;
  built_placemarkIndex : JsMap.t PmInfo
}.

Definition buildTreeFromKml (rootFeatureEl : Element) : BuiltTree :=
  let '(s, rootNode) :=
    buildNode rootFeatureEl None [getFeatureName rootFeatureEl]
              (mkBuild 1 JsMap.empty JsMap.empty) in
  mkBuilt (b_nodes s) (id rootNode) (b_index s).

(** [getElementsByTagName(t)[0]]: the first element with that tag in
    document order. *)
Fixpoint firstByTag (t : string) (e : Element) : option Element :=
  match e with
  | mkElement tg _ _ kids =>
      if (tg =? t)%string then Some e
      else (fix scan (l : list Element) : option Element :=
              match l with
              | [] => None
              | k :: r => match firstByTag t k with
                          | Some x => Some x
                          | None => scan r
                          end
              end) kids
  end.

Definition findRootFeature (x : XmlDoc) : option Element :=
  match firstByTag "Document" (documentElement x) with
  | Some docEl => Some docEl
  | None => firstByTag "Folder" (documentElement x)
  end.

(* ---------------------------------------------------------------- *)
(** ** Toggle math *)

Fixpoint foldM {A S : Type} (f : S -> A -> option S) (l : list A) (s : S)
  : option S :=
  match l with
  | [] => Some s
  | a :: r => s' <- f s a ;; foldM f r s'
  end.

Fixpoint setCheckedRecursive_fuel (fuel : nat) (nodes : NodeMap)
         (nodeId : string) (checked : bool) : option NodeMap :=
  match JsMap.get nodes nodeId with
  | None => Some nodes
  | Some node =>
      match fuel with
      | 0 => None
      | S f =>
          foldM (fun m childId => setCheckedRecursive_fuel f m childId checked)
                (children node)
                (JsMap.set nodes nodeId (with_toggle node checked false))
      end
  end.

Definition setCheckedRecursive (nodes : NodeMap) (nodeId : string)
           (checked : bool) : option NodeMap :=
  setCheckedRecursive_fuel (S (JsMap.size nodes)) nodes nodeId checked.

(** [{ checked: Boolean(c?.checked), ind: Boolean(c?.indeterminate) }] *)
Definition childState (nodes : NodeMap) (cid : string) : bool * bool :=
  match JsMap.get nodes cid with
  | Some c => (checked c, indeterminate c)
  | None => (false, false)
  end.

(** One turn of the loop of [recomputeIndeterminateUp] on a present node. *)
Definition recomputeNode (nodes : NodeMap) (node : Node) : Node :=
  match children node with
  | [] => with_indeterminate node false
  | _ :: _ =>
      let childStates := map (childState nodes) (children node) in
      let allChecked := forallb (fun s => fst s && negb (snd s)) childStates in
      let allUnchecked :=
        forallb (fun s => negb (fst s) && negb (snd s)) childStates in
      if allChecked then with_toggle node true false
      else if allUnchecked then with_toggle node false false
      else with_toggle node true true
  end.

Fixpoint recomputeIndeterminateUp_fuel (fuel : nat) (nodes : NodeMap)
         (currentId : string) : option NodeMap :=
  match JsMap.get nodes currentId with
  | None => Some nodes
  | Some node =>
      let nodes' := JsMap.set nodes currentId (recomputeNode nodes node) in
      match truthy (parentId node) with
      | None => Some nodes'
      | Some p =>
          match fuel with
          | 0 => None
          | S f => recomputeIndeterminateUp_fuel f nodes' p
          end
      end
  end.

Definition recomputeIndeterminateUp (nodes : NodeMap) (nodeId : string)
  : option NodeMap :=
  recomputeIndeterminateUp_fuel (S (JsMap.size nodes)) nodes nodeId.

Fixpoint setExpandedRecursive_fuel (fuel : nat) (nodes : NodeMap)
         (nodeId : string) (expanded : bool) : option NodeMap :=
  match JsMap.get nodes nodeId with
  | None => Some nodes
  | Some node =>
      match children node with
      | [] => Some nodes
      | _ :: _ =>
          match fuel with
          | 0 => None
          | S f =>
              foldM (fun m childId =>
                       setExpandedRecursive_fuel f m childId expanded)
                    (children node)
                    (JsMap.set nodes nodeId (with_expanded node expanded))
          end
      end
  end.

Definition setExpandedRecursive (nodes : NodeMap) (nodeId : string)
           (expanded : bool) : option NodeMap :=
  setExpandedRecursive_fuel (S (JsMap.size nodes)) nodes nodeId expanded.

(** The [while (cur.parentId)] loop of [getEffectiveChecked]. *)
Fixpoint climbChecked (fuel : nat) (nodes : NodeMap) (cur : Node)
  : option bool :=
  match truthy (parentId cur) with
  | None => Some true
  | Some p =>
      match fuel with
      | 0 => None
      | S f =>
          match JsMap.get nodes p with
          | None => Some false
          | Some cur' =>
              if checked cur' then climbChecked f nodes cur' else Some false
          end
      end
  end.

Definition getEffectiveChecked (nodes : NodeMap) (nodeId : string)
  : option bool :=
  match JsMap.get nodes nodeId with
  | None => Some false
  | Some cur =>
      if checked cur then climbChecked (S (JsMap.size nodes)) nodes cur
      else Some false
  end.

(* ---------------------------------------------------------------- *)
(** ** Entity indexing *)

Definition firstCoordFromEntity (entity : Entity) : option (Coord Num) :=
  match ent_position entity with
  | Some (Some c) => Some c
  | _ =>
      match ent_polyline entity with
      | Some (c :: _) => Some c
      | _ => None
      end
  end.

(** [x || ''] on a name. *)
Definition orEmpty (o : option string) : string :=
  match o with
  | Some s => s
  | None => ""
  end.

(** [m.get(k) || []] *)
Definition getOrNil {V : Type} (m : JsMap.t (list V)) (k : string) : list V :=
  match JsMap.get m k with
  | Some l => l
  | None => []
  end.

(** The collection with the handle of each entity. *)
Definition handles (ents : list Entity) : list (Handle * Entity) :=
  combine (seq 0 (List.length ents)) ents.

Definition entityKey (e : Entity) : string :=
  let c := firstCoordFromEntity e in
  placemarkKey (orEmpty (ent_name e)) (option_map lon c) (option_map lat c).

Definition indexEntities (ents : list Entity) : JsMap.t (list Handle) :=
  fold_left
    (fun idx he =>
       let key := entityKey (snd he) in
       JsMap.set idx key (getOrNil idx key ++ [fst he]))
    (handles ents) JsMap.empty.

Definition rebuildEntityIndex (w : World) : World :=
  match kmlDataSource w with
  | None => with_state w (with_entityIndex (state w) JsMap.empty)
  | Some ents => with_state w (with_entityIndex (state w) (indexEntities ents))
  end.

(** [{ entity: e, coord }] *)
Record Candidate : Type := mkCandidate {
  entity : Handle;
  coord : option (Coord Num)
}.

Definition hasGeometry (e : Entity) : bool :=
  match ent_position e, ent_polyline e with
  | None, None => ent_polygon e
  | _, _ => true
  end.

Definition poolsByName (ents : list Entity) : JsMap.t (list Candidate) :=
  fold_left
    (fun byName he =>
       let e := snd he in
       if hasGeometry e then
         let name := trim (orEmpty (ent_name e)) in
         JsMap.set byName name
           (getOrNil byName name ++ [mkCandidate (fst he) (firstCoordFromEntity e)])
       else byName)
    (handles ents) JsMap.empty.

(** [e.id] of the entity behind a handle. *)
Definition idOfHandle (ents : list Entity) (h : Handle) : string :=
  match nth_error ents h with
  | Some e => ent_id e
  | None => ""
  end.

(** The distance loop: [bestDist] and [best] are the two loop variables. *)
Fixpoint nearest (pmCoord : Coord Num) (candidates : list Candidate)
         (bestDist : Num) (best : option Candidate) : option Candidate :=
  match candidates with
  | [] => best
  | c :: r =>
      match coord c with
      | None => nearest pmCoord r bestDist best
      | Some cc =>
          let d := haversineMeters pmCoord cc in
          if num_ltb d bestDist then nearest pmCoord r d (Some c)
          else nearest pmCoord r bestDist best
      end
  end.

Definition chooseBest (pmCoord : option (Coord Num))
           (candidates : list Candidate) : option Candidate :=
  match candidates with
  | [] => None
  | [c] => Some c
  | c :: _ :: _ =>
      match pmCoord with
      | None => None
      | Some pc =>
          match nearest pc candidates num_infinity None with
          | Some b => Some b
          | None => Some c
          end
      end
  end.

(** One turn of the loop over [state.placemarkIndex.entries()]; the loop
    state is the map under construction and the [used] set of entity ids. *)
Definition matchPlacemark (ents : list Entity)
           (byName : JsMap.t (list Candidate))
           (entityIndex : JsMap.t (list Handle))
           (acc : JsMap.t (list Handle) * list string)
           (entry : string * PmInfo)
  : JsMap.t (list Handle) * list string :=
  let '(result, used) := acc in
  let '(pmKey, info) := entry in
  let pmEl := placemarkEl info in
  let pmName := getFeatureName pmEl in
  let pmCoord := firstCoordFromPlacemark pmEl in
  let candidates :=
    filter (fun c => negb (mem (idOfHandle ents (entity c)) used))
           (getOrNil byName (trim pmName)) in
  match chooseBest pmCoord candidates with
  | Some best =>
      (JsMap.set result pmKey [entity best],
       used ++ [idOfHandle ents (entity best)])
  | None =>
      match JsMap.get entityIndex pmKey with
      | Some (e :: r) =>
          (JsMap.set result pmKey (e :: r),
           used ++ map (idOfHandle ents) (e :: r))
      | _ => (result, used)
      end
  end.

Definition matchAll (ents : list Entity) (entityIndex : JsMap.t (list Handle))
           (placemarkIndex : JsMap.t PmInfo) : JsMap.t (list Handle) :=
  fst (fold_left (matchPlacemark ents (poolsByName ents) entityIndex)
                 (JsMap.entries placemarkIndex) (JsMap.empty, [])).

Definition rebuildPlacemarkToEntityMap (w : World) : World :=
  let st := with_placemarkToEntity (state w) JsMap.empty in
  match kmlDataSource w with
  | None => with_state w st
  | Some ents =>
      match JsMap.size (placemarkIndex st) with
      | 0 => with_state w st
      | S _ =>
          with_state w
            (with_placemarkToEntity st
               (matchAll ents (entityIndex st) (placemarkIndex st)))
      end
  end.

(** The matching algorithm of the specification run from scratch on a
    placemark index and a renderable collection: both indexes are rebuilt,
    as [loadKml] does. *)
Definition reconcile (placemarkIndex : JsMap.t PmInfo) (ents : list Entity)
  : JsMap.t (list Handle) :=
  match JsMap.size placemarkIndex with
  | 0 => JsMap.empty
  | S _ => matchAll ents (indexEntities ents) placemarkIndex
  end.

(* ---------------------------------------------------------------- *)
(** ** Visibility *)

Definition setShow (b : bool) (e : Entity) : Entity :=
  mkEntity (ent_id e) (ent_name e) (ent_position e) (ent_polyline e)
           (ent_polygon e) b (ent_label e) (ent_billboard e).

Definition setLabels (b : bool) (e : Entity) : Entity :=
  mkEntity (ent_id e) (ent_name e) (ent_position e) (ent_polyline e)
           (ent_polygon e) (ent_show e)
           (option_map (fun _ => b) (ent_label e))
           (option_map (fun _ => b) (ent_billboard e)).

(** [e.show = b] through a handle. *)
Fixpoint showAt (b : bool) (h : Handle) (ents : list Entity) : list Entity :=
  match ents, h with
  | [], _ => []
  | e :: r, 0 => setShow b e :: r
  | e :: r, S h' => e :: showAt b h' r
  end.

(** [enabledKeys.add(k)] *)
Definition setAdd (s : list string) (k : string) : list string :=
  if mem k s then s else s ++ [k].

Definition enabledKeysOf (nodes : NodeMap) : option (list string) :=
  foldM (fun enabledKeys node =>
           if (tag node =? "Placemark")%string then
             effective <- getEffectiveChecked nodes (id node) ;;
             Some (fold_left (fun s k => if effective then setAdd s k else s)
                             (placemarkKeys node) enabledKeys)
           else Some enabledKeys)
        (JsMap.values nodes) [].

Definition showEnabled (map : JsMap.t (list Handle))
           (enabledKeys : list string) (ents : list Entity) : list Entity :=
  fold_left
    (fun es key =>
       match JsMap.get map key with
       | None => es
       | Some entities => fold_left (fun es' h => showAt true h es') entities es
       end)
    enabledKeys ents.

(** [if (!state.placemarkToEntity || state.placemarkToEntity.size === 0)
    rebuildPlacemarkToEntityMap()] *)
Definition ensureMapping (w : World) : World :=
  match JsMap.size (placemarkToEntity (state w)) with
  | 0 => rebuildPlacemarkToEntityMap w
  | S _ => w
  end.

Definition applyVisibilityFromTree (w : World) : option World :=
  match kmlDataSource w with
  | None => Some w
  | Some _ =>
      enabledKeys <- enabledKeysOf (nodesById (state w)) ;;
      let w1 := ensureMapping w in
      let ents := match kmlDataSource w1 with Some l => l | None => [] end in
      let mappedCount := JsMap.size (placemarkToEntity (state w1)) in
      match mappedCount with
      | 0 => Some (with_entities w1 (map (setShow true) ents))
      | S _ =>
          let ents1 :=
            if userHasInteracted (state w1) then
              showEnabled (placemarkToEntity (state w1)) enabledKeys
                          (map (setShow false) ents)
            else map (setShow true) ents in
          Some (with_entities w1 (map (setLabels (negb (hideLabels w1))) ents1))
      end
  end.

(* ---------------------------------------------------------------- *)
(** ** Loading a document *)

(** What one run of [loadKml] gets from outside: the file name, the
    document that [DOMParser] makes of the text, and the outcome of
    [Cesium.KmlDataSource.load] on it ([inl] when the call rejects, with the
    message of the error). *)
Record KmlFile : Type := mkKmlFile {
  file_name : string;
  file_xml : XmlDoc;
  file_render : string + list Entity
}.

(** How the promise of [loadKml] settles. *)
Inductive Outcome : Type :=
| Loaded
| Thrown (message : string).

Definition expandFolders (nodes : NodeMap) : NodeMap :=
  map (fun kn => (fst kn,
                  if (tag (snd kn) =? "Placemark")%string then snd kn
                  else with_expanded (snd kn) true)) nodes.

(** [loadKml].  The viewer and the page are outside the model; removing the
    previous data source from the viewer cannot fail the load. *)
Definition loadKml (w : World) (file : KmlFile) : option (World * Outcome) :=
  let xml := file_xml file in
  match firstByTag "parsererror" (documentElement xml) with
  | Some _ =>
      Some (w, Thrown "KML parse error. Ensure the file is valid XML/KML.")
  | None =>
      match findRootFeature xml with
      | None => Some (w, Thrown "KML contains no Document or Folder root.")
      | Some root =>
          let st := state w in
          let built := buildTreeFromKml root in
          let st1 :=
            mkState (Some (file_name file)) (Some xml) (Some root)
                    (expandFolders (built_nodesById built))
                    (Some (built_rootNodeId built))
                    (includePlacemarks st) (entityIndex st)
                    (placemarkIndex st) (placemarkToEntity st)
                    "" (userHasInteracted st) in
          match file_render file with
          | inl msg => Some (mkWorld st1 (kmlDataSource w) (hideLabels w),
                             Thrown msg)
          | inr ents =>
              let w1 := mkWorld st1 (Some ents) (hideLabels w) in
              w2 <- applyVisibilityFromTree
                      (rebuildPlacemarkToEntityMap (rebuildEntityIndex w1)) ;;
              Some (w2, Loaded)
          end
      end
  end.

(* ---------------------------------------------------------------- *)
(** ** Handlers of the page *)

Definition onNodes (w : World) (nodes : NodeMap) : World :=
  with_state w (with_nodes (state w) nodes).

(** The [change] handler of a check box of the tree. *)
Definition toggleChecked (w : World) (nodeId : string) (value : bool)
  : option World :=
  match truthy (Some nodeId) with
  | None => Some w
  | Some _ =>
      match JsMap.get (nodesById (state w)) nodeId with
      | None => Some w
      | Some node =>
          nodes1 <- setCheckedRecursive (nodesById (state w)) nodeId value ;;
          nodes2 <- match truthy (parentId node) with
                    | Some p => recomputeIndeterminateUp nodes1 p
                    | None => Some nodes1
                    end ;;
          applyVisibilityFromTree
            (with_state w (with_interacted (with_nodes (state w) nodes2) true))
      end
  end.

Definition checkAll (w : World) : option World :=
  match truthy (rootNodeId (state w)) with
  | None => Some w
  | Some rootId =>
      nodes1 <- setCheckedRecursive (nodesById (state w)) rootId true ;;
      applyVisibilityFromTree
        (with_state w (with_interacted (with_nodes (state w) nodes1) true))
  end.

Definition uncheckAll (w : World) : option World :=
  match truthy (rootNodeId (state w)) with
  | None => Some w
  | Some rootId =>
      nodes1 <- setCheckedRecursive (nodesById (state w)) rootId false ;;
      let nodes2 := match JsMap.get nodes1 rootId with
                    | Some root =>
                        JsMap.set nodes1 rootId (with_toggle root true true)
                    | None => nodes1
                    end in
      applyVisibilityFromTree
        (with_state w (with_interacted (with_nodes (state w) nodes2) true))
  end.

(** The toggle operations of the specification. *)
Inductive ToggleOp : Type :=
| OpSetCheckedRecursive (nodeId : string) (checked : bool)
| OpRecomputeIndeterminateUp (nodeId : string)
| OpCheckAll
| OpUncheckAll.

Definition stepOp (w : World) (op : ToggleOp) : option World :=
  match op with
  | OpSetCheckedRecursive nodeId v =>
      nodes <- setCheckedRecursive (nodesById (state w)) nodeId v ;;
      Some (onNodes w nodes)
  | OpRecomputeIndeterminateUp nodeId =>
      nodes <- recomputeIndeterminateUp (nodesById (state w)) nodeId ;;
      Some (onNodes w nodes)
  | OpCheckAll => checkAll w
  | OpUncheckAll => uncheckAll w
  end.

Definition runOps (w : World) (ops' : list ToggleOp) : option World :=
  foldM stepOp ops' w.

(* ---------------------------------------------------------------- *)
(** ** Vocabulary of the properties *)

(** [a] is [x] or an ancestor of [x]: the chain of [parentId] links. *)
Inductive anc_or_self (m : NodeMap) : string -> string -> Prop :=
| anc_self x : anc_or_self m x x
| anc_up x nd p a :
    JsMap.get m x = Some nd -> parentId nd = Some p ->
    anc_or_self m p a -> anc_or_self m x a.

(** The node and all its ancestors are there and checked. *)
Definition all_checked (m : NodeMap) (k : string) : Prop :=
  forall a, anc_or_self m k a ->
            exists na, JsMap.get m a = Some na /\ checked na = true.

(** [x] is [a] or a descendant of [a]: the chain of [children] links. *)
Inductive desc_or_self (m : NodeMap) : string -> string -> Prop :=
| desc_self a : desc_or_self m a a
| desc_down a nd c x :
    JsMap.get m a = Some nd -> In c (children nd) ->
    desc_or_self m c x -> desc_or_self m a x.

(** What holds of the entry [(k, nd)] of an arena built by
    [buildTreeFromKml], [pre] being the entries set before it and [post]
    those set after it: the key is the id of the node and is new, the root
    comes first and every other node names an earlier node that lists it as
    a child, the children come later, and a placemark has none. *)
Record node_ok (pre : NodeMap) (k : string) (nd : Node) (post : NodeMap)
  : Prop := mkNodeOk {
  ok_key : k <> "";
  ok_id : id nd = k;
  ok_fresh : ~ In k (JsMap.keys pre);
  ok_parent : match parentId nd with
              | None => pre = []
              | Some p => exists pn, JsMap.get pre p = Some pn /\
                                     In k (children pn)
              end;
  ok_children : forall c, In c (children nd) -> In c (JsMap.keys post);
  ok_leaf : tag nd = "Placemark" -> children nd = []
}.

(** Every arena that [buildTreeFromKml] returns is well formed
    ([buildTreeFromKml_wf] below), and the toggle operations, which write
    only [checked], [indeterminate] and [expanded], keep it so
    ([arena_wf_shape]). *)
Definition arena_wf (m : NodeMap) : Prop :=
  forall pre k nd post, m = pre ++ (k, nd) :: post -> node_ok pre k nd post.

(** The key of the first entry. *)
Definition arena_root (m : NodeMap) : option string :=
  match m with
  | [] => None
  | (k, _) :: _ => Some k
  end.

(** The session holds a built tree: the arena is well formed, [rootNodeId]
    is its root, and the root is not a placemark ([findRootFeature] returns a
    Document or a Folder).  [loadKml_returns] below shows that every load
    that goes through leaves such a session. *)
Record session_wf (st : State) : Prop := mkSessionWf {
  sw_arena : arena_wf (nodesById st);
  sw_root : rootNodeId st = arena_root (nodesById st);
  sw_folder : forall rootId nd,
      rootNodeId st = Some rootId ->
      JsMap.get (nodesById st) rootId = Some nd -> tag nd <> "Placemark"
}.

(** Two nodes that differ at most in their toggle fields. *)
Definition same_node (a b : Node) : Prop :=
  id a = id b /\ parentId a = parentId b /\ tag a = tag b /\
  children a = children b /\ placemarkKeys a = placemarkKeys b.

(** [b] is [a], or [a] after [setCheckedRecursive] wrote it. *)
Definition set_or_kept (value : bool) (a b : Node) : Prop :=
  b = a \/ b = with_toggle a value false.

(** [b] is [a] with [expanded] possibly rewritten. *)
Definition expanded_or_kept (a b : Node) : Prop :=
  exists e, b = with_expanded a e.

(** [b] is [a], or [a] after a turn of [recomputeIndeterminateUp]: the
    toggle fields may differ, and [b] is mixed only if it is checked and has
    a child. *)
Definition recomputed_or_kept (a b : Node) : Prop :=
  b = a \/
  (same_node a b /\
   (indeterminate b = true -> checked b = true /\ children b <> [])).

(** The keys of an arena under construction are the ids handed out so far,
    in order. *)
Definition arena_seq (m : NodeMap) (next : nat) : Prop :=
  JsMap.keys m = map nodeIdOf (seq 1 (next - 1)).

(** What [buildNode] has established of the node with counter [j] inside
    the block of counters from [lo] (the root of the block) up to [hi]. *)
Record built_ok (m : NodeMap) (lo hi j : nat) (nd : Node) : Prop :=
  mkBuiltOk {
  bo_id : id nd = nodeIdOf j;
  bo_parent : j = lo \/
              exists p pn, lo <= p < j /\ parentId nd = Some (nodeIdOf p) /\
                           JsMap.get m (nodeIdOf p) = Some pn /\
                           In (nodeIdOf j) (children pn);
  bo_children : forall c, In c (children nd) ->
                          exists i, j < i < hi /\ c = nodeIdOf i;
  bo_leaf : tag nd = "Placemark" -> children nd = [];
  bo_fresh : checked nd = true /\ indeterminate nd = false
}.

Definition block_built (m : NodeMap) (lo hi : nat) : Prop :=
  forall j, lo <= j < hi ->
            exists nd, JsMap.get m (nodeIdOf j) = Some nd /\
                       built_ok m lo hi j nd.

(** What a call of [buildNode] from [s] to [s'] that returns [node] has
    done. *)
Record build_post (tg : string) (parent : option string)
       (s s' : BuildState) (node : Node) : Prop := mkBuildPost {
  bp_next : b_next s < b_next s';
  bp_seq : arena_seq (b_nodes s') (b_next s');
  bp_frame : forall j, j < b_next s ->
                       JsMap.get (b_nodes s') (nodeIdOf j)
                       = JsMap.get (b_nodes s) (nodeIdOf j);
  bp_node : JsMap.get (b_nodes s') (nodeIdOf (b_next s)) = Some node;
  bp_parent : parentId node = parent;
  bp_tag : tag node = tg;
  bp_block : block_built (b_nodes s') (b_next s) (b_next s')
}.

(** Decision procedure for [arena_wf], by one pass over the entries. *)
Definition parent_okb (pre : NodeMap) (k : string) (nd : Node) : bool :=
  match parentId nd with
  | None => match pre with [] => true | _ :: _ => false end
  | Some p => match JsMap.get pre p with
              | Some pn => mem k (children pn)
              | None => false
              end
  end.

Fixpoint arena_wfb_from (pre rest : NodeMap) : bool :=
  match rest with
  | [] => true
  | (k, nd) :: post =>
      negb (is_empty k) && (id nd =? k)%string
      && negb (mem k (JsMap.keys pre)) && parent_okb pre k nd
      && forallb (fun c => mem c (JsMap.keys post)) (children nd)
      && (negb (tag nd =? "Placemark")%string
          || match children nd with [] => true | _ :: _ => false end)
      && arena_wfb_from (pre ++ [(k, nd)]) post
  end.

Definition arena_wfb (m : NodeMap) : bool := arena_wfb_from [] m.

(** Tri-state constraint on one node, as the specification words it. *)
Definition tri_state_ok (nd : Node) : Prop :=
  indeterminate nd = true ->
  checked nd = true /\ tag nd <> "Placemark" /\ children nd <> [].

(** The same with the exemption that [uncheckAll] needs: the root may be
    indeterminate without a child. *)
Definition tri_state_ok_but_root (rootId : option string) (k : string)
           (nd : Node) : Prop :=
  indeterminate nd = true ->
  checked nd = true /\ tag nd <> "Placemark" /\
  (children nd <> [] \/ rootId = Some k).

(** Where an entry of the result comes from: the exact index, or one
    candidate of a name pool. *)
Definition entry_origin (ents : list Entity)
           (entityIndex : JsMap.t (list Handle))
           (k : string) (hs : list Handle) : Prop :=
  JsMap.get entityIndex k = Some hs \/
  exists nm cs c, JsMap.get (poolsByName ents) nm = Some cs /\ In c cs /\
                  hs = [entity c].

(** Decision procedure for [session_wf]. *)
Definition session_wfb (st : State) : bool :=
  arena_wfb (nodesById st)
  && match rootNodeId st, arena_root (nodesById st) with
     | Some a, Some b => (a =? b)%string
     | None, None => true
     | _, _ => false
     end
  && match rootNodeId st with
     | Some r => match JsMap.get (nodesById st) r with
                 | Some nd => negb (tag nd =? "Placemark")%string
                 | None => true
                 end
     | None => true
     end.

(** No node is indeterminate, as in a tree that was just built. *)
Definition freshb (m : NodeMap) : bool :=
  forallb (fun kn => negb (indeterminate (snd kn))) m.


(** The invariant that the toggle operations keep. *)
Definition toggles_ok (w : World) : Prop :=
  session_wf (state w) /\
  forall k nd, JsMap.get (nodesById (state w)) k = Some nd ->
               tri_state_ok_but_root (rootNodeId (state w)) k nd.

End Model.

Arguments Element Num : clear implicits.
Arguments XmlDoc Num : clear implicits.
Arguments Node Num : clear implicits.
Arguments NodeMap Num : clear implicits.
Arguments PmInfo Num : clear implicits.
Arguments Entity Num : clear implicits.
Arguments State Num : clear implicits.
Arguments World Num : clear implicits.
Arguments BuildState Num : clear implicits.
Arguments BuiltTree Num : clear implicits.
Arguments Candidate Num : clear implicits.
Arguments KmlFile Num : clear implicits.

(* ------------------------------------------------------------------ *)
(** ** The rest of the page: text, filter, totals, expand handlers *)

(** [s.replaceAll(c, r)] for a pattern of one character. *)
Fixpoint replaceAllChar (c : ascii) (r : string) (s : string) : string :=
  match s with
  | EmptyString => EmptyString
  | String a t =>
      if Ascii.eqb a c then (r ++ replaceAllChar c r t)%string
      else String a (replaceAllChar c r t)
  end.

Definition ampersand : ascii := ascii_of_nat 38.
Definition lessThan : ascii := ascii_of_nat 60.
Definition greaterThan : ascii := ascii_of_nat 62.
Definition doubleQuote : ascii := ascii_of_nat 34.
Definition singleQuote : ascii := ascii_of_nat 39.

(** [escapeText(s)]; [None] is [null] or [undefined]. *)
Definition escapeText (s : option string) : string :=
  replaceAllChar singleQuote "&#39;"
    (replaceAllChar doubleQuote "&quot;"
       (replaceAllChar greaterThan "&gt;"
          (replaceAllChar lessThan "&lt;"
             (replaceAllChar ampersand "&amp;"
                (match s with Some t => t | None => EmptyString end))))).

(** What [escapeText] writes for one character. *)
Definition escapeChar (a : ascii) : string :=
  if Ascii.eqb a ampersand then "&amp;"
  else if Ascii.eqb a lessThan then "&lt;"
  else if Ascii.eqb a greaterThan then "&gt;"
  else if Ascii.eqb a doubleQuote then "&quot;"
  else if Ascii.eqb a singleQuote then "&#39;"
  else String a EmptyString.

Fixpoint escapeEach (s : string) : string :=
  match s with
  | EmptyString => EmptyString
  | String a t => (escapeChar a ++ escapeEach t)%string
  end.

(** [c] occurs in [s]. *)
Fixpoint occurs (c : ascii) (s : string) : bool :=
  match s with
  | EmptyString => false
  | String a t => Ascii.eqb a c || occurs c t
  end.

(** [String.prototype.toLowerCase] (ASCII part). *)
Definition lowerChar (c : ascii) : ascii :=
  let n := nat_of_ascii c in
  if Nat.leb 65 n && Nat.leb n 90 then ascii_of_nat (n + 32) else c.

Fixpoint toLowerCase (s : string) : string :=
  match s with
  | EmptyString => EmptyString
  | String a t => String (lowerChar a) (toLowerCase t)
  end.

(** [s.includes(q)] *)
Fixpoint includes (s q : string) : bool :=
  if String.prefix q s then true
  else match s with
       | EmptyString => false
       | String _ t => includes t q
       end.

(** [arr.some(f)] for an [f] that may run out of fuel: it stops at the
    first element that [f] accepts. *)
Fixpoint someM (f : string -> option bool) (l : list string) : option bool :=
  match l with
  | [] => Some false
  | c :: r => b <- f c ;; if b then Some true else someM f r
  end.

Section Pages.

Context {Num : Type} {ops : JsNum Num}.

(** The feature elements that [buildNode] visits below and including [e],
    in document order: the children of a placemark are not visited, and a
    child element that is no Folder, Placemark or Document is skipped with
    all that it holds. *)
Fixpoint features (e : Element Num) : list (Element Num) :=
  match e with
  | mkElement tg _ _ kids =>
      e :: (if (tg =? "Placemark")%string then []
            else flat_map (fun k => if isFeatureTag (tagName k)
                                    then features k else []) kids)
  end.

(** The element [x] is [e] or lies below it. *)
Inductive inside (x : Element Num) : Element Num -> Prop :=
| inside_here : inside x x
| inside_below e k : In k (elChildren e) -> inside x k -> inside x e.

(** [computeTotals]: the pair (folders, placemarks). *)
Definition computeTotals (nodes : NodeMap Num) : nat * nat :=
  fold_left (fun fp n =>
               if (tag n =? "Placemark")%string then (fst fp, S (snd fp))
               else (S (fst fp), snd fp))
            (JsMap.values nodes) (0, 0).

(** [matchesFilter(node)], with [state.filterText] as an argument. *)
Definition matchesFilter (filterText : string) (node : Node Num) : bool :=
  let q := toLowerCase (trim filterText) in
  if is_empty q then true else includes (toLowerCase (name node)) q.

Fixpoint subtreeMatches_fuel (fuel : nat) (nodes : NodeMap Num)
         (filterText : string) (nodeId : string) : option bool :=
  match JsMap.get nodes nodeId with
  | None => Some false
  | Some n =>
      if matchesFilter filterText n then Some true
      else match fuel with
           | 0 => match children n with [] => Some false | _ :: _ => None end
           | S f => someM (subtreeMatches_fuel f nodes filterText)
                          (children n)
           end
  end.

Definition subtreeMatches (nodes : NodeMap Num) (filterText : string)
           (nodeId : string) : option bool :=
  subtreeMatches_fuel (S (JsMap.size nodes)) nodes filterText nodeId.




Definition collapseAll (w : World Num) : option (World Num) :=
  match truthy (rootNodeId (state w)) with
  | None => Some w
  | Some rootId =>
      nodes1 <- setExpandedRecursive (nodesById (state w)) rootId false ;;
      Some (onNodes w
              match JsMap.get nodes1 rootId with
              | Some root => JsMap.set nodes1 rootId (with_expanded root true)
              | None => nodes1
              end)
  end.







(** [b] is [a], or [a] after [setExpandedRecursive] wrote it, which it
    does only to a node with children. *)
Definition expand_set_or_kept (value : bool) (a b : Node Num) : Prop :=
  b = a \/ (children a <> [] /\ b = with_expanded a value).

(** What [buildNode] has established, beyond [built_ok], of a node of a
    finished arena: the fields that it copies from the element, the
    [expanded] flag, and the links from a node to its children. *)
Record built_more (m : NodeMap Num) (nd : Node Num) : Prop := mkBuiltMore {
  bm_tag : tag nd = tagName (featureEl nd);
  bm_name : name nd = getFeatureName (featureEl nd);
  bm_expanded : expanded nd = negb (tag nd =? "Placemark")%string;
  bm_children : forall c, In c (children nd) ->
                          exists cn, JsMap.get m c = Some cn /\
                                     parentId cn = Some (id nd);
  bm_nodup : NoDup (children nd)
}.

(** The key under which [buildNode] files a placemark element. *)
Definition keyOfPlacemark (el : Element Num) : string :=
  placemarkKey (getFeatureName el)
               (option_map (@lon Num) (firstCoordFromPlacemark el))
               (option_map (@lat Num) (firstCoordFromPlacemark el)).

(** The toggle fields that [recomputeIndeterminateUp] gives a node with
    these child states. *)
Definition classify (childStates : list (bool * bool)) : bool * bool :=
  if forallb (fun s => fst s && negb (snd s)) childStates then (true, false)
  else if forallb (fun s => negb (fst s) && negb (snd s)) childStates
       then (false, false)
       else (true, true).

(** What a run of the loop of [recomputeIndeterminateUp] from [k] that
    ends in [m'] has done: nothing off the chain of parents, and on the
    chain every node is what one more turn of the loop would make it. *)
Definition chain_recomputed (m : NodeMap Num) (k : string)
           (m' : NodeMap Num) : Prop :=
  (forall x, ~ anc_or_self m k x -> JsMap.get m' x = JsMap.get m x) /\
  (forall a na', anc_or_self m k a -> JsMap.get m' a = Some na' ->
                 recomputeNode m' na' = na').

(** What [buildNode] has established of the block of counters from [lo] up
    to [hi], beyond [block_built]: [built_more] of every node, and the
    elements of the nodes, which are [fs] in this order. *)
Definition block_more (m : NodeMap Num) (lo hi : nat)
           (fs : list (Element Num)) : Prop :=
  List.length fs = hi - lo /\
  forall j nd, lo <= j < hi -> JsMap.get m (nodeIdOf j) = Some nd ->
               built_more m nd /\
               nth_error fs (j - lo) = Some (featureEl nd).

(** The feature elements of a list of child elements. *)
Definition featuresOf (kids : list (Element Num)) : list (Element Num) :=
  flat_map (fun k => if isFeatureTag (tagName k) then features k else [])
           kids.

(** The child elements that [buildNode] descends into. *)
Definition kidsOf (el : Element Num) : list (Element Num) :=
  if (tagName el =? "Placemark")%string then [] else getChildFeatures el.

(** The arena holds under [c] a node made from the element [e]. *)
Definition node_of (m : NodeMap Num) (c : string) (e : Element Num) : Prop :=
  exists cn, JsMap.get m c = Some cn /\ featureEl cn = e.

(** The children of the root of the block from [lo] up to [hi] were made
    from [ds], in this order, and the children of every other node of the
    block from the child features of its own element. *)
Definition block_els (m : NodeMap Num) (lo hi : nat)
           (ds : list (Element Num)) : Prop :=
  forall j nd, lo <= j < hi -> JsMap.get m (nodeIdOf j) = Some nd ->
               Forall2 (node_of m) (children nd)
                       (if Nat.eqb j lo then ds else kidsOf (featureEl nd)).

(** The placemark elements at or below a feature element, in document
    order, and their keys. *)
Definition placemarksOf (el : Element Num) : list (Element Num) :=
  filter (fun e => (tagName e =? "Placemark")%string) (features el).

Definition keysBelow (el : Element Num) : list string :=
  map keyOfPlacemark (placemarksOf el).

(** The last placemark element with the key [k] at or below [el]. *)
Definition lastWithKey (k : string) (el : Element Num)
  : option (Element Num) :=
  find (fun e => (keyOfPlacemark e =? k)%string) (rev (placemarksOf el)).

(** [l] as the value of a map that holds no empty list. *)
Definition nonEmpty {A : Type} (l : list A) : option (list A) :=
  match l with
  | [] => None
  | _ :: _ => Some l
  end.

(** The handles of the entities with the exact key [k], in the order of the
    collection. *)
Definition withKey (ents : list (Entity Num)) (k : string) : list Handle :=
  map fst (filter (fun he => (entityKey (snd he) =? k)%string)
                  (handles ents)).

(** The candidates of the entities that have some geometry and the trimmed
    name [nm], in the order of the collection. *)
Definition poolOf (ents : list (Entity Num)) (nm : string)
  : list (Candidate Num) :=
  map (fun he => mkCandidate (fst he) (firstCoordFromEntity (snd he)))
      (filter (fun he => hasGeometry (snd he)
                         && (trim (orEmpty (ent_name (snd he))) =? nm)%string)
              (handles ents)).

(** The entity behind [h] may stand for the placemark of [info] filed under
    [k]: it has geometry and the trimmed name of the placemark, or it has
    the exact key [k]. *)
Definition matches_placemark (ents : list (Entity Num)) (k : string)
           (info : PmInfo Num) (h : Handle) : Prop :=
  exists e, nth_error ents h = Some e /\
            ((hasGeometry e = true /\
              trim (orEmpty (ent_name e))
              = trim (getFeatureName (placemarkEl info))) \/
             entityKey e = k).
(** The invariant of the matching loop: the ids of the assigned entities are
    in [used], and two keys with a common entity id have one entry that is
    the entry of the exact index. *)
Definition sharing_ok (ents : list (Entity Num))
           (entityIndex : JsMap.t (list Handle))
           (acc : JsMap.t (list Handle) * list string) : Prop :=
  (forall k l h, JsMap.get (fst acc) k = Some l -> In h l ->
                 In (idOfHandle ents h) (snd acc)) /\
  (forall k1 k2 l1 l2 h1 h2,
      k1 <> k2 ->
      JsMap.get (fst acc) k1 = Some l1 -> JsMap.get (fst acc) k2 = Some l2 ->
      In h1 l1 -> In h2 l2 -> idOfHandle ents h1 = idOfHandle ents h2 ->
      JsMap.get entityIndex k1 = Some l1 \/
      JsMap.get entityIndex k2 = Some l2).



(** [a] comes before [k] in the arena. *)
Definition comes_before (m : NodeMap Num) (a k : string) : Prop :=
  exists pre nd post, m = pre ++ (k, nd) :: post /\ In a (JsMap.keys pre).

End Pages.

(* ------------------------------------------------------------------ *)
(** ** A concrete interpretation of numbers, and sample documents *)

Module Sample.

(** Coordinates on the grid of 1e-5 degree: a finite number is an integer
    count of grid steps, so rounding to five digits changes nothing, and a
    number prints as that count; the squared grid distance stands in for the
    haversine distance. *)
Inductive GridNum : Type :=
| Fin (z : Z)
| Inf
| NaN.

Definition grid_show (n : GridNum) : string :=
  match n with
  | Fin z => NilZero.string_of_int (Z.to_int z)
  | Inf => "Infinity"
  | NaN => "NaN"
  end.

Definition grid_dist (a b : GridNum * GridNum) : GridNum :=
  match a, b with
  | (Fin x1, Fin y1), (Fin x2, Fin y2) =>
      Fin ((x1 - x2) * (x1 - x2) + (y1 - y2) * (y1 - y2))%Z
  | _, _ => NaN
  end.

Definition grid_ltb (a b : GridNum) : bool :=
  match a, b with
  | Fin x, Fin y => Z.ltb x y
  | Fin _, Inf => true
  | _, _ => false
  end.

#[export] Instance grid_num : JsNum GridNum := {
  num_isFinite := fun n => match n with Fin _ => true | _ => false end;
  num_round := fun n _ => n;
  num_show := grid_show;
  num_haversine := grid_dist;
  num_ltb := grid_ltb;
  num_infinity := Inf
}.

Definition at_ (lo la : Z) : Coord GridNum := mkCoord (Fin lo) (Fin la).

Definition placemarkAt (nm : string) (c : option (Coord GridNum))
  : Element GridNum :=
  mkElement "Placemark" (Some nm) c [].

Definition pointEntity (i nm : string) (c : Coord GridNum)
  : Entity GridNum :=
  mkEntity i (Some nm) (Some (Some c)) None false true (Some true) None.

(** An entity without geometry, as the renderer makes one for a folder or
    for a placemark that has none. *)
Definition bareEntity (i nm : string) : Entity GridNum :=
  mkEntity i (Some nm) None None false true None None.

(** The scenario of the specification: two placemarks named Site, one
    millidegree apart, under one folder. *)
Definition siteA : Coord GridNum := at_ (-12200000) 3700000.
Definition siteB : Coord GridNum := at_ (-12200100) 3700100.

Definition twoSites : Element GridNum :=
  mkElement "Document" (Some "Root") None
    [ mkElement "Folder" (Some "A") None
        [ placemarkAt "Site" (Some siteA); placemarkAt "Site" (Some siteB) ] ].

Definition twoSiteEntities : list (Entity GridNum) :=
  [ pointEntity "e1" "Site" siteA; pointEntity "e2" "Site" siteB ].

(** A session that holds the tree built from a document, with the given
    placemark index, collection, interaction flag and hide-labels box. *)
Definition sessionOf (doc : Element GridNum)
           (index : JsMap.t (PmInfo GridNum))
           (ents : option (list (Entity GridNum)))
           (interacted hide : bool) : World GridNum :=
  let built := buildTreeFromKml doc in
  mkWorld (mkState None None (Some doc) (built_nodesById built)
                   (Some (built_rootNodeId built)) true
                   JsMap.empty index JsMap.empty "" interacted)
          ents hide.

Definition twoSitesWorld : World GridNum :=
  sessionOf twoSites JsMap.empty (Some twoSiteEntities) false false.

(** A document whose root has no feature. *)
Definition emptyDocument : Element GridNum :=
  mkElement "Document" (Some "Empty") None [].

(** A placemark without geometry next to a placemark of the same name with a
    point: the renderer makes an entity for each, the first without
    geometry. *)
Definition bareAndPoint : Element GridNum :=
  mkElement "Document" (Some "Root") None
    [ placemarkAt "Site" None; placemarkAt "Site" (Some siteB) ].

Definition bareAndPointEntities : list (Entity GridNum) :=
  [ bareEntity "e1" "Site"; pointEntity "e2" "Site" siteB ].

(** One placemark without geometry and its entity. *)
Definition bareOnly : Element GridNum :=
  mkElement "Document" (Some "Root") None [ placemarkAt "Site" None ].

Definition bareOnlyEntities : list (Entity GridNum) :=
  [ bareEntity "e1" "Site" ].




(** The files of two loads: one that the renderer accepts, one that it
    rejects. *)
Definition twoSitesFile : KmlFile GridNum :=
  mkKmlFile "sites.kml" (mkXmlDoc (mkElement "kml" None None [twoSites]))
            (inr twoSiteEntities).


Definition freshWorld (hide : bool) : World GridNum :=
  mkWorld initialState None hide.


(** Two candidates of one name pool, the second at the first site. *)
Definition farAndNear : list (Candidate GridNum) :=
  [ mkCandidate 0 (Some siteB); mkCandidate 1 (Some siteA) ].

End Sample.

(* ------------------------------------------------------------------ *)
(** ** Facts about maps *)

Section MapFacts.

Variable V : Type.
Implicit Types (m : JsMap.t V) (k : string) (v : V).

Lemma mem_In (x : string) (l : list string) : mem x l = true <-> In x l.
Proof.
  induction l as [|y r IH]; simpl.
  - split; [discriminate | tauto].
  - destruct (String.eqb_spec x y) as [->|ne].
    + split; auto.
    + rewrite IH. split; [auto | intros [e|i]; [congruence | exact i]].
Qed.

Lemma get_None_keys m k : JsMap.get m k = None <-> ~ In k (JsMap.keys m).
Proof.
  induction m as [|[k' v'] r IH]; simpl.
  - tauto.
  - destruct (String.eqb_spec k k') as [->|ne].
    + split; [discriminate | intros H; exfalso; apply H; auto].
    + rewrite IH. split.
      * intros H [e|i]; [congruence | tauto].
      * intros H i. apply H. auto.
Qed.

Lemma get_Some_In m k v : JsMap.get m k = Some v -> In (k, v) m.
Proof.
  induction m as [|[k' v'] r IH]; simpl; [discriminate|].
  destruct (String.eqb_spec k k') as [->|ne].
  - intros [= ->]. auto.
  - auto.
Qed.

Lemma get_Some_keys m k v : JsMap.get m k = Some v -> In k (JsMap.keys m).
Proof.
  intros H. apply get_Some_In in H.
  change k with (fst (k, v)). apply in_map. exact H.
Qed.

Lemma get_split m k v :
  JsMap.get m k = Some v ->
  exists pre post, m = pre ++ (k, v) :: post /\ ~ In k (JsMap.keys pre).
Proof.
  induction m as [|[k' v'] r IH]; simpl; [discriminate|].
  destruct (String.eqb_spec k k') as [->|ne].
  - intros [= ->]. exists [], r. simpl. auto.
  - intros H. destruct (IH H) as (pre & post & -> & nin).
    exists ((k', v') :: pre), post. split; [reflexivity|].
    simpl. intros [e|i]; [congruence | tauto].
Qed.

Lemma get_app_l m1 m2 k v :
  JsMap.get m1 k = Some v -> JsMap.get (m1 ++ m2) k = Some v.
Proof.
  induction m1 as [|[k' v'] r IH]; simpl; [discriminate|].
  destruct (String.eqb k k'); auto.
Qed.

Lemma get_app_r m1 m2 k :
  ~ In k (JsMap.keys m1) -> JsMap.get (m1 ++ m2) k = JsMap.get m2 k.
Proof.
  induction m1 as [|[k' v'] r IH]; simpl; [reflexivity|].
  intros H. destruct (String.eqb_spec k k') as [->|ne].
  - exfalso. apply H. auto.
  - apply IH. tauto.
Qed.

Lemma get_middle pre k v post :
  ~ In k (JsMap.keys pre) -> JsMap.get (pre ++ (k, v) :: post) k = Some v.
Proof.
  intros H. rewrite get_app_r by exact H. simpl.
  rewrite String.eqb_refl. reflexivity.
Qed.

Lemma keys_app m1 m2 :
  JsMap.keys (m1 ++ m2) = JsMap.keys m1 ++ JsMap.keys m2.
Proof. unfold JsMap.keys. apply map_app. Qed.

Lemma in_keys_split m k :
  In k (JsMap.keys m) -> exists pre v post, m = pre ++ (k, v) :: post.
Proof.
  intros H. unfold JsMap.keys in H. apply in_map_iff in H.
  destruct H as ([k' v] & e & i). simpl in e. subst k'.
  apply in_split in i. destruct i as (pre & post & ->).
  exists pre, v, post. reflexivity.
Qed.

Lemma set_middle pre k v v' post :
  ~ In k (JsMap.keys pre) ->
  JsMap.set (pre ++ (k, v) :: post) k v' = pre ++ (k, v') :: post.
Proof.
  induction pre as [|[k' w] r IH]; simpl; intros H.
  - rewrite String.eqb_refl. reflexivity.
  - destruct (String.eqb_spec k k') as [->|ne].
    + exfalso. apply H. auto.
    + rewrite IH by tauto. reflexivity.
Qed.

Lemma set_absent m k v :
  ~ In k (JsMap.keys m) -> JsMap.set m k v = m ++ [(k, v)].
Proof.
  induction m as [|[k' w] r IH]; simpl; intros H; [reflexivity|].
  destruct (String.eqb_spec k k') as [->|ne].
  - exfalso. apply H. auto.
  - rewrite IH by tauto. reflexivity.
Qed.

Lemma get_set_same m k v : JsMap.get (JsMap.set m k v) k = Some v.
Proof.
  induction m as [|[k' w] r IH]; simpl.
  - rewrite String.eqb_refl. reflexivity.
  - destruct (String.eqb_spec k k') as [->|ne]; simpl.
    + rewrite String.eqb_refl. reflexivity.
    + destruct (String.eqb_spec k k'); [congruence | exact IH].
Qed.

Lemma get_set_other m k k' v :
  k' <> k -> JsMap.get (JsMap.set m k v) k' = JsMap.get m k'.
Proof.
  intros ne. induction m as [|[k0 w] r IH]; simpl.
  - destruct (String.eqb_spec k' k); [congruence | reflexivity].
  - destruct (String.eqb_spec k k0) as [->|ne0]; simpl.
    + destruct (String.eqb_spec k' k0); [congruence | reflexivity].
    + destruct (String.eqb_spec k' k0); [reflexivity | exact IH].
Qed.

End MapFacts.

Section RelMap.

Variable V : Type.
Variable R : V -> V -> Prop.
Implicit Types (m : JsMap.t V) (k : string) (v : V).

Lemma rel_map_refl m : (forall v, R v v) -> rel_map R m m.
Proof.
  intros HR. induction m as [|[k v] r IH]; constructor; auto.
Qed.

Lemma rel_map_keys m m' : rel_map R m m' -> JsMap.keys m' = JsMap.keys m.
Proof.
  induction 1 as [|[k v] [k' v'] r r' [e _] _ IH]; simpl; [reflexivity|].
  simpl in e. subst. f_equal. exact IH.
Qed.

Lemma rel_map_size m m' : rel_map R m m' -> JsMap.size m' = JsMap.size m.
Proof. intros H. symmetry. exact (Forall2_length H). Qed.

Lemma rel_map_get m m' k v :
  rel_map R m m' -> JsMap.get m k = Some v ->
  exists v', JsMap.get m' k = Some v' /\ R v v'.
Proof.
  induction 1 as [|[k0 v0] [k1 v1] r r' [e HR] _ IH]; simpl; [discriminate|].
  simpl in e, HR. subst k1.
  destruct (String.eqb k k0).
  - intros [= ->]. eauto.
  - exact IH.
Qed.

Lemma rel_map_get_inv m m' k v' :
  rel_map R m m' -> JsMap.get m' k = Some v' ->
  exists v, JsMap.get m k = Some v /\ R v v'.
Proof.
  induction 1 as [|[k0 v0] [k1 v1] r r' [e HR] _ IH]; simpl; [discriminate|].
  simpl in e, HR. subst k1.
  destruct (String.eqb k k0).
  - intros [= ->]. eauto.
  - exact IH.
Qed.

Lemma rel_map_get_None m m' k :
  rel_map R m m' -> JsMap.get m k = None -> JsMap.get m' k = None.
Proof.
  intros H. rewrite !get_None_keys, (rel_map_keys H). auto.
Qed.

Lemma rel_map_set m k v v' :
  (forall x, R x x) -> JsMap.get m k = Some v -> R v v' ->
  rel_map R m (JsMap.set m k v').
Proof.
  intros HR. induction m as [|[k0 v0] r IH]; simpl; [discriminate|].
  destruct (String.eqb_spec k k0) as [->|ne].
  - intros [= ->] Hv. constructor; [simpl; auto|]. apply rel_map_refl, HR.
  - intros Hg Hv. constructor; [simpl; auto|]. apply IH; assumption.
Qed.

Lemma rel_map_trans m1 m2 m3 :
  (forall x y z, R x y -> R y z -> R x z) ->
  rel_map R m1 m2 -> rel_map R m2 m3 -> rel_map R m1 m3.
Proof.
  intros HT H12. revert m3.
  induction H12 as [|[k1 v1] [k2 v2] r1 r2 [e HR] _ IH]; intros m3 H23.
  - inversion H23. constructor.
  - inversion H23 as [|x [k3 v3] l r3 [e' HR'] H23']; subst.
    simpl in *. constructor; [simpl; split; [congruence | eauto]|].
    apply IH. exact H23'.
Qed.

Lemma rel_map_split_r m pre' k v' post' :
  rel_map R m (pre' ++ (k, v') :: post') ->
  exists pre v post,
    m = pre ++ (k, v) :: post /\ rel_map R pre pre' /\ R v v' /\
    rel_map R post post'.
Proof.
  intros H. apply Forall2_app_inv_r in H.
  destruct H as (pre & rest & Hpre & Hrest & ->).
  inversion Hrest as [|[k0 v] y post l' [e HR] Hpost]; subst.
  simpl in e, HR. subst k0.
  exists pre, v, post. auto.
Qed.

End RelMap.

Lemma rel_map_impl {V : Type} (R R' : V -> V -> Prop) (m m' : JsMap.t V) :
  (forall x y, R x y -> R' x y) -> rel_map R m m' -> rel_map R' m m'.
Proof.
  intros HI H. induction H as [|x y l l' [e HR] _ IH]; constructor; auto.
Qed.

(* ------------------------------------------------------------------ *)
(** ** Toggle operations on an id that is not in the arena *)

Section Toggles.

Context {Num : Type}.
Implicit Types (m nodes : NodeMap Num) (nd : Node Num) (k : string).

(** C9.  On a [nodeId] that the arena does not hold, [setCheckedRecursive],
    [setExpandedRecursive] and [recomputeIndeterminateUp] return and leave
    the arena as it is, and [getEffectiveChecked] returns false. *)
Theorem absent_node_inert nodes (nodeId : string) (value : bool) :
  JsMap.get nodes nodeId = None ->
  setCheckedRecursive nodes nodeId value = Some nodes /\
  setExpandedRecursive nodes nodeId value = Some nodes /\
  recomputeIndeterminateUp nodes nodeId = Some nodes /\
  getEffectiveChecked nodes nodeId = Some false.
Proof.
  intros H.
  unfold setCheckedRecursive, setExpandedRecursive, recomputeIndeterminateUp,
    getEffectiveChecked.
  simpl. rewrite H. repeat split; reflexivity.
Qed.

(* ---------------------------------------------------------------- *)
(** ** Shape of the arena *)

Lemma foldM_inv (A S : Type) (f : S -> A -> option S) (P : S -> Prop)
      (l : list A) :
  (forall s a s', In a l -> P s -> f s a = Some s' -> P s') ->
  forall s s', P s -> foldM f l s = Some s' -> P s'.
Proof.
  induction l as [|a r IH]; simpl; intros Hf s s' Hs H.
  - injection H as <-. exact Hs.
  - destruct (f s a) as [s1|] eqn:E; simpl in H; [|discriminate].
    apply (IH (fun s0 a0 s0' i => Hf s0 a0 s0' (or_intror i)) s1 s').
    + eapply Hf; eauto.
    + exact H.
Qed.

Lemma foldM_total (A S : Type) (f : S -> A -> option S) (P : S -> Prop)
      (l : list A) :
  (forall s a, In a l -> P s -> exists s', f s a = Some s' /\ P s') ->
  forall s, P s -> exists s', foldM f l s = Some s' /\ P s'.
Proof.
  induction l as [|a r IH]; simpl; intros Hf s Hs.
  - eauto.
  - destruct (Hf s a (or_introl eq_refl) Hs) as (s1 & E & H1).
    rewrite E. simpl. apply IH; auto.
Qed.

Lemma same_node_refl nd : same_node nd nd.
Proof. repeat split. Qed.

Lemma same_node_trans (a b c : Node Num) :
  same_node a b -> same_node b c -> same_node a c.
Proof.
  intros (?&?&?&?&?) (?&?&?&?&?). repeat split; congruence.
Qed.

Lemma same_node_toggle nd (c i : bool) : same_node nd (with_toggle nd c i).
Proof. repeat split. Qed.

Lemma same_node_expanded nd (e : bool) : same_node nd (with_expanded nd e).
Proof. repeat split. Qed.

Lemma set_or_kept_same (v : bool) (a b : Node Num) :
  set_or_kept v a b -> same_node a b.
Proof. intros [->| ->]; [apply same_node_refl | apply same_node_toggle]. Qed.

Lemma set_or_kept_trans (v : bool) (a b c : Node Num) :
  set_or_kept v a b -> set_or_kept v b c -> set_or_kept v a c.
Proof.
  intros [->| ->] [->| ->]; unfold set_or_kept; auto.
Qed.

Lemma set_or_kept_done (v : bool) (a b : Node Num) :
  set_or_kept v (with_toggle a v false) b -> b = with_toggle a v false.
Proof. intros [->| ->]; reflexivity. Qed.

Lemma set_or_kept_toggle (v : bool) (a b : Node Num) :
  set_or_kept v a b -> with_toggle b v false = with_toggle a v false.
Proof. intros [->| ->]; reflexivity. Qed.

Lemma recomputed_or_kept_same (a b : Node Num) :
  recomputed_or_kept a b -> same_node a b.
Proof. intros [->|[H _]]; [apply same_node_refl | exact H]. Qed.

Lemma rel_map_nil_r (V : Type) (R : V -> V -> Prop) (m : JsMap.t V) :
  rel_map R m [] -> m = [].
Proof. intros H. inversion H. reflexivity. Qed.

Lemma rel_map_nil_l (V : Type) (R : V -> V -> Prop) (m : JsMap.t V) :
  rel_map R [] m -> m = [].
Proof. intros H. inversion H. reflexivity. Qed.

Lemma arena_wf_shape m m' :
  rel_map same_node m m' -> arena_wf m -> arena_wf m'.
Proof.
  intros H W pre' k nd' post' E. subst m'.
  apply rel_map_split_r in H.
  destruct H as (pre & nd & post & -> & Hpre & Hnd & Hpost).
  destruct (W pre k nd post eq_refl) as [K I F P C L].
  destruct Hnd as (ei & ep & et & ec & _).
  constructor.
  - exact K.
  - congruence.
  - rewrite (rel_map_keys Hpre). exact F.
  - rewrite <- ep. destruct (parentId nd) as [p|].
    + destruct P as (pn & G & i).
      destruct (rel_map_get _ Hpre G) as (pn' & G' & (_&_&_&ec'&_)).
      exists pn'. split; [exact G' | congruence].
    + subst pre. apply (rel_map_nil_l Hpre).
  - rewrite <- ec, (rel_map_keys Hpost). exact C.
  - rewrite <- et, <- ec. exact L.
Qed.

Lemma arena_root_shape m m' :
  rel_map same_node m m' -> arena_root m' = arena_root m.
Proof.
  intros H. inversion H as [|[k v] [k' v'] l l' [e _] _]; subst; simpl in *;
    congruence.
Qed.

Lemma desc_shape m m' (a x : string) :
  rel_map same_node m m' -> desc_or_self m a x -> desc_or_self m' a x.
Proof.
  intros H D. induction D as [a|a nd c x G i D IH].
  - constructor.
  - destruct (rel_map_get _ H G) as (nd' & G' & (_&_&_&ec&_)).
    apply desc_down with (nd := nd') (c := c); [exact G' | congruence | exact IH].
Qed.

Lemma desc_trans m (a b c : string) :
  desc_or_self m a b -> desc_or_self m b c -> desc_or_self m a c.
Proof.
  intros D. induction D as [a|a nd c0 x G i D IH]; intros D'; [exact D'|].
  eapply desc_down; eauto.
Qed.

(** Every node is reached from the root through [children]. *)
Lemma root_reaches_all m (r : string) :
  arena_wf m -> arena_root m = Some r ->
  forall k, In k (JsMap.keys m) -> desc_or_self m r k.
Proof.
  intros W Hr.
  assert (forall n pre k nd post,
             List.length pre < n -> m = pre ++ (k, nd) :: post ->
             desc_or_self m r k) as Hind.
  { induction n as [|n IH]; intros pre k nd post Hn E; [lia|].
    destruct (W pre k nd post E) as [_ _ _ P _ _].
    destruct (parentId nd) as [p|].
    - destruct P as (pn & G & i).
      destruct (get_split _ _ G) as (pre1 & post1 & Epre & _).
      apply desc_trans with (b := p).
      + apply (IH pre1 p pn (post1 ++ (k, nd) :: post)).
        * subst pre. rewrite length_app in Hn. simpl in Hn. lia.
        * subst m pre. rewrite <- app_assoc. reflexivity.
      + apply desc_down with (nd := pn) (c := k).
        * subst m. apply get_app_l. exact G.
        * exact i.
        * constructor.
    - subst pre. subst m. simpl in Hr. injection Hr as ->. constructor. }
  intros k Hk. destruct (in_keys_split _ _ Hk) as (pre & nd & post & E).
  apply (Hind (S (List.length pre)) pre k nd post); [lia | exact E].
Qed.

(* ---------------------------------------------------------------- *)
(** ** [setCheckedRecursive] *)

Lemma setChecked_rel (fuel : nat) :
  forall m k (v : bool) m',
    setCheckedRecursive_fuel fuel m k v = Some m' ->
    rel_map (set_or_kept v) m m'.
Proof.
  induction fuel as [|f IH]; intros m k v m'; simpl;
    destruct (JsMap.get m k) as [nd|] eqn:G;
    try (intros [= <-]; apply rel_map_refl; left; reflexivity);
    try discriminate.
  apply foldM_inv with (P := fun mi => rel_map (set_or_kept v) m mi).
  - intros s a s' _ Hs E.
    apply rel_map_trans with (m2 := s);
      [apply set_or_kept_trans | exact Hs | exact (IH _ _ _ _ E)].
  - apply rel_map_set with (v := nd);
      [left; reflexivity | exact G | right; reflexivity].
Qed.

Lemma setChecked_shape (fuel : nat) m k (v : bool) m' :
  setCheckedRecursive_fuel fuel m k v = Some m' -> rel_map same_node m m'.
Proof.
  intros H. apply rel_map_impl with (R := set_or_kept v);
    [apply set_or_kept_same | exact (setChecked_rel _ _ _ _ H)].
Qed.

Lemma setChecked_total (fuel : nat) :
  forall m k (v : bool) pre nd post,
    arena_wf m -> m = pre ++ (k, nd) :: post -> List.length post < fuel ->
    exists m', setCheckedRecursive_fuel fuel m k v = Some m'.
Proof.
  induction fuel as [|f IH]; intros m k v pre nd post W E Hl; [lia|].
  destruct (W pre k nd post E) as [_ _ F _ C _].
  simpl. assert (G : JsMap.get m k = Some nd)
    by (subst m; apply get_middle; exact F).
  rewrite G.
  destruct (@foldM_total string (NodeMap Num)
              (fun mi c => setCheckedRecursive_fuel f mi c v)
              (fun mi => rel_map (set_or_kept v) m mi) (children nd))
    with (s := JsMap.set m k (with_toggle nd v false)) as (m' & Hm' & _).
  - intros mi c Hc Hmi.
    destruct (in_keys_split _ _ (C c Hc)) as (a & nc & pc & Epost).
    assert (Hs : rel_map same_node m mi)
      by (apply rel_map_impl with (R := set_or_kept v);
          [apply set_or_kept_same | exact Hmi]).
    assert (Em : m = (pre ++ (k, nd) :: a) ++ (c, nc) :: pc)
      by (subst m post; rewrite <- app_assoc; reflexivity).
    assert (Hmi' := Hmi). rewrite Em in Hmi'.
    assert (exists prei nci pci, mi = prei ++ (c, nci) :: pci /\
                                 List.length pci = List.length pc)
      as (prei & nci & pci & Emi & Hlen).
    { clear - Hmi'. apply Forall2_app_inv_l in Hmi'.
      destruct Hmi' as (l1 & l2 & _ & H2 & ->).
      inversion H2 as [|x [c' nci] l l' [e _] Hp]; subst. simpl in e. subst c'.
      exists l1, nci, l'. split; [reflexivity|].
      symmetry. exact (Forall2_length Hp). }
    destruct (IH mi c v prei nci pci) as (mj & Ej).
    + apply arena_wf_shape with (m := m); assumption.
    + exact Emi.
    + subst post. rewrite length_app in Hl. simpl in Hl. lia.
    + exists mj. split; [exact Ej|].
      apply rel_map_trans with (m2 := mi);
        [apply set_or_kept_trans | exact Hmi | exact (setChecked_rel _ _ _ _ Ej)].
  - apply rel_map_set with (v := nd);
      [left; reflexivity | exact G | right; reflexivity].
  - exists m'. exact Hm'.
Qed.

Lemma setCheckedRecursive_total m k (v : bool) :
  arena_wf m ->
  exists m', setCheckedRecursive m k v = Some m' /\
             rel_map (set_or_kept v) m m'.
Proof.
  intros W. unfold setCheckedRecursive.
  destruct (JsMap.get m k) as [nd|] eqn:G.
  - destruct (get_split _ _ G) as (pre & post & E & _).
    destruct (@setChecked_total (S (JsMap.size m)) m k v pre nd post W E)
      as (m' & Hm').
    + subst m. unfold JsMap.size. rewrite length_app. simpl. lia.
    + exists m'. split; [exact Hm' | exact (setChecked_rel _ _ _ _ Hm')].
  - exists m. simpl. rewrite G. split; [reflexivity|].
    apply rel_map_refl. left. reflexivity.
Qed.

(** Every descendant of the node is written. *)
Lemma setChecked_desc (fuel : nat) :
  forall m k (v : bool) m',
    setCheckedRecursive_fuel fuel m k v = Some m' ->
    forall x nx, desc_or_self m k x -> JsMap.get m x = Some nx ->
                 JsMap.get m' x = Some (with_toggle nx v false).
Proof.
  induction fuel as [|f IH]; intros m k v m' H x nx D Gx; simpl in H;
    destruct (JsMap.get m k) as [nd|] eqn:G; try discriminate;
    try (exfalso; inversion D; subst; congruence).
  assert (R1 : rel_map (set_or_kept v) m (JsMap.set m k (with_toggle nd v false)))
    by (apply rel_map_set with (v := nd);
        [left; reflexivity | exact G | right; reflexivity]).
  assert (Hfold : forall cs mi,
             rel_map (set_or_kept v) m mi ->
             foldM (fun mi c => setCheckedRecursive_fuel f mi c v) cs mi
             = Some m' ->
             rel_map (set_or_kept v) mi m' /\
             forall c, In c cs -> desc_or_self m c x ->
                       JsMap.get m' x = Some (with_toggle nx v false)).
  { induction cs as [|c0 r IHr]; simpl; intros mi Hmi Hf.
    - injection Hf as <-. split; [|contradiction].
      apply rel_map_refl. left. reflexivity.
    - destruct (setCheckedRecursive_fuel f mi c0 v) as [mj|] eqn:Ej;
        simpl in Hf; [|discriminate].
      assert (Rij := setChecked_rel _ _ _ _ Ej).
      assert (Hmj : rel_map (set_or_kept v) m mj)
        by (apply rel_map_trans with (m2 := mi);
            [apply set_or_kept_trans | exact Hmi | exact Rij]).
      destruct (IHr mj Hmj Hf) as (Rj & Hrest).
      split.
      + apply rel_map_trans with (m2 := mj);
          [apply set_or_kept_trans | exact Rij | exact Rj].
      + intros c [->|i] Dc; [|exact (Hrest c i Dc)].
        destruct (rel_map_get _ Hmi Gx) as (nxi & Gxi & Rx).
        assert (Gj : JsMap.get mj x = Some (with_toggle nxi v false)).
        { apply (IH mi c v mj Ej x nxi); [|exact Gxi].
          apply desc_shape with (m := m); [|exact Dc].
          apply rel_map_impl with (R := set_or_kept v);
            [apply set_or_kept_same | exact Hmi]. }
        rewrite (set_or_kept_toggle Rx) in Gj.
        destruct (rel_map_get _ Rj Gj) as (z & Gz & Rz).
        rewrite Gz. f_equal. apply (set_or_kept_done Rz). }
  destruct (Hfold _ _ R1 H) as (R2 & Hc).
  inversion D as [|a nd0 c x0 G0 i Dc]; subst.
  - assert (nx = nd) by congruence. subst nx.
    destruct (rel_map_get _ R2 (get_set_same m x (with_toggle nd v false)))
      as (z & Gz & Rz).
    rewrite Gz. f_equal. apply (set_or_kept_done Rz).
  - assert (nd0 = nd) by congruence. subst nd0.
    exact (Hc c i Dc).
Qed.

(* ---------------------------------------------------------------- *)
(** ** [recomputeIndeterminateUp] *)

Lemma recomputed_or_kept_trans (a b c : Node Num) :
  recomputed_or_kept a b -> recomputed_or_kept b c -> recomputed_or_kept a c.
Proof.
  intros Hab [->|[Hs Hp]]; [exact Hab|].
  right. split; [|exact Hp].
  apply same_node_trans with (b := b);
    [apply recomputed_or_kept_same; exact Hab | exact Hs].
Qed.

Lemma recomputeNode_ok m nd : recomputed_or_kept nd (recomputeNode m nd).
Proof.
  right. unfold recomputeNode.
  destruct (children nd) as [|c r] eqn:E.
  - split; [apply same_node_toggle | simpl; discriminate].
  - repeat match goal with
           | |- context [if ?b then _ else _] => destruct b
           end;
      (split; [apply same_node_toggle|]; simpl; intros H;
       first [discriminate | split; [reflexivity | congruence]]).
Qed.

Lemma recompute_rel (fuel : nat) :
  forall m k m',
    recomputeIndeterminateUp_fuel fuel m k = Some m' ->
    rel_map recomputed_or_kept m m'.
Proof.
  assert (Hrefl : forall x : Node Num, recomputed_or_kept x x)
    by (intros x; left; reflexivity).
  induction fuel as [|f IH]; intros m k m'; simpl;
    destruct (JsMap.get m k) as [nd|] eqn:G;
    try (intros [= <-]; apply rel_map_refl; exact Hrefl);
    destruct (truthy (parentId nd)) as [p|];
    try discriminate;
    try (intros [= <-]; apply rel_map_set with (v := nd);
         [exact Hrefl | exact G | apply recomputeNode_ok]).
  intros H. apply rel_map_trans with (m2 := JsMap.set m k (recomputeNode m nd)).
  - apply recomputed_or_kept_trans.
  - apply rel_map_set with (v := nd);
      [exact Hrefl | exact G | apply recomputeNode_ok].
  - exact (IH _ _ _ H).
Qed.

Lemma truthy_Some (o : option string) (p : string) :
  truthy o = Some p -> o = Some p /\ p <> "".
Proof.
  destruct o as [s|]; simpl; [|discriminate].
  destruct s; simpl; [discriminate|]. intros [= <-]. split; congruence.
Qed.

Lemma truthy_key (p : string) : p <> "" -> truthy (Some p) = Some p.
Proof. destruct p; simpl; congruence. Qed.

Lemma recompute_total (fuel : nat) :
  forall m k pre nd post,
    arena_wf m -> m = pre ++ (k, nd) :: post -> List.length pre < fuel ->
    exists m', recomputeIndeterminateUp_fuel fuel m k = Some m'.
Proof.
  induction fuel as [|f IH]; intros m k pre nd post W E Hl; [lia|].
  destruct (W pre k nd post E) as [_ _ F P _ _].
  simpl. assert (G : JsMap.get m k = Some nd)
    by (subst m; apply get_middle; exact F).
  rewrite G. destruct (truthy (parentId nd)) as [p|] eqn:T; [|eauto].
  apply truthy_Some in T. destruct T as (T & _). rewrite T in P.
  destruct P as (pn & Gp & _).
  destruct (get_split _ _ Gp) as (pre1 & post1 & Epre & _).
  destruct f as [|f']; [subst pre; rewrite length_app in Hl; simpl in Hl; lia|].
  apply (IH _ p pre1 pn (post1 ++ (k, recomputeNode m nd) :: post)).
  - apply arena_wf_shape with (m := m); [|exact W].
    apply rel_map_impl with (R := recomputed_or_kept);
      [apply recomputed_or_kept_same|].
    apply rel_map_set with (v := nd);
      [intros x; left; reflexivity | exact G | apply recomputeNode_ok].
  - subst m. rewrite set_middle by exact F. subst pre.
    rewrite <- app_assoc. reflexivity.
  - subst pre. rewrite length_app in Hl. simpl in Hl. lia.
Qed.

Lemma recomputeIndeterminateUp_total m k :
  arena_wf m ->
  exists m', recomputeIndeterminateUp m k = Some m' /\
             rel_map recomputed_or_kept m m'.
Proof.
  intros W. unfold recomputeIndeterminateUp.
  destruct (JsMap.get m k) as [nd|] eqn:G.
  - destruct (get_split _ _ G) as (pre & post & E & _).
    destruct (@recompute_total (S (JsMap.size m)) m k pre nd post W E)
      as (m' & Hm').
    + subst m. unfold JsMap.size. rewrite length_app. simpl. lia.
    + exists m'. split; [exact Hm' | exact (recompute_rel _ _ _ Hm')].
  - exists m. simpl. rewrite G. split; [reflexivity|].
    apply rel_map_refl. left. reflexivity.
Qed.

(* ---------------------------------------------------------------- *)
(** ** [getEffectiveChecked] *)

Lemma climbChecked_spec (fuel : nat) :
  forall m pre k nd post,
    arena_wf m -> m = pre ++ (k, nd) :: post -> List.length pre < fuel ->
    exists b, climbChecked fuel m nd = Some b /\
              (b = true <-> match parentId nd with
                            | Some p => all_checked m p
                            | None => True
                            end).
Proof.
  induction fuel as [|f IH]; intros m pre k nd post W E Hl; [lia|].
  destruct (W pre k nd post E) as [_ _ F P _ _].
  destruct (parentId nd) as [p|] eqn:Ep.
  - destruct P as (pn & Gp & _).
    destruct (get_split _ _ Gp) as (pre1 & post1 & Epre & F1).
    assert (Em : m = pre1 ++ (p, pn) :: post1 ++ (k, nd) :: post)
      by (subst m pre; rewrite <- app_assoc; reflexivity).
    destruct (W _ _ _ _ Em) as [Kp _ _ _ _ _].
    assert (Gm : JsMap.get m p = Some pn)
      by (rewrite Em; apply get_middle; exact F1).
    simpl. rewrite Ep, (truthy_key Kp), Gm.
    destruct (checked pn) eqn:Cp.
    + destruct f as [|f'];
        [subst pre; rewrite length_app in Hl; simpl in Hl; lia|].
      destruct (IH m pre1 p pn (post1 ++ (k, nd) :: post) W Em)
        as (b & Hb & Hiff).
      { subst pre. rewrite length_app in Hl. simpl in Hl. lia. }
      exists b. split; [exact Hb|]. rewrite Hiff. split.
      * intros Hup a Ha. inversion Ha as [|x nx p' a' Gx Epx Hp']; subst.
        -- eauto.
        -- assert (nx = pn) by congruence. subst nx. rewrite Epx in Hup.
           exact (Hup a Hp').
      * intros Hall. destruct (parentId pn) as [p'|] eqn:Epp; [|exact I].
        intros a Ha. apply Hall.
        apply anc_up with (nd := pn) (p := p'); assumption.
    + exists false. split; [reflexivity|]. split; [discriminate|].
      intros Hall. destruct (Hall p (anc_self m p)) as (na & Gna & Cna).
      congruence.
  - simpl. rewrite Ep. simpl. exists true. tauto.
Qed.

Lemma getEffectiveChecked_spec m k :
  arena_wf m ->
  exists b, getEffectiveChecked m k = Some b /\ (b = true <-> all_checked m k).
Proof.
  intros W. unfold getEffectiveChecked.
  destruct (JsMap.get m k) as [nd|] eqn:G.
  - destruct (checked nd) eqn:C.
    + destruct (get_split _ _ G) as (pre & post & E & _).
      destruct (@climbChecked_spec (S (JsMap.size m)) m pre k nd post W E)
        as (b & Hb & Hiff).
      { subst m. unfold JsMap.size. rewrite length_app. simpl. lia. }
      exists b. split; [exact Hb|]. rewrite Hiff. split.
      * intros Hup a Ha. inversion Ha as [|x nx p a' Gx Epx Hp]; subst.
        -- eauto.
        -- assert (nx = nd) by congruence. subst nx. rewrite Epx in Hup.
           exact (Hup a Hp).
      * intros Hall. destruct (parentId nd) as [p|] eqn:Ep; [|exact I].
        intros a Ha. apply Hall.
        apply anc_up with (nd := nd) (p := p); assumption.
    + exists false. split; [reflexivity|]. split; [discriminate|].
      intros Hall. destruct (Hall k (anc_self m k)) as (na & Gna & Cna).
      congruence.
  - exists false. split; [reflexivity|]. split; [discriminate|].
    intros Hall. destruct (Hall k (anc_self m k)) as (na & Gna & _).
    congruence.
Qed.

(** C4.  In a built arena [getEffectiveChecked] returns, and it returns
    true exactly when the node and every node on its chain of parents up to
    the root is there with [checked = true]; one unchecked node on the chain
    makes it false whatever the nodes below it say. *)
Theorem getEffectiveChecked_iff_chain_checked nodes (nodeId : string) :
  arena_wf nodes ->
  exists b, getEffectiveChecked nodes nodeId = Some b /\
            (b = true <->
             forall a, anc_or_self nodes nodeId a ->
                       exists na, JsMap.get nodes a = Some na /\
                                  checked na = true).
Proof. intros W. exact (getEffectiveChecked_spec nodeId W). Qed.

End Toggles.

(* ------------------------------------------------------------------ *)
(** ** The visibility projection *)

Section Visibility.

Context {Num : Type} {ops : JsNum Num}.
Implicit Types (w : World Num) (m nodes : NodeMap Num) (k : string).

Lemma ensureMapping_frame w :
  kmlDataSource (ensureMapping w) = kmlDataSource w /\
  hideLabels (ensureMapping w) = hideLabels w /\
  nodesById (state (ensureMapping w)) = nodesById (state w) /\
  rootNodeId (state (ensureMapping w)) = rootNodeId (state w) /\
  userHasInteracted (state (ensureMapping w)) = userHasInteracted (state w).
Proof.
  unfold ensureMapping, rebuildPlacemarkToEntityMap.
  destruct (JsMap.size (placemarkToEntity (state w))); [|tauto].
  destruct (kmlDataSource w) eqn:K; simpl;
    [destruct (JsMap.size (placemarkIndex (state w)))|];
    simpl; repeat split; auto.
Qed.

Lemma enabledKeysOf_total nodes :
  arena_wf nodes -> exists ks, enabledKeysOf nodes = Some ks.
Proof.
  intros W. unfold enabledKeysOf.
  destruct (@foldM_total (Node Num) (list string)
              (fun enabledKeys node =>
                 if (tag node =? "Placemark")%string then
                   effective <- getEffectiveChecked nodes (id node) ;;
                   Some (fold_left
                           (fun s k => if effective then setAdd s k else s)
                           (placemarkKeys node) enabledKeys)
                 else Some enabledKeys)
              (fun _ => True) (JsMap.values nodes)) with (s := @nil string)
    as (ks & H & _); [| exact I | eauto].
  intros s nd _ _. destruct (tag nd =? "Placemark")%string; [|eauto].
  destruct (getEffectiveChecked_spec (id nd) W) as (b & -> & _).
  simpl. eauto.
Qed.

Lemma applyVisibility_frame w w' :
  applyVisibilityFromTree w = Some w' ->
  nodesById (state w') = nodesById (state w) /\
  rootNodeId (state w') = rootNodeId (state w).
Proof.
  unfold applyVisibilityFromTree.
  destruct (kmlDataSource w); [|intros [= <-]; tauto].
  destruct (enabledKeysOf (nodesById (state w))); simpl; [|discriminate].
  destruct (ensureMapping_frame w) as (_ & _ & En & Er & _).
  destruct (JsMap.size (placemarkToEntity (state (ensureMapping w))));
    intros [= <-]; simpl; tauto.
Qed.

Lemma applyVisibility_total w :
  arena_wf (nodesById (state w)) ->
  exists w', applyVisibilityFromTree w = Some w'.
Proof.
  intros W. unfold applyVisibilityFromTree.
  destruct (kmlDataSource w); [|eauto].
  destruct (enabledKeysOf_total W) as (ks & ->). simpl.
  destruct (JsMap.size (placemarkToEntity (state (ensureMapping w)))); eauto.
Qed.

Lemma setLabels_show (b : bool) (e : Entity Num) :
  ent_show (setLabels b e) = ent_show e.
Proof. reflexivity. Qed.


(* ---------------------------------------------------------------- *)
(** ** Bulk operations and the tri-state constraint *)

Lemma session_wf_nodes (st : State Num) m' :
  rel_map same_node (nodesById st) m' -> session_wf st ->
  session_wf (with_nodes st m').
Proof.
  intros H [W R F]. constructor; simpl.
  - apply arena_wf_shape with (m := nodesById st); assumption.
  - rewrite (arena_root_shape H). exact R.
  - intros rootId nd' Hr G.
    destruct (rel_map_get_inv _ H G) as (nd & G0 & (_&_&et&_)).
    rewrite <- et. exact (F rootId nd Hr G0).
Qed.

Lemma session_wf_interacted (st : State Num) (b : bool) :
  session_wf st -> session_wf (with_interacted st b).
Proof. intros [W R F]. constructor; simpl; assumption. Qed.

Lemma session_wf_eq (st st' : State Num) :
  nodesById st' = nodesById st -> rootNodeId st' = rootNodeId st ->
  session_wf st -> session_wf st'.
Proof.
  intros En Er [W R F]. constructor; rewrite ?En, ?Er; assumption.
Qed.

Lemma root_present (st : State Num) (rootId : string) :
  session_wf st -> rootNodeId st = Some rootId ->
  rootId <> "" /\ exists nd, JsMap.get (nodesById st) rootId = Some nd.
Proof.
  intros [W R F] Hr. rewrite Hr in R.
  destruct (nodesById st) as [|[k nd] post] eqn:E; simpl in R; [discriminate|].
  injection R as <-.
  destruct (W [] rootId nd post eq_refl) as [K _ _ _ _ _].
  split; [exact K|]. exists nd. simpl. rewrite String.eqb_refl. reflexivity.
Qed.

Lemma wf_not_placemark m k nd :
  arena_wf m -> JsMap.get m k = Some nd -> children nd <> [] ->
  tag nd <> "Placemark".
Proof.
  intros W G Hc Ht. destruct (get_split _ _ G) as (pre & post & E & _).
  destruct (W pre k nd post E) as [_ _ _ _ _ L]. auto.
Qed.

Lemma setChecked_keeps w k (v : bool) :
  toggles_ok w ->
  exists m', setCheckedRecursive (nodesById (state w)) k v = Some m' /\
             rel_map (set_or_kept v) (nodesById (state w)) m' /\
             toggles_ok (onNodes w m').
Proof.
  intros [S T]. destruct (setCheckedRecursive_total k v (sw_arena S))
    as (m' & E & R).
  exists m'. split; [exact E|]. split; [exact R|]. split.
  - apply session_wf_nodes; [|exact S].
    apply rel_map_impl with (R := set_or_kept v);
      [apply set_or_kept_same | exact R].
  - simpl. intros x nd' G.
    destruct (rel_map_get_inv _ R G) as (nd & G0 & [->| ->]).
    + exact (T x nd G0).
    + intros Hi. simpl in Hi. discriminate.
Qed.

Lemma recompute_keeps w k :
  toggles_ok w ->
  exists m', recomputeIndeterminateUp (nodesById (state w)) k = Some m' /\
             toggles_ok (onNodes w m').
Proof.
  intros [S T]. destruct (recomputeIndeterminateUp_total k (sw_arena S))
    as (m' & E & R).
  assert (S' : session_wf (with_nodes (state w) m')).
  { apply session_wf_nodes; [|exact S].
    apply rel_map_impl with (R := @recomputed_or_kept Num);
      [apply recomputed_or_kept_same | exact R]. }
  exists m'. split; [exact E|]. split; [exact S'|].
  simpl. intros x nd' G.
  destruct (rel_map_get_inv _ R G) as (nd & G0 & [->|[_ Hp]]).
  - exact (T x nd G0).
  - intros Hi. destruct (Hp Hi) as (Hc & Hn).
    split; [exact Hc|]. split; [|left; exact Hn].
    eapply wf_not_placemark; [exact (sw_arena S') | exact G | exact Hn].
Qed.

Lemma applyVisibility_keeps w :
  toggles_ok w ->
  exists w', applyVisibilityFromTree w = Some w' /\ toggles_ok w'.
Proof.
  intros [S T]. destruct (applyVisibility_total w (sw_arena S)) as (w' & E).
  destruct (applyVisibility_frame _ E) as (En & Er).
  exists w'. split; [exact E|]. split.
  - eapply session_wf_eq; [exact En | exact Er | exact S].
  - rewrite En, Er. exact T.
Qed.

Lemma toggles_ok_interacted w (b : bool) :
  toggles_ok w ->
  toggles_ok (with_state w (with_interacted (state w) b)).
Proof.
  intros [S T]. split; [apply session_wf_interacted, S | exact T].
Qed.

Lemma checkAll_keeps w :
  toggles_ok w -> exists w', checkAll w = Some w' /\ toggles_ok w'.
Proof.
  intros H. unfold checkAll.
  destruct (truthy (rootNodeId (state w))) as [rootId|]; [|eauto].
  destruct (setChecked_keeps rootId true H) as (m1 & -> & _ & H1). simpl.
  apply (applyVisibility_keeps (toggles_ok_interacted true H1)).
Qed.

Lemma uncheckAll_keeps w :
  toggles_ok w -> exists w', uncheckAll w = Some w' /\ toggles_ok w'.
Proof.
  intros H. unfold uncheckAll.
  destruct (truthy (rootNodeId (state w))) as [rootId|] eqn:Tr; [|eauto].
  apply truthy_Some in Tr. destruct Tr as (Er & _).
  destruct (setChecked_keeps rootId false H) as (m1 & -> & _ & S1 & T1).
  simpl in *.
  apply applyVisibility_keeps.
  destruct (JsMap.get m1 rootId) as [root|] eqn:G.
  - assert (R : rel_map same_node m1
                  (JsMap.set m1 rootId (with_toggle root true true)))
      by (apply rel_map_set with (v := root);
          [apply same_node_refl | exact G | apply same_node_toggle]).
    split.
    + apply session_wf_interacted.
      exact (@session_wf_nodes (with_nodes (state w) m1) _ R S1).
    + simpl. intros x nd G'.
      destruct (String.eqb_spec x rootId) as [->|ne].
      * rewrite get_set_same in G'. injection G' as <-.
        intros _. simpl. split; [reflexivity|]. split; [|right; exact Er].
        eapply (sw_folder S1); [exact Er | exact G].
      * rewrite get_set_other in G' by exact ne. exact (T1 x nd G').
  - split; [apply session_wf_interacted, S1 | exact T1].
Qed.

Lemma stepOp_keeps w (op : ToggleOp) :
  toggles_ok w -> exists w', stepOp w op = Some w' /\ toggles_ok w'.
Proof.
  intros H. destruct op as [k v|k| |]; simpl.
  - destruct (setChecked_keeps k v H) as (m' & -> & _ & H'). simpl. eauto.
  - destruct (recompute_keeps k H) as (m' & -> & H'). simpl. eauto.
  - apply checkAll_keeps, H.
  - apply uncheckAll_keeps, H.
Qed.

(** C5, as the code has it.  From a freshly built tree (a well-formed
    session in which no node is indeterminate), every sequence of
    [setCheckedRecursive], [recomputeIndeterminateUp], [checkAll] and
    [uncheckAll] returns, and afterwards every indeterminate node is checked
    and is a folder, and every indeterminate node other than the root has a
    child. *)
Theorem tri_state_kept_but_root w (toggles : list ToggleOp) :
  session_wf (state w) ->
  (forall k nd, JsMap.get (nodesById (state w)) k = Some nd ->
                indeterminate nd = false) ->
  exists w', runOps w toggles = Some w' /\
             forall k nd,
               JsMap.get (nodesById (state w')) k = Some nd ->
               indeterminate nd = true ->
               checked nd = true /\ tag nd <> "Placemark" /\
               (children nd <> [] \/ rootNodeId (state w') = Some k).
Proof.
  intros S Hfresh.
  assert (H : toggles_ok w).
  { split; [exact S|]. intros k nd G Hi. rewrite (Hfresh k nd G) in Hi.
    discriminate. }
  clear S Hfresh. revert w H.
  induction toggles as [|op r IH]; intros w H; unfold runOps; simpl.
  - exists w. split; [reflexivity|]. exact (proj2 H).
  - destruct (stepOp_keeps op H) as (w1 & -> & H1). simpl.
    exact (IH w1 H1).
Qed.

(** C6.  On every built tree [uncheckAll] returns; afterwards the arena has
    the same nodes, the root is checked and indeterminate, and every other
    node is unchecked and not indeterminate. *)
Theorem uncheckAll_leaves_root_mixed w (rootId : string) :
  session_wf (state w) ->
  rootNodeId (state w) = Some rootId ->
  exists w',
    uncheckAll w = Some w' /\
    JsMap.keys (nodesById (state w')) = JsMap.keys (nodesById (state w)) /\
    forall k nd,
      JsMap.get (nodesById (state w')) k = Some nd ->
      if (k =? rootId)%string
      then checked nd = true /\ indeterminate nd = true
      else checked nd = false /\ indeterminate nd = false.
Proof.
  intros S Er. destruct (root_present S Er) as (Kr & root & Gr).
  unfold uncheckAll. rewrite Er, (truthy_key Kr).
  unfold setCheckedRecursive.
  destruct (setCheckedRecursive_total rootId false (sw_arena S))
    as (m1 & E1 & R1).
  unfold setCheckedRecursive in E1. rewrite E1. simpl.
  assert (Hall : forall x nx, JsMap.get (nodesById (state w)) x = Some nx ->
                              JsMap.get m1 x = Some (with_toggle nx false false)).
  { intros x nx Gx. eapply setChecked_desc; [exact E1 | | exact Gx].
    apply root_reaches_all; [exact (sw_arena S) | |].
    - rewrite <- (sw_root S). exact Er.
    - apply get_Some_keys with (v := nx). exact Gx. }
  rewrite (Hall rootId root Gr).
  set (m2 := JsMap.set m1 rootId
               (with_toggle (with_toggle root false false) true true)).
  assert (R2 : rel_map same_node m1 m2).
  { apply rel_map_set with (v := with_toggle root false false);
      [apply same_node_refl | exact (Hall rootId root Gr)
       | apply same_node_toggle]. }
  assert (R12 : rel_map same_node (nodesById (state w)) m2).
  { apply rel_map_trans with (m2 := m1);
      [apply same_node_trans | | exact R2].
    apply rel_map_impl with (R := set_or_kept false);
      [apply set_or_kept_same | exact R1]. }
  destruct (@applyVisibility_total
              (with_state w (with_interacted (with_nodes (state w) m2) true)))
    as (w' & Ew').
  { simpl. apply arena_wf_shape with (m := nodesById (state w));
      [exact R12 | exact (sw_arena S)]. }
  exists w'. split; [exact Ew'|].
  destruct (applyVisibility_frame _ Ew') as (En & _). simpl in En.
  rewrite En. split; [exact (rel_map_keys R12)|].
  intros k nd G. destruct (String.eqb_spec k rootId) as [->|ne].
  - unfold m2 in G. rewrite get_set_same in G. injection G as <-.
    simpl. auto.
  - unfold m2 in G. rewrite get_set_other in G by exact ne.
    destruct (rel_map_get_inv _ R1 G) as (nx & Gx & _).
    rewrite (Hall k nx Gx) in G. injection G as <-. simpl. auto.
Qed.

End Visibility.

(* ------------------------------------------------------------------ *)
(** ** Reconciliation *)

Section Reconciliation.

Context {Num : Type} {ops : JsNum Num}.
Implicit Types (ents : list (Entity Num)) (e : Entity Num) (h : Handle).

Lemma fold_left_inv (A B : Type) (f : A -> B -> A) (P : A -> Prop)
      (l : list B) :
  (forall a b, In b l -> P a -> P (f a b)) ->
  forall a, P a -> P (fold_left f l a).
Proof.
  induction l as [|b r IH]; simpl; intros Hf a Ha; [exact Ha|].
  apply IH; auto.
Qed.

Lemma combine_seq_nth (A : Type) (l : list A) (s h : nat) (x : A) :
  In (h, x) (combine (seq s (List.length l)) l) <->
  s <= h /\ nth_error l (h - s) = Some x.
Proof.
  revert s. induction l as [|y r IH]; intros s; simpl.
  - split; [contradiction|]. intros [_ H]. destruct (h - s); discriminate.
  - rewrite IH. split.
    + intros [E|[Hle Hn]].
      * injection E as <- <-. rewrite Nat.sub_diag. simpl. auto.
      * split; [lia|]. replace (h - s) with (S (h - S s)) by lia. exact Hn.
    + intros [Hle Hn]. destruct (h - s) as [|d] eqn:Ed.
      * left. simpl in Hn. injection Hn as ->. f_equal. lia.
      * right. split; [lia|]. replace (h - S s) with d by lia. exact Hn.
Qed.

Lemma handles_nth ents h e :
  In (h, e) (handles ents) <-> nth_error ents h = Some e.
Proof.
  unfold handles. rewrite combine_seq_nth, Nat.sub_0_r.
  split; [tauto | intros H; split; [lia | exact H]].
Qed.

Lemma getOrNil_In (V : Type) (m : JsMap.t (list V)) (k : string) (x : V) :
  In x (getOrNil m k) -> exists l, JsMap.get m k = Some l /\ In x l.
Proof.
  unfold getOrNil. destruct (JsMap.get m k) as [l|]; [eauto | contradiction].
Qed.

(** Every candidate of a name pool is an entity that carries geometry. *)
Lemma pools_have_geometry ents (nm : string) (cs : list (Candidate Num))
      (c : Candidate Num) :
  JsMap.get (poolsByName ents) nm = Some cs -> In c cs ->
  exists e, nth_error ents (entity c) = Some e /\ hasGeometry e = true.
Proof.
  unfold poolsByName. revert nm cs c.
  apply fold_left_inv with
    (P := fun byName => forall nm cs c,
              JsMap.get byName nm = Some cs -> In c cs ->
              exists e, nth_error ents (entity c) = Some e /\
                        hasGeometry e = true).
  - intros byName [h e] Hin IH nm cs c. simpl.
    destruct (hasGeometry e) eqn:Hg; [|apply IH].
    destruct (String.eqb_spec nm (trim (orEmpty (ent_name e)))) as [->|ne].
    + rewrite get_set_same. intros [= <-] Hc.
      apply in_app_or in Hc. destruct Hc as [Hc|[<-|[]]].
      * apply getOrNil_In in Hc. destruct Hc as (l & G & Hl).
        exact (IH _ _ _ G Hl).
      * simpl. exists e. split; [apply handles_nth; exact Hin | exact Hg].
    + rewrite get_set_other by exact ne. apply IH.
  - intros nm cs c G. discriminate.
Qed.

(** Every entity of the collection is in the exact index, under its key. *)
Lemma index_has_every_entity ents h e :
  nth_error ents h = Some e ->
  In h (getOrNil (indexEntities ents) (entityKey e)).
Proof.
  intros H. apply handles_nth in H. unfold indexEntities.
  assert (forall l idx,
             In (h, e) l \/ In h (getOrNil idx (entityKey e)) ->
             In h (getOrNil
                     (fold_left
                        (fun idx he =>
                           let key := entityKey (snd he) in
                           JsMap.set idx key (getOrNil idx key ++ [fst he]))
                        l idx) (entityKey e))) as Hfold.
  { induction l as [|[h' e'] r IH]; simpl; intros idx Hor.
    - destruct Hor as [[]|Hor]. exact Hor.
    - apply IH. destruct Hor as [[E|Hin]|Hin].
      + injection E as -> ->. right. unfold getOrNil at 1.
        rewrite get_set_same. apply in_or_app. right. simpl. auto.
      + left. exact Hin.
      + right. unfold getOrNil at 1.
        destruct (String.eqb_spec (entityKey e) (entityKey e')) as [Ek|ne].
        * rewrite Ek, get_set_same. apply in_or_app. left.
          rewrite <- Ek. exact Hin.
        * rewrite get_set_other by exact ne. exact Hin. }
  apply Hfold. left. exact H.
Qed.

Lemma nearest_In (pc : Coord Num) (l : list (Candidate Num)) :
  forall (d : Num) (best : option (Candidate Num)) (b : Candidate Num),
    nearest pc l d best = Some b -> In b l \/ best = Some b.
Proof.
  induction l as [|c r IH]; simpl; intros d best b H; [auto|].
  destruct (coord c) as [cc|].
  - destruct (num_ltb (haversineMeters pc cc) d).
    + destruct (IH _ _ _ H) as [Hin|E]; [auto|].
      injection E as ->. auto.
    + destruct (IH _ _ _ H); auto.
  - destruct (IH _ _ _ H); auto.
Qed.

Lemma chooseBest_In (pmCoord : option (Coord Num))
      (l : list (Candidate Num)) (b : Candidate Num) :
  chooseBest pmCoord l = Some b -> In b l.
Proof.
  unfold chooseBest. destruct l as [|c [|c' r]]; [discriminate| |].
  - intros [= <-]. simpl. auto.
  - destruct pmCoord as [pc|]; [|discriminate].
    destruct (nearest pc (c :: c' :: r) num_infinity None) as [b'|] eqn:E.
    + intros [= <-]. destruct (nearest_In _ _ _ _ E) as [Hin|D];
        [exact Hin | discriminate].
    + intros [= <-]. simpl. auto.
Qed.

Lemma matchAll_origin ents (entityIndex : JsMap.t (list Handle))
      (placemarkIndex : JsMap.t (PmInfo Num)) (k : string)
      (hs : list Handle) :
  JsMap.get (matchAll ents entityIndex placemarkIndex) k = Some hs ->
  entry_origin ents entityIndex k hs.
Proof.
  unfold matchAll, JsMap.entries. revert k hs.
  apply fold_left_inv with
    (P := fun acc => forall k hs, JsMap.get (fst acc) k = Some hs ->
                                  entry_origin ents entityIndex k hs).
  - intros [result used] [pmKey info] _ IH k hs. unfold matchPlacemark.
    destruct (chooseBest _ _) as [best|] eqn:Eb.
    + simpl. destruct (String.eqb_spec k pmKey) as [->|ne].
      * rewrite get_set_same. intros [= <-]. right.
        apply chooseBest_In in Eb. apply filter_In in Eb.
        destruct Eb as (Hin & _). apply getOrNil_In in Hin.
        destruct Hin as (cs & G & Hc).
        exists (trim (getFeatureName (placemarkEl info))), cs, best. auto.
      * rewrite get_set_other by exact ne. apply IH.
    + destruct (JsMap.get entityIndex pmKey) as [[|e r]|] eqn:Ge;
        try apply IH.
      simpl. destruct (String.eqb_spec k pmKey) as [->|ne].
      * rewrite get_set_same. intros [= <-]. left. exact Ge.
      * rewrite get_set_other by exact ne. apply IH.
  - simpl. intros k hs G. discriminate.
Qed.

(** C8, as the code has it.  The name pools hold only entities with
    geometry, but the exact-GeoKey index is built over the whole collection:
    every entity, with or without geometry, is in it under its key.  So an
    entity without geometry is never assigned through a name pool, and when
    a placemark gets one it got the whole entry of the exact index under the
    placemark's own key. *)
Theorem fallback_index_is_unfiltered ents
        (placemarkIndex : JsMap.t (PmInfo Num)) :
  (forall nm cs c,
      JsMap.get (poolsByName ents) nm = Some cs -> In c cs ->
      exists e, nth_error ents (entity c) = Some e /\ hasGeometry e = true) /\
  (forall h e,
      nth_error ents h = Some e ->
      In h (getOrNil (indexEntities ents) (entityKey e))) /\
  (forall k hs h e,
      JsMap.get (reconcile placemarkIndex ents) k = Some hs -> In h hs ->
      nth_error ents h = Some e -> hasGeometry e = false ->
      JsMap.get (indexEntities ents) k = Some hs).
Proof.
  split; [apply pools_have_geometry|].
  split; [apply index_has_every_entity|].
  intros k hs h e G Hin Hn Hg. unfold reconcile in G.
  destruct (JsMap.size placemarkIndex); [discriminate|].
  destruct (matchAll_origin _ _ _ _ G) as [Hx|(nm & cs & c & Gp & Hc & ->)];
    [exact Hx|].
  exfalso. destruct Hin as [<-|[]].
  destruct (pools_have_geometry _ _ _ Gp Hc) as (e' & Hn' & Hg').
  congruence.
Qed.

End Reconciliation.

(* ------------------------------------------------------------------ *)
(** ** The authoritative branch *)

Section Authoritative.

Context {Num : Type} {ops : JsNum Num}.
Implicit Types (w : World Num) (ents : list (Entity Num)) (h i : Handle).








End Authoritative.

(* ------------------------------------------------------------------ *)
(** ** Deciding well-formedness *)

Section Deciding.

Context {Num : Type}.
Implicit Types (m pre rest : NodeMap Num) (k : string).

Lemma arena_wfb_from_sound rest :
  forall pre, arena_wfb_from pre rest = true ->
  forall a k nd post, rest = a ++ (k, nd) :: post ->
                      node_ok (pre ++ a) k nd post.
Proof.
  induction rest as [|[k0 nd0] post0 IH]; intros pre H a k nd post E.
  - destruct a; discriminate.
  - simpl in H. repeat (apply andb_prop in H; destruct H as (H & ?)).
    destruct a as [|x a'].
    + simpl in E. injection E as -> -> ->. rewrite app_nil_r.
      constructor.
      * destruct k; [discriminate | congruence].
      * apply String.eqb_eq. assumption.
      * rewrite <- mem_In. destruct (mem k (JsMap.keys pre));
          [discriminate | congruence].
      * unfold parent_okb in *. destruct (parentId nd) as [p|].
        -- destruct (JsMap.get pre p) as [pn|]; [|discriminate].
           exists pn. split; [reflexivity | apply mem_In; assumption].
        -- destruct pre; [reflexivity | discriminate].
      * intros c Hc. apply mem_In.
        match goal with
        | F : forallb _ _ = true |- _ =>
            rewrite forallb_forall in F; exact (F c Hc)
        end.
      * intros Ht.
        match goal with
        | O : (negb _ || _)%bool = true |- _ =>
            rewrite Ht in O; simpl in O; destruct (children nd);
            [reflexivity | discriminate]
        end.
    + simpl in E. injection E as Ex Ea. subst x post0.
      replace (pre ++ (k0, nd0) :: a') with ((pre ++ [(k0, nd0)]) ++ a')
        by (rewrite <- app_assoc; reflexivity).
      apply IH; [assumption | reflexivity].
Qed.

Lemma arena_wfb_sound m : arena_wfb m = true -> arena_wf m.
Proof.
  intros H pre k nd post E.
  change pre with ([] ++ pre).
  eapply arena_wfb_from_sound; [exact H | exact E].
Qed.

Lemma session_wfb_sound (st : State Num) :
  session_wfb st = true -> session_wf st.
Proof.
  unfold session_wfb. intros H.
  apply andb_prop in H. destruct H as (H & Hf).
  apply andb_prop in H. destruct H as (Hw & Hr).
  constructor.
  - apply arena_wfb_sound, Hw.
  - destruct (rootNodeId st) as [a|], (arena_root (nodesById st)) as [b|];
      try discriminate; [|reflexivity].
    apply String.eqb_eq in Hr. congruence.
  - intros rootId nd Er G Ht. rewrite Er, G, Ht in Hf. discriminate.
Qed.

Lemma freshb_sound m :
  freshb m = true ->
  forall k nd, JsMap.get m k = Some nd -> indeterminate nd = false.
Proof.
  unfold freshb. rewrite forallb_forall. intros H k nd G.
  apply get_Some_In in G. specialize (H _ G). simpl in H.
  destruct (indeterminate nd); [discriminate | reflexivity].
Qed.

End Deciding.

(* ------------------------------------------------------------------ *)
(** ** Failed loads *)

Section Loading.

Context {Num : Type} {ops : JsNum Num}.


End Loading.

(* ------------------------------------------------------------------ *)
(** ** The tree builder makes well-formed arenas *)

Section Building.

Context {Num : Type} {ops : JsNum Num}.
Implicit Types (m : NodeMap Num) (s : BuildState Num) (nd node : Node Num).

Lemma nodeIdOf_inj (a b : nat) : nodeIdOf a = nodeIdOf b -> a = b.
Proof.
  unfold nodeIdOf. simpl. intros [= H].
  apply Unsigned.to_uint_inj.
  assert (E := f_equal NilEmpty.uint_of_string H).
  rewrite !NilEmpty.usu in E. congruence.
Qed.

Lemma nodeIdOf_nonempty (a : nat) : nodeIdOf a <> "".
Proof. unfold nodeIdOf. simpl. discriminate. Qed.

Lemma in_ids (j a len : nat) :
  In (nodeIdOf j) (map nodeIdOf (seq a len)) <-> a <= j < a + len.
Proof.
  rewrite in_map_iff. split.
  - intros (i & E & Hi). apply nodeIdOf_inj in E. subst i.
    apply in_seq in Hi. exact Hi.
  - intros H. exists j. split; [reflexivity | apply in_seq; exact H].
Qed.

Lemma arena_seq_in m (n j : nat) :
  arena_seq m n -> (In (nodeIdOf j) (JsMap.keys m) <-> 1 <= j < n).
Proof.
  unfold arena_seq. intros ->. rewrite in_ids. lia.
Qed.

Lemma keys_set_present (V : Type) (mp : JsMap.t V) (k : string) (v : V) :
  In k (JsMap.keys mp) -> JsMap.keys (JsMap.set mp k v) = JsMap.keys mp.
Proof.
  induction mp as [|[k' w] r IH]; simpl; [contradiction|].
  destruct (String.eqb_spec k k') as [->|ne]; [reflexivity|].
  intros [E|Hin]; [congruence|]. simpl. f_equal. apply IH, Hin.
Qed.

Lemma arena_seq_push m (n : nat) nd :
  1 <= n -> arena_seq m n -> arena_seq (JsMap.set m (nodeIdOf n) nd) (S n).
Proof.
  intros Hn Hs. unfold arena_seq.
  rewrite set_absent by (rewrite (arena_seq_in _ Hs); lia).
  rewrite keys_app. simpl. rewrite Hs.
  replace (n - 0) with (S (n - 1)) by lia.
  rewrite seq_S, map_app. simpl. do 3 f_equal. lia.
Qed.

Lemma arena_seq_set m (n j : nat) nd :
  arena_seq m n -> 1 <= j < n -> arena_seq (JsMap.set m (nodeIdOf j) nd) n.
Proof.
  intros Hs Hj. unfold arena_seq.
  rewrite keys_set_present by (rewrite (arena_seq_in _ Hs); exact Hj).
  exact Hs.
Qed.

Lemma get_set_id m (i j : nat) nd :
  i <> j ->
  JsMap.get (JsMap.set m (nodeIdOf j) nd) (nodeIdOf i)
  = JsMap.get m (nodeIdOf i).
Proof.
  intros ne. apply get_set_other. intros E. apply nodeIdOf_inj in E. lia.
Qed.

Lemma Element_nested_ind (P : Element Num -> Prop) :
  (forall tg nm co kids, Forall P kids -> P (mkElement tg nm co kids)) ->
  forall e, P e.
Proof.
  intros H. fix rec 1. intros [tg nm co kids]. apply H.
  induction kids as [|k r IH]; constructor; [apply rec | exact IH].
Qed.

(** The root of a block gets one more child: the block that the call for
    the child has just built. *)
Lemma block_add_child (tg ctg : string) (parent : option string)
      (s0 s s1 : BuildState Num) node childNode (ks : list string) :
  1 <= b_next s0 -> tg <> "Placemark" ->
  build_post tg parent s0 s node ->
  build_post ctg (Some (nodeIdOf (b_next s0))) s s1 childNode ->
  build_post tg parent s0
    (mkBuild (b_next s1)
       (JsMap.set (b_nodes s1) (id node)
          (with_children node (children node ++ [id childNode]) ks))
       (b_index s1))
    (with_children node (children node ++ [id childNode]) ks).
Proof.
  intros H1 Htg [N0 Q0 F0 G0 P0 T0 B0] [N1 Q1 F1 G1 P1 T1 B1].
  set (n := b_next s0) in *. set (c := b_next s) in *.
  set (c' := b_next s1) in *.
  destruct (B0 n ltac:(lia)) as (nd0 & Gn & On).
  assert (nd0 = node) by congruence. subst nd0.
  destruct (B1 c ltac:(lia)) as (ndc & Gc & Oc).
  assert (ndc = childNode) by congruence. subst ndc.
  rewrite (bo_id On).
  set (node' := with_children node (children node ++ [id childNode]) ks).
  constructor; simpl; fold n c c'.
  - lia.
  - apply arena_seq_set; [exact Q1 | lia].
  - intros j Hj. rewrite get_set_id by lia. rewrite F1 by lia. apply F0, Hj.
  - apply get_set_same.
  - exact P0.
  - exact T0.
  - intros j Hj. destruct (Nat.eq_dec j n) as [->|nej].
    + exists node'. split; [apply get_set_same|]. constructor.
      * exact (bo_id On).
      * left. reflexivity.
      * unfold node'. simpl. intros x Hx. apply in_app_or in Hx.
        destruct Hx as [Hx|[<-|[]]].
        -- destruct (bo_children On x Hx) as (i & Hi & ->).
           exists i. split; [lia | reflexivity].
        -- exists c. split; [lia | exact (bo_id Oc)].
      * unfold node'. simpl. intros Ht. rewrite T0 in Ht. contradiction.
      * exact (bo_fresh On).
    + rewrite get_set_id by exact nej.
      destruct (Nat.lt_ge_cases j c) as [Hlt|Hge].
      * destruct (B0 j ltac:(lia)) as (nd & Gj & Oj).
        exists nd. split; [rewrite F1 by lia; exact Gj|].
        destruct Oj as [I Pa C L Fr]. constructor; auto.
        -- destruct Pa as [->|(p & pn & Hp & Ep & Gp & Hin)]; [lia|].
           right. destruct (Nat.eq_dec p n) as [->|nep].
           ++ exists n, node'. split; [lia|]. split; [exact Ep|].
              split; [apply get_set_same|].
              assert (pn = node) by congruence. subst pn.
              unfold node'. simpl. apply in_or_app. left. exact Hin.
           ++ exists p, pn. split; [lia|]. split; [exact Ep|].
              split; [|exact Hin].
              rewrite get_set_id by exact nep. rewrite F1 by lia. exact Gp.
        -- intros x Hx. destruct (C x Hx) as (i & Hi & ->).
           exists i. split; [lia | reflexivity].
      * destruct (B1 j ltac:(lia)) as (nd & Gj & Oj).
        exists nd. split; [exact Gj|].
        destruct Oj as [I Pa C L Fr]. constructor; auto.
        right. destruct Pa as [->|(p & pn & Hp & Ep & Gp & Hin)].
        -- assert (nd = childNode) by congruence. subst nd.
           exists n, node'. split; [lia|]. split; [exact P1|].
           split; [apply get_set_same|].
           unfold node'. simpl. apply in_or_app. right. simpl.
           left. exact (bo_id Oc).
        -- exists p, pn. split; [lia|]. split; [exact Ep|].
           split; [|exact Hin]. rewrite get_set_id by lia. exact Gp.
Qed.

(** Rewriting [placemarkKeys] of the root of a block changes nothing of
    what was established. *)
Lemma block_set_keys (tg : string) (parent : option string)
      (s0 s : BuildState Num) node (ks : list string)
      (idx : JsMap.t (PmInfo Num)) :
  build_post tg parent s0 s node ->
  build_post tg parent s0
    (mkBuild (b_next s)
       (JsMap.set (b_nodes s) (id node) (with_placemarkKeys node ks)) idx)
    (with_placemarkKeys node ks).
Proof.
  intros [N0 Q0 F0 G0 P0 T0 B0].
  set (n := b_next s0) in *. set (c := b_next s) in *.
  destruct (B0 n ltac:(lia)) as (nd0 & Gn & On).
  assert (nd0 = node) by congruence. subst nd0.
  rewrite (bo_id On).
  assert (Hn : 1 <= n < c).
  { split; [|lia]. apply (arena_seq_in n Q0).
    apply get_Some_keys with (v := node). exact Gn. }
  constructor; simpl; fold n c.
  - lia.
  - apply arena_seq_set; [exact Q0 | exact Hn].
  - intros j Hj. rewrite get_set_id by lia. apply F0, Hj.
  - apply get_set_same.
  - exact P0.
  - exact T0.
  - intros j Hj. destruct (Nat.eq_dec j n) as [->|nej].
    + exists (with_placemarkKeys node ks). split; [apply get_set_same|].
      destruct On as [I Pa C L Fr]. constructor; auto.
    + rewrite get_set_id by exact nej.
      destruct (B0 j Hj) as (nd & Gj & Oj).
      exists nd. split; [exact Gj|].
      destruct Oj as [I Pa C L Fr]. constructor; auto.
      destruct Pa as [->|(p & pn & Hp & Ep & Gp & Hin)]; [lia|].
      right. destruct (Nat.eq_dec p n) as [->|nep].
      * exists n, (with_placemarkKeys node ks). split; [lia|].
        split; [exact Ep|]. split; [apply get_set_same|].
        assert (pn = node) by congruence. subst pn. exact Hin.
      * exists p, pn. split; [lia|]. split; [exact Ep|].
        split; [|exact Hin]. rewrite get_set_id by exact nep. exact Gp.
Qed.

Lemma buildChildren_post
      (build : Element Num -> list string -> BuildState Num ->
               BuildState Num * Node Num)
      (tg : string) (parent : option string) (s0 : BuildState Num)
      (pathNames : list string) (kids : list (Element Num)) :
  1 <= b_next s0 -> tg <> "Placemark" ->
  Forall (fun c => forall p s s' nd,
              1 <= b_next s -> arena_seq (b_nodes s) (b_next s) ->
              build c p s = (s', nd) ->
              build_post (tagName c) (Some (nodeIdOf (b_next s0))) s s' nd)
         kids ->
  forall s node s' node',
    build_post tg parent s0 s node ->
    buildChildren build pathNames kids s node = (s', node') ->
    build_post tg parent s0 s' node'.
Proof.
  intros H1 Htg HF. induction HF as [|c r Hc _ IH]; simpl;
    intros s node s' node' Hpost E.
  - injection E as <- <-. exact Hpost.
  - destruct (isFeatureTag (tagName c)); [|exact (IH _ _ _ _ Hpost E)].
    destruct (build c _ s) as [s1 childNode] eqn:Eb.
    assert (Hs : 1 <= b_next s) by (pose proof (bp_next Hpost); lia).
    assert (Hchild := Hc _ _ _ _ Hs (bp_seq Hpost) Eb).
    exact (IH _ _ _ _ (block_add_child _ H1 Htg Hpost Hchild) E).
Qed.

Lemma buildNode_eq (tg : string) (nm : option string)
      (co : option (Coord Num)) (kids : list (Element Num))
      (parent : option string) (pathNames : list string) s :
  buildNode (mkElement tg nm co kids) parent pathNames s =
  let featureEl := mkElement tg nm co kids in
  let name := getFeatureName featureEl in
  let id := nodeIdOf (b_next s) in
  let node := mkNode id parent name tg featureEl [] true false
                     (negb (tg =? "Placemark")%string) [] in
  let s1 := mkBuild (S (b_next s)) (JsMap.set (b_nodes s) id node)
                    (b_index s) in
  if (tg =? "Placemark")%string then
    let c := firstCoordFromPlacemark featureEl in
    let key := placemarkKey name (option_map (@lon Num) c)
                            (option_map (@lat Num) c) in
    let node' := with_placemarkKeys node [key] in
    (mkBuild (b_next s1) (JsMap.set (b_nodes s1) id node')
             (JsMap.set (b_index s1) key
                        (mkPmInfo featureEl (pathNames ++ [name]))),
     node')
  else
    let '(s2, node2) :=
      buildChildren (fun c p st => buildNode c (Some id) p st)
                    pathNames kids s1 node in
    let node3 := if Nat.ltb 1 (List.length (placemarkKeys node2))
                 then with_placemarkKeys node2 (dedupe (placemarkKeys node2))
                 else node2 in
    (mkBuild (b_next s2) (JsMap.set (b_nodes s2) id node3) (b_index s2),
     node3).
Proof. reflexivity. Qed.

(** The node that [buildNode] first puts into the arena. *)
Lemma build_post_start (tg : string) (parent : option string) s nd :
  1 <= b_next s -> arena_seq (b_nodes s) (b_next s) ->
  id nd = nodeIdOf (b_next s) -> parentId nd = parent -> tag nd = tg ->
  children nd = [] -> checked nd = true -> indeterminate nd = false ->
  build_post tg parent s
    (mkBuild (S (b_next s)) (JsMap.set (b_nodes s) (nodeIdOf (b_next s)) nd)
             (b_index s)) nd.
Proof.
  intros H1 Hs I P T C Ck In'. constructor; simpl.
  - lia.
  - apply arena_seq_push; assumption.
  - intros j Hj. apply get_set_id. lia.
  - apply get_set_same.
  - exact P.
  - exact T.
  - intros j Hj. assert (j = b_next s) by lia. subst j.
    exists nd. split; [apply get_set_same|]. constructor; auto.
    intros c Hc. rewrite C in Hc. contradiction.
Qed.

Lemma buildNode_post (el : Element Num) :
  forall (parent : option string) (pathNames : list string) s s' nd,
    1 <= b_next s -> arena_seq (b_nodes s) (b_next s) ->
    buildNode el parent pathNames s = (s', nd) ->
    build_post (tagName el) parent s s' nd.
Proof.
  induction el as [tg nm co kids IH] using Element_nested_ind.
  intros parent pathNames s s' nd H1 Hs E.
  rewrite buildNode_eq in E. cbv zeta in E. simpl tagName.
  set (id0 := nodeIdOf (b_next s)) in *.
  set (node := mkNode id0 parent (getFeatureName (mkElement tg nm co kids))
                 tg (mkElement tg nm co kids) [] true false
                 (negb (tg =? "Placemark")%string) []) in *.
  assert (P1 : build_post tg parent s
                 (mkBuild (S (b_next s)) (JsMap.set (b_nodes s) id0 node)
                          (b_index s)) node)
    by (apply build_post_start; auto).
  destruct (String.eqb_spec tg "Placemark") as [Et|Et].
  - injection E as <- <-.
    exact (block_set_keys _ _ P1).
  - destruct (buildChildren _ pathNames kids _ node) as [s2 node2] eqn:Ec.
    injection E as <- <-.
    assert (P2 : build_post tg parent s s2 node2).
    { eapply buildChildren_post; [exact H1 | exact Et | | exact P1 | exact Ec].
      apply Forall_impl with (2 := IH).
      intros c Hc p sa sb ndc Ha Hq Eq. exact (Hc _ _ _ _ _ Ha Hq Eq). }
    assert (I2 : id node2 = id0).
    { destruct (bp_block P2 (j := b_next s)) as (x & Gx & Ox);
        [destruct P2; lia|].
      rewrite (bp_node P2) in Gx. injection Gx as <-. exact (bo_id Ox). }
    rewrite <- I2.
    destruct (Nat.ltb 1 (List.length (placemarkKeys node2))).
    + exact (block_set_keys _ _ P2).
    + replace node2 with (with_placemarkKeys node2 (placemarkKeys node2))
        by (destruct node2; reflexivity).
      exact (block_set_keys _ _ P2).
Qed.

Lemma split_ids (A : Type) (f : nat -> A) (l1 : list A) (x : A)
      (l2 : list A) :
  forall a N,
    l1 ++ x :: l2 = map f (seq a N) ->
    x = f (a + List.length l1) /\
    l1 = map f (seq a (List.length l1)) /\
    l2 = map f (seq (a + List.length l1 + 1) (N - List.length l1 - 1)).
Proof.
  induction l1 as [|y r IH]; intros a N E; destruct N as [|N'];
    simpl in E; try discriminate.
  - injection E as -> ->. simpl List.length.
    replace (a + 0) with a by lia. replace (a + 1) with (S a) by lia.
    replace (S N' - 0 - 1) with N' by lia. simpl. auto.
  - injection E as -> E. destruct (IH _ _ E) as (Ex & E1 & E2).
    simpl List.length.
    replace (a + S (List.length r)) with (S a + List.length r) by lia.
    replace (S N' - S (List.length r) - 1) with (N' - List.length r - 1)
      by lia.
    split; [exact Ex|]. split; [simpl; f_equal; exact E1 | exact E2].
Qed.

Lemma get_app_in_l (V : Type) (m1 m2 : JsMap.t V) (k : string) :
  In k (JsMap.keys m1) -> JsMap.get (m1 ++ m2) k = JsMap.get m1 k.
Proof.
  intros H. destruct (JsMap.get m1 k) as [v|] eqn:G.
  - apply get_app_l. exact G.
  - apply get_None_keys in G. contradiction.
Qed.

(** From the counters to the order of the entries. *)
Lemma block_built_wf m (n' : nat) (root : Node Num) :
  arena_seq m n' -> block_built m 1 n' ->
  JsMap.get m (nodeIdOf 1) = Some root -> parentId root = None ->
  arena_wf m.
Proof.
  intros Hs Hb Gr Pr pre k nd post E.
  unfold arena_seq in Hs. rewrite E, keys_app in Hs. simpl in Hs.
  destruct (split_ids _ _ _ _ _ _ Hs) as (Ek & Epre & Epost).
  unfold JsMap.keys in Ek, Epre, Epost. rewrite length_map in Ek, Epre, Epost.
  set (j := 1 + List.length pre) in *.
  assert (Hfresh : ~ In k (JsMap.keys pre)).
  { unfold JsMap.keys. rewrite Epre, Ek, in_ids. lia. }
  assert (Gk : JsMap.get m k = Some nd)
    by (rewrite E; apply get_middle; exact Hfresh).
  assert (Hj : 1 <= j < n').
  { assert (Hl := f_equal (@List.length string) Hs).
    unfold JsMap.keys in Hl.
    rewrite length_app, !length_map, length_seq in Hl. simpl in Hl.
    rewrite ?length_map in Hl. unfold j. lia. }
  destruct (Hb j Hj) as (nd' & Gj & [I Pa C L Fr]).
  rewrite <- Ek, Gk in Gj. injection Gj as <-.
  constructor.
  - rewrite Ek. apply nodeIdOf_nonempty.
  - congruence.
  - exact Hfresh.
  - destruct Pa as [Ej|(p & pn & Hp & Ep & Gp & Hin)].
    + assert (nd = root) by (rewrite Ek, Ej in Gk; congruence). subst nd.
      rewrite Pr. destruct pre; [reflexivity | simpl in j; lia].
    + rewrite Ep. exists pn. split; [|rewrite Ek; exact Hin].
      rewrite E in Gp. rewrite get_app_in_l in Gp; [exact Gp|].
      unfold JsMap.keys. rewrite Epre, in_ids. lia.
  - intros c Hc. destruct (C c Hc) as (i & Hi & ->).
    unfold JsMap.keys. rewrite Epost, in_ids. lia.
  - exact L.
Qed.

(** Every tree that [buildTreeFromKml] returns is well formed, its
    [rootNodeId] is the first key of the arena, the root node carries the
    tag of the root element, and no node is indeterminate. *)
Lemma buildTreeFromKml_wf (rootFeatureEl : Element Num) :
  let built := buildTreeFromKml rootFeatureEl in
  arena_wf (built_nodesById built) /\
  arena_root (built_nodesById built) = Some (built_rootNodeId built) /\
  (exists root, JsMap.get (built_nodesById built) (built_rootNodeId built)
                = Some root /\ tag root = tagName rootFeatureEl) /\
  (forall k nd, JsMap.get (built_nodesById built) k = Some nd ->
                checked nd = true /\ indeterminate nd = false).
Proof.
  unfold buildTreeFromKml.
  destruct (buildNode rootFeatureEl None [getFeatureName rootFeatureEl]
                      (mkBuild 1 JsMap.empty JsMap.empty))
    as [s rootNode] eqn:E.
  apply buildNode_post in E; [|simpl; lia | reflexivity].
  destruct E as [N Q F G P T B]. simpl in *.
  destruct (B 1 ltac:(lia)) as (r & Gr & Or).
  assert (r = rootNode) by congruence. subst r.
  rewrite (bo_id Or).
  split; [exact (block_built_wf Q B G P)|].
  split.
  - unfold arena_seq in Q. destruct (b_nodes s) as [|[k nd] rest].
    + simpl in G. discriminate.
    + simpl in Q. replace (b_next s - 1) with (S (b_next s - 2)) in Q by lia.
      simpl in Q. injection Q as -> _. reflexivity.
  - split; [exists rootNode; auto|].
    intros k nd Gk.
    assert (Hk := get_Some_keys _ _ Gk). rewrite Q in Hk.
    apply in_map_iff in Hk. destruct Hk as (j & <- & Hj).
    apply in_seq in Hj. destruct (B j ltac:(lia)) as (nd' & Gj & Oj).
    assert (nd' = nd) by congruence. subst nd'. exact (bo_fresh Oj).
Qed.

Lemma firstByTag_tag (t : string) (e x : Element Num) :
  firstByTag t e = Some x -> tagName x = t.
Proof.
  revert x. induction e as [tg nm co kids IH] using Element_nested_ind.
  intros x. simpl. destruct (String.eqb_spec tg t) as [->|ne].
  - intros [= <-]. reflexivity.
  - revert x. induction IH as [|k r Hk _ IHr]; intros x; [discriminate|].
    destruct (firstByTag t k) as [y|] eqn:Ek.
    + intros [= <-]. exact (Hk _ eq_refl).
    + apply IHr.
Qed.

Lemma findRootFeature_tag (x : XmlDoc Num) (root : Element Num) :
  findRootFeature x = Some root ->
  tagName root = "Document" \/ tagName root = "Folder".
Proof.
  unfold findRootFeature.
  destruct (firstByTag "Document" (documentElement x)) as [d|] eqn:Ed.
  - intros [= <-]. left. exact (firstByTag_tag _ _ Ed).
  - intros Ef. right. exact (firstByTag_tag _ _ Ef).
Qed.

Lemma expandFolders_rel m :
  rel_map (fun a b => same_node a b /\ checked b = checked a /\
                      indeterminate b = indeterminate a)
          m (expandFolders m).
Proof.
  unfold expandFolders. induction m as [|[k nd] r IH]; simpl; constructor;
    [|exact IH].
  simpl. split; [reflexivity|].
  destruct (tag nd =? "Placemark")%string; repeat split.
Qed.

(** The session in which [loadKml] leaves the tree of a document. *)
Lemma loaded_tree_wf (st : State Num) (root : Element Num) :
  tagName root = "Document" \/ tagName root = "Folder" ->
  nodesById st = expandFolders (built_nodesById (buildTreeFromKml root)) ->
  rootNodeId st = Some (built_rootNodeId (buildTreeFromKml root)) ->
  session_wf st /\
  forall k nd, JsMap.get (nodesById st) k = Some nd ->
               indeterminate nd = false.
Proof.
  intros Ht En Er.
  destruct (buildTreeFromKml_wf root) as (W & R & (rn & Gr & Tr) & Fr).
  assert (Rel := expandFolders_rel (built_nodesById (buildTreeFromKml root))).
  assert (Shape : rel_map same_node
                    (built_nodesById (buildTreeFromKml root)) (nodesById st)).
  { rewrite En. apply rel_map_impl with (2 := Rel). tauto. }
  split; [constructor|].
  - exact (arena_wf_shape Shape W).
  - rewrite (arena_root_shape Shape), R. exact Er.
  - intros rootId nd Er' G. rewrite Er in Er'. injection Er' as <-.
    destruct (rel_map_get_inv _ Shape G) as (nd0 & G0 & (_&_&et&_)).
    assert (nd0 = rn) by congruence. subst nd0.
    rewrite <- et, Tr. destruct Ht as [-> | ->]; discriminate.
  - intros k nd G. rewrite En in G.
    destruct (rel_map_get_inv _ Rel G) as (nd0 & G0 & _ & _ & Ei).
    rewrite Ei. exact (proj2 (Fr k nd0 G0)).
Qed.

Lemma rebuilds_keep_nodes (w : World Num) :
  nodesById (state (rebuildEntityIndex w)) = nodesById (state w) /\
  nodesById (state (rebuildPlacemarkToEntityMap w)) = nodesById (state w) /\
  rootNodeId (state (rebuildEntityIndex w)) = rootNodeId (state w) /\
  rootNodeId (state (rebuildPlacemarkToEntityMap w)) = rootNodeId (state w).
Proof.
  unfold rebuildEntityIndex, rebuildPlacemarkToEntityMap.
  destruct (kmlDataSource w); simpl;
    [destruct (JsMap.size (placemarkIndex (state w)))|]; simpl; auto.
Qed.

(** X21.  [loadKml] always returns, and after a load that went through the
    session holds a freshly built tree. *)
Lemma loadKml_returns (w : World Num) (file : KmlFile Num) :
  exists w' outcome,
    loadKml w file = Some (w', outcome) /\
    (outcome = Loaded ->
     session_wf (state w') /\
     forall k nd, JsMap.get (nodesById (state w')) k = Some nd ->
                  indeterminate nd = false).
Proof.
  unfold loadKml.
  destruct (firstByTag "parsererror" (documentElement (file_xml file)));
    [eexists; eexists; split; [reflexivity | discriminate]|].
  destruct (findRootFeature (file_xml file)) as [root|] eqn:Er;
    [|eexists; eexists; split; [reflexivity | discriminate]].
  destruct (file_render file) as [msg|ents];
    [eexists; eexists; split; [reflexivity | discriminate]|].
  match goal with
  | |- context [applyVisibilityFromTree ?x] => set (w2 := x)
  end.
  assert (En : nodesById (state w2)
               = expandFolders (built_nodesById (buildTreeFromKml root))).
  { unfold w2. destruct (rebuilds_keep_nodes
                           (rebuildEntityIndex
                              (mkWorld (mkState (Some (file_name file))
                                 (Some (file_xml file)) (Some root)
                                 (expandFolders
                                    (built_nodesById (buildTreeFromKml root)))
                                 (Some (built_rootNodeId
                                          (buildTreeFromKml root)))
                                 (includePlacemarks (state w))
                                 (entityIndex (state w))
                                 (placemarkIndex (state w))
                                 (placemarkToEntity (state w)) ""
                                 (userHasInteracted (state w)))
                                (Some ents) (hideLabels w))))
      as (_ & -> & _).
    match goal with
    | |- nodesById (state (rebuildEntityIndex ?x)) = _ =>
        destruct (rebuilds_keep_nodes x) as (-> & _)
    end.
    reflexivity. }
  assert (Eroot : rootNodeId (state w2)
                  = Some (built_rootNodeId (buildTreeFromKml root))).
  { unfold w2.
    match goal with
    | |- rootNodeId (state (rebuildPlacemarkToEntityMap ?x)) = _ =>
        destruct (rebuilds_keep_nodes x) as (_ & _ & _ & ->)
    end.
    match goal with
    | |- rootNodeId (state (rebuildEntityIndex ?x)) = _ =>
        destruct (rebuilds_keep_nodes x) as (_ & _ & -> & _)
    end.
    reflexivity. }
  destruct (@loaded_tree_wf (state w2) root (findRootFeature_tag _ Er)
              En Eroot) as (S2 & F2).
  destruct (applyVisibility_total w2 (sw_arena S2)) as (w3 & E3).
  rewrite E3. simpl. exists w3, Loaded. split; [reflexivity|]. intros _.
  destruct (applyVisibility_frame _ E3) as (En3 & Er3).
  split; [eapply session_wf_eq; [exact En3 | exact Er3 | exact S2]|].
  rewrite En3. exact F2.
Qed.

End Building.

(** The remaining sections pass every argument explicitly. *)
Unset Implicit Arguments.

(* ------------------------------------------------------------------ *)
(** ** Escaping text for the page *)

Lemma string_app_assoc (a b c : string) :
  (a ++ (b ++ c))%string = ((a ++ b) ++ c)%string.
Proof.
  induction a as [|x t IH]; simpl; [reflexivity | f_equal; exact IH].
Qed.

Lemma replaceAllChar_app (c : ascii) (r a b : string) :
  replaceAllChar c r (a ++ b)%string
  = (replaceAllChar c r a ++ replaceAllChar c r b)%string.
Proof.
  induction a as [|x t IH]; simpl; [reflexivity|].
  destruct (Ascii.eqb x c); simpl; rewrite IH.
  - apply string_app_assoc.
  - reflexivity.
Qed.

Lemma escapeText_each (s : string) : escapeText (Some s) = escapeEach s.
Proof.
  unfold escapeText. induction s as [|a t IH]; [reflexivity|].
  unfold escapeEach; fold escapeEach. rewrite <- IH. clear IH.
  unfold escapeChar. simpl.
  repeat match goal with
         | |- context [Ascii.eqb a ?c] =>
             destruct (Ascii.eqb_spec a c); [subst; reflexivity | simpl]
         end.
  reflexivity.
Qed.

Lemma occurs_app (c : ascii) (a b : string) :
  occurs c (a ++ b)%string = occurs c a || occurs c b.
Proof.
  induction a as [|x t IH]; simpl; [reflexivity|].
  rewrite IH. apply orb_assoc.
Qed.

(** X1.  Five passes of [replaceAll] act as one pass that writes an entity for
    each of the five characters: the ampersands that the later passes meet
    in the entities stay as they are.  So the result holds no angle bracket
    and no quote, and a text without the five characters comes back
    unchanged. *)
Theorem escapeText_leaves_no_markup (s : option string) :
  escapeText s
  = escapeEach (match s with Some t => t | None => EmptyString end) /\
  occurs lessThan (escapeText s) = false /\
  occurs greaterThan (escapeText s) = false /\
  occurs doubleQuote (escapeText s) = false /\
  occurs singleQuote (escapeText s) = false /\
  (forall t, s = Some t ->
             occurs ampersand t = false -> occurs lessThan t = false ->
             occurs greaterThan t = false -> occurs doubleQuote t = false ->
             occurs singleQuote t = false -> escapeText s = t).
Proof.
  assert (E : escapeText s
              = escapeEach (match s with Some t => t | None => "" end))
    by (destruct s; [apply escapeText_each | reflexivity]).
  split; [exact E|]. rewrite E.
  assert (H : forall c t,
             c = lessThan \/ c = greaterThan \/ c = doubleQuote \/
             c = singleQuote -> occurs c (escapeEach t) = false).
  { intros c t Hc. induction t as [|a r IH]; [reflexivity|].
    simpl. rewrite occurs_app, IH, orb_false_r. unfold escapeChar.
    destruct (Ascii.eqb_spec a ampersand);
      [destruct Hc as [->|[->|[->| ->]]]; reflexivity|].
    destruct (Ascii.eqb_spec a lessThan);
      [destruct Hc as [->|[->|[->| ->]]]; reflexivity|].
    destruct (Ascii.eqb_spec a greaterThan);
      [destruct Hc as [->|[->|[->| ->]]]; reflexivity|].
    destruct (Ascii.eqb_spec a doubleQuote);
      [destruct Hc as [->|[->|[->| ->]]]; reflexivity|].
    destruct (Ascii.eqb_spec a singleQuote);
      [destruct Hc as [->|[->|[->| ->]]]; reflexivity|].
    simpl. rewrite orb_false_r. apply Ascii.eqb_neq.
    destruct Hc as [->|[->|[->| ->]]]; assumption. }
  repeat (split; [apply H; tauto|]).
  intros t ->. clear E. induction t as [|a r IH]; [reflexivity|].
  simpl. intros H1 H2 H3 H4 H5.
  apply orb_false_elim in H1, H2, H3, H4, H5.
  destruct H1 as (A1 & B1), H2 as (A2 & B2), H3 as (A3 & B3),
           H4 as (A4 & B4), H5 as (A5 & B5).
  unfold escapeChar. rewrite A1, A2, A3, A4, A5. simpl. f_equal. auto.
Qed.

Lemma escapeChar_shape (a : ascii) :
  (escapeChar a = String a EmptyString /\ a <> ampersand) \/
  (a = ampersand /\ escapeChar a = "&amp;") \/
  (a = lessThan /\ escapeChar a = "&lt;") \/
  (a = greaterThan /\ escapeChar a = "&gt;") \/
  (a = doubleQuote /\ escapeChar a = "&quot;") \/
  (a = singleQuote /\ escapeChar a = "&#39;").
Proof.
  unfold escapeChar.
  destruct (Ascii.eqb_spec a ampersand); [auto|].
  destruct (Ascii.eqb_spec a lessThan); [auto 6|].
  destruct (Ascii.eqb_spec a greaterThan); [auto 7|].
  destruct (Ascii.eqb_spec a doubleQuote); [auto 8|].
  destruct (Ascii.eqb_spec a singleQuote); [auto 9|].
  left. auto.
Qed.

Lemma escapeChar_head (a b : ascii) (x y : string) :
  (escapeChar a ++ x)%string = (escapeChar b ++ y)%string ->
  a = b /\ x = y.
Proof.
  destruct (escapeChar_shape a) as [(Ea & Na)|[(-> & Ea)|[(-> & Ea)|[(-> & Ea)|
                                   [(-> & Ea)|(-> & Ea)]]]]];
  destruct (escapeChar_shape b) as [(Eb & Nb)|[(-> & Eb)|[(-> & Eb)|[(-> & Eb)|
                                   [(-> & Eb)|(-> & Eb)]]]]];
  rewrite ?Ea, ?Eb; simpl; intros H; try discriminate H;
    try (injection H; intros; subst; auto; fail);
    try (injection H; intros; subst; exfalso; auto; fail).
Qed.

(** X2.  Two texts with the same escaped form are the same text. *)
Theorem escapeText_injective (s t : string) :
  escapeText (Some s) = escapeText (Some t) -> s = t.
Proof.
  rewrite !escapeText_each. revert t.
  induction s as [|a r IH]; intros [|b u]; simpl; intros H.
  - reflexivity.
  - destruct (escapeChar_shape b) as [(E & _)|[(_ & E)|[(_ & E)|[(_ & E)|
                                     [(_ & E)|(_ & E)]]]]];
      rewrite E in H; discriminate.
  - destruct (escapeChar_shape a) as [(E & _)|[(_ & E)|[(_ & E)|[(_ & E)|
                                     [(_ & E)|(_ & E)]]]]];
      rewrite E in H; discriminate.
  - destruct (escapeChar_head _ _ _ _ H) as (-> & Hr).
    f_equal. exact (IH _ Hr).
Qed.

(* ------------------------------------------------------------------ *)
(** ** Finding the root feature *)

Section RootFeature.

Context {Num : Type}.

Lemma firstByTag_inside (t : string) (e x : Element Num) :
  firstByTag t e = Some x -> inside x e /\ tagName x = t.
Proof.
  revert x. induction e as [tg nm co kids IH] using Element_nested_ind.
  intros x. simpl. destruct (String.eqb_spec tg t) as [->|ne].
  - intros [= <-]. split; [constructor | reflexivity].
  - assert (forall l, Forall (fun k => forall x, firstByTag t k = Some x ->
                                        inside x k /\ tagName x = t) l ->
              forall x,
                (fix scan (l : list (Element Num)) : option (Element Num) :=
                   match l with
                   | [] => None
                   | k :: r => match firstByTag t k with
                               | Some x => Some x
                               | None => scan r
                               end
                   end) l = Some x ->
                exists k, In k l /\ inside x k /\ tagName x = t) as Hscan.
    { induction 1 as [|k r Hk _ IHr]; intros y; [discriminate|].
      destruct (firstByTag t k) as [z|] eqn:Ek.
      - intros [= <-]. exists k. split; [left; reflexivity | apply Hk, eq_refl].
      - intros Hy. destruct (IHr _ Hy) as (k' & Hin & Hrest).
        exists k'. split; [right; exact Hin | exact Hrest]. }
    intros Hx. destruct (Hscan _ IH _ Hx) as (k & Hin & Hi & Ht).
    split; [|exact Ht]. apply inside_below with (k := k); assumption.
Qed.

Lemma firstByTag_None (t : string) (e : Element Num) :
  firstByTag t e = None -> forall x, inside x e -> tagName x <> t.
Proof.
  induction e as [tg nm co kids IH] using Element_nested_ind.
  simpl. destruct (String.eqb_spec tg t) as [->|ne]; [discriminate|].
  intros Hscan x Hx.
  inversion Hx as [|e' k Hin Hk]; subst; [exact ne|].
  simpl in Hin. clear Hx.
  induction IH as [|k0 r Hk0 _ IHr]; [contradiction|].
  destruct (firstByTag t k0) as [z|] eqn:E0; [discriminate|].
  destruct Hin as [->|Hin]; [exact (Hk0 eq_refl x Hk) | exact (IHr Hscan Hin)].
Qed.

(** X3.  [findRootFeature] returns an element of the document that is a
    Document, or a Folder when the document holds no Document at all; it
    returns nothing exactly when the document holds neither. *)
Theorem findRootFeature_picks_document_first (x : XmlDoc Num) :
  match findRootFeature x with
  | Some root =>
      inside root (documentElement x) /\
      (tagName root = "Document" \/
       (tagName root = "Folder" /\
        forall y, inside y (documentElement x) -> tagName y <> "Document"))
  | None =>
      forall y, inside y (documentElement x) ->
                tagName y <> "Document" /\ tagName y <> "Folder"
  end.
Proof.
  unfold findRootFeature.
  destruct (firstByTag "Document" (documentElement x)) as [d|] eqn:Ed.
  - destruct (firstByTag_inside _ _ _ Ed) as (Hi & Ht). auto.
  - destruct (firstByTag "Folder" (documentElement x)) as [f|] eqn:Ef.
    + destruct (firstByTag_inside _ _ _ Ef) as (Hi & Ht).
      split; [exact Hi|]. right. split; [exact Ht|].
      intros y Hy. eapply firstByTag_None; [exact Ed | exact Hy].
    + intros y Hy. split; eapply firstByTag_None; eauto.
Qed.

End RootFeature.

(* ------------------------------------------------------------------ *)
(** ** Exact effect of the toggle operations *)

Section ToggleEffects.

Context {Num : Type}.
Implicit Types (m nodes : NodeMap Num) (nd : Node Num) (k : string).

Lemma rel_map_sym (V : Type) (R : V -> V -> Prop) (a b : JsMap.t V) :
  (forall x y, R x y -> R y x) -> rel_map R a b -> rel_map R b a.
Proof.
  intros HS H. induction H as [|x y l l' [e HR] _ IH]; constructor; auto.
Qed.

Lemma same_node_sym (a b : Node Num) : same_node a b -> same_node b a.
Proof. intros (?&?&?&?&?). repeat split; congruence. Qed.

Lemma anc_shape m m' (k a : string) :
  rel_map same_node m m' -> anc_or_self m k a -> anc_or_self m' k a.
Proof.
  intros H A. induction A as [x|x nd p a G E A IH]; [constructor|].
  destruct (rel_map_get _ H G) as (nd' & G' & (_ & ep & _)).
  apply anc_up with (nd := nd') (p := p); [exact G' | congruence | exact IH].
Qed.

(** Nothing outside the subtree is written. *)
Lemma setChecked_frame (fuel : nat) :
  forall m k (v : bool) m',
    setCheckedRecursive_fuel fuel m k v = Some m' ->
    forall x, ~ desc_or_self m k x -> JsMap.get m' x = JsMap.get m x.
Proof.
  induction fuel as [|f IH]; intros m k v m' H x Hx; simpl in H;
    destruct (JsMap.get m k) as [nd|] eqn:G; try discriminate;
    try (injection H as <-; reflexivity).
  assert (Hk : x <> k) by (intros ->; apply Hx; constructor).
  assert (Hfold : forall cs mi,
             (forall c, In c cs -> In c (children nd)) ->
             rel_map same_node m mi ->
             foldM (fun mi c => setCheckedRecursive_fuel f mi c v) cs mi
             = Some m' -> JsMap.get m' x = JsMap.get mi x).
  { induction cs as [|c r IHr]; simpl; intros mi Hsub Hmi Hf.
    - injection Hf as <-. reflexivity.
    - destruct (setCheckedRecursive_fuel f mi c v) as [mj|] eqn:Ej;
        simpl in Hf; [|discriminate].
      rewrite (IHr mj); [| auto | | exact Hf].
      + apply (IH _ _ _ _ Ej). intros D. apply Hx.
        apply desc_down with (nd := nd) (c := c); [exact G | auto |].
        apply desc_shape with (m := mi); [|exact D].
        apply rel_map_sym; [apply same_node_sym | exact Hmi].
      + apply rel_map_trans with (m2 := mi);
          [apply same_node_trans | exact Hmi | exact (setChecked_shape _ _ _ _ Ej)]. }
  rewrite (Hfold _ _ (fun c i => i) ltac:(apply rel_map_set with (v := nd);
    [apply same_node_refl | exact G | apply same_node_toggle]) H).
  apply get_set_other. exact Hk.
Qed.

Lemma setCheckedRecursive_effect nodes (nodeId : string)
        (value : bool) :
  arena_wf nodes ->
  exists nodes',
    setCheckedRecursive nodes nodeId value = Some nodes' /\
    JsMap.keys nodes' = JsMap.keys nodes /\
    forall x nx,
      JsMap.get nodes x = Some nx ->
      (desc_or_self nodes nodeId x ->
       JsMap.get nodes' x = Some (with_toggle nx value false)) /\
      (~ desc_or_self nodes nodeId x -> JsMap.get nodes' x = Some nx).
Proof.
  intros W. destruct (setCheckedRecursive_total nodeId value W)
    as (m' & E & R).
  exists m'. split; [exact E|]. split; [exact (rel_map_keys R)|].
  intros x nx G. split.
  - intros D. eapply setChecked_desc; [exact E | exact D | exact G].
  - intros D. rewrite <- G. eapply setChecked_frame; [exact E | exact D].
Qed.

(** X8.  [setCheckedRecursive] on a built arena returns; it writes
    [checked = value], [indeterminate = false] to the node and to every
    descendant, and leaves every other node, and every other field, as it
    was. *)
Theorem setCheckedRecursive_writes_exactly_the_subtree nodes (nodeId : string)
        (value : bool) :
  arena_wf nodes ->
  exists nodes',
    setCheckedRecursive nodes nodeId value = Some nodes' /\
    JsMap.keys nodes' = JsMap.keys nodes /\
    forall x nx,
      JsMap.get nodes x = Some nx ->
      (desc_or_self nodes nodeId x ->
       JsMap.get nodes' x = Some (with_toggle nx value false)) /\
      (~ desc_or_self nodes nodeId x -> JsMap.get nodes' x = Some nx).
Proof. apply setCheckedRecursive_effect. Qed.

(* ---------------------------------------------------------------- *)
(** ** Order of the entries of a built arena *)

Lemma split_unique (V : Type) (pre pre' post post' : JsMap.t V)
      (k : string) (v v' : V) :
  pre ++ (k, v) :: post = pre' ++ (k, v') :: post' ->
  ~ In k (JsMap.keys pre) -> ~ In k (JsMap.keys pre') ->
  pre = pre' /\ v = v' /\ post = post'.
Proof.
  revert pre'. induction pre as [|[k0 v0] r IH]; intros [|[k1 v1] r'] E F F';
    simpl in *.
  - injection E as -> ->. auto.
  - injection E as <- _ _. exfalso. apply F'. auto.
  - injection E as -> _ _. exfalso. apply F. auto.
  - injection E as -> -> E. destruct (IH r' E) as (-> & -> & ->); auto.
Qed.

Lemma wf_split_unique m pre pre' post post' k nd nd' :
  arena_wf m -> m = pre ++ (k, nd) :: post -> m = pre' ++ (k, nd') :: post' ->
  pre = pre' /\ nd = nd' /\ post = post'.
Proof.
  intros W E E'. apply split_unique with (k := k).
  - congruence.
  - exact (ok_fresh (W _ _ _ _ E)).
  - exact (ok_fresh (W _ _ _ _ E')).
Qed.

Lemma comes_before_neq m (a k : string) :
  arena_wf m -> comes_before m a k -> a <> k.
Proof.
  intros W (pre & nd & post & E & Hin) ->.
  exact (ok_fresh (W _ _ _ _ E) Hin).
Qed.

Lemma comes_before_trans m (a b c : string) :
  arena_wf m -> comes_before m a b -> comes_before m b c ->
  comes_before m a c.
Proof.
  intros W (pb & nb & qb & Eb & Ha) (pc & nc & qc & Ec & Hb).
  exists pc, nc, qc. split; [exact Ec|].
  destruct (in_keys_split _ _ Hb) as (p1 & nb' & p2 & Epc).
  assert (E2 : m = p1 ++ (b, nb') :: p2 ++ (c, nc) :: qc)
    by (rewrite Ec, Epc, <- app_assoc; reflexivity).
  destruct (wf_split_unique _ _ _ _ _ _ _ _ W Eb E2) as (-> & _ & _).
  rewrite Epc, keys_app. apply in_or_app. left. exact Ha.
Qed.

Lemma comes_before_asym m (a b : string) :
  arena_wf m -> comes_before m a b -> ~ comes_before m b a.
Proof.
  intros W H1 H2.
  exact (comes_before_neq _ _ _ W (comes_before_trans _ _ _ _ W H1 H2) eq_refl).
Qed.

Lemma parent_comes_before m k nd (p : string) :
  arena_wf m -> JsMap.get m k = Some nd -> parentId nd = Some p ->
  comes_before m p k.
Proof.
  intros W G Ep. destruct (get_split _ _ G) as (pre & post & E & _).
  exists pre, nd, post. split; [exact E|].
  assert (P := ok_parent (W _ _ _ _ E)). rewrite Ep in P.
  destruct P as (pn & Gp & _). exact (get_Some_keys _ _ Gp).
Qed.

Lemma child_comes_after m k nd (c : string) :
  arena_wf m -> JsMap.get m k = Some nd -> In c (children nd) ->
  comes_before m k c.
Proof.
  intros W G Hc. destruct (get_split _ _ G) as (pre & post & E & _).
  destruct (in_keys_split _ _ (ok_children (W _ _ _ _ E) c Hc))
    as (a & nc & pc & Epost).
  exists (pre ++ (k, nd) :: a), nc, pc. split.
  - rewrite E, Epost, <- app_assoc. reflexivity.
  - rewrite keys_app. apply in_or_app. right. simpl. auto.
Qed.

Lemma anc_comes_before m (k a : string) :
  arena_wf m -> anc_or_self m k a -> a = k \/ comes_before m a k.
Proof.
  intros W A. induction A as [x|x nd p a G E A IH]; [auto|].
  right. assert (Hp := parent_comes_before _ _ _ _ W G E).
  destruct IH as [->|Hb]; [exact Hp | exact (comes_before_trans _ _ _ _ W Hb Hp)].
Qed.

Lemma truthy_parent m k nd :
  arena_wf m -> JsMap.get m k = Some nd -> truthy (parentId nd) = parentId nd.
Proof.
  intros W G. destruct (parentId nd) as [p|] eqn:Ep; [|reflexivity].
  destruct (parent_comes_before _ _ _ _ W G Ep) as (pre & nk & post & E & Hin).
  destruct (in_keys_split _ _ Hin) as (p1 & pn & p2 & Epre).
  assert (E2 : m = p1 ++ (p, pn) :: p2 ++ (k, nk) :: post)
    by (rewrite E, Epre, <- app_assoc; reflexivity).
  apply truthy_key. exact (ok_key (W _ _ _ _ E2)).
Qed.

(* ---------------------------------------------------------------- *)
(** ** [recomputeIndeterminateUp] *)

Lemma recomputeNode_ext m m' nd :
  (forall c, In c (children nd) -> childState m' c = childState m c) ->
  recomputeNode m' nd = recomputeNode m nd.
Proof.
  intros H. unfold recomputeNode.
  destruct (children nd) as [|c r] eqn:E; [reflexivity|].
  rewrite (map_ext_in _ _ _ H). reflexivity.
Qed.

Lemma recomputeNode_idem m nd :
  recomputeNode m (recomputeNode m nd) = recomputeNode m nd.
Proof.
  unfold recomputeNode at 2 3. destruct (children nd) as [|c r] eqn:E.
  - unfold recomputeNode. simpl. rewrite E. reflexivity.
  - repeat match goal with
           | |- context [if ?b then _ else _] => destruct b eqn:?
           end; unfold recomputeNode; simpl; rewrite E;
      repeat match goal with H : _ = _ |- _ => rewrite H end; reflexivity.
Qed.

Lemma childState_get m m' (c : string) :
  JsMap.get m' c = JsMap.get m c -> childState m' c = childState m c.
Proof. unfold childState. intros ->. reflexivity. Qed.

Lemma recomputeNode_children m nd :
  children (recomputeNode m nd) = children nd.
Proof.
  destruct (recomputeNode_ok m nd) as [Hn|[(_&_&_&ec&_) _]];
    [rewrite Hn; reflexivity | symmetry; exact ec].
Qed.

Lemma recompute_absent m k :
  JsMap.get m k = None -> chain_recomputed m k m.
Proof.
  intros G. split; [reflexivity|]. intros a na' A Ga.
  assert (a = k) by (inversion A; subst; congruence). subst a. congruence.
Qed.

Lemma recompute_top m k nd :
  arena_wf m -> JsMap.get m k = Some nd -> parentId nd = None ->
  chain_recomputed m k (JsMap.set m k (recomputeNode m nd)).
Proof.
  intros W G Ep. split.
  - intros x Hx. apply get_set_other. intros ->. apply Hx. constructor.
  - intros a na' A Ga.
    assert (a = k) by (inversion A; subst; congruence). subst a.
    rewrite get_set_same in Ga. injection Ga as <-.
    rewrite recomputeNode_ext with (m := m); [apply recomputeNode_idem|].
    intros c Hc. apply childState_get, get_set_other.
    rewrite recomputeNode_children in Hc.
    exact (not_eq_sym (comes_before_neq _ _ _ W
                         (child_comes_after _ _ _ _ W G Hc))).
Qed.

Lemma recompute_climb m k nd (p : string) m' :
  arena_wf m -> JsMap.get m k = Some nd -> parentId nd = Some p ->
  chain_recomputed (JsMap.set m k (recomputeNode m nd)) p m' ->
  chain_recomputed m k m'.
Proof.
  intros W G Ep (F1 & C1).
  set (nd1 := recomputeNode m nd) in *.
  set (m1 := JsMap.set m k nd1) in *.
  assert (R1 : rel_map same_node m m1).
  { apply rel_map_set with (v := nd);
      [apply same_node_refl | exact G
       | apply recomputed_or_kept_same, recomputeNode_ok]. }
  assert (Hpk := parent_comes_before _ _ _ _ W G Ep).
  assert (Back : forall x, anc_or_self m1 p x -> anc_or_self m p x).
  { intros x. apply anc_shape. apply rel_map_sym;
      [apply same_node_sym | exact R1]. }
  assert (Hnot : forall x, comes_before m k x \/ x = k ->
                           ~ anc_or_self m1 p x).
  { intros x Hx A. apply Back in A.
    destruct (anc_comes_before _ _ _ W A) as [->|Hb].
    - destruct Hx as [Hx| ->].
      + exact (comes_before_asym _ _ _ W Hpk Hx).
      + exact (comes_before_neq _ _ _ W Hpk eq_refl).
    - destruct Hx as [Hx| ->].
      + exact (comes_before_asym _ _ _ W
                 (comes_before_trans _ _ _ _ W Hb Hpk) Hx).
      + exact (comes_before_asym _ _ _ W Hb Hpk). }
  split.
  - intros x Hx. rewrite F1.
    + apply get_set_other. intros ->. apply Hx. constructor.
    + intros A. apply Hx. apply anc_up with (nd := nd) (p := p);
        [exact G | exact Ep | exact (Back _ A)].
  - intros a na' A Ga.
    destruct (String.eqb_spec a k) as [->|ne];
      [|inversion A as [|x nx p' a' Gx Epx Ap]; subst;
        [contradiction ne; reflexivity|]].
    + rewrite (F1 _ (Hnot k (or_intror eq_refl))) in Ga.
      unfold m1 in Ga. rewrite get_set_same in Ga. injection Ga as <-.
      rewrite recomputeNode_ext with (m := m); [apply recomputeNode_idem|].
      intros c Hc. apply childState_get.
      unfold nd1 in Hc. rewrite recomputeNode_children in Hc.
      assert (Hkc := child_comes_after _ _ _ _ W G Hc).
      rewrite (F1 _ (Hnot c (or_introl Hkc))).
      apply get_set_other.
      exact (not_eq_sym (comes_before_neq _ _ _ W Hkc)).
    + assert (nx = nd) by congruence. subst nx.
      assert (p' = p) by congruence. subst p'.
      apply (C1 a na'); [|exact Ga].
      apply anc_shape with (m := m); assumption.
Qed.

Lemma recompute_spec (fuel : nat) :
  forall m k m',
    arena_wf m -> recomputeIndeterminateUp_fuel fuel m k = Some m' ->
    chain_recomputed m k m'.
Proof.
  induction fuel as [|f IH]; intros m k m' W H; simpl in H;
    destruct (JsMap.get m k) as [nd|] eqn:G;
    try (injection H as <-; apply recompute_absent; exact G);
    rewrite (truthy_parent _ _ _ W G) in H;
    destruct (parentId nd) as [p|] eqn:Ep; try discriminate;
    try (injection H as <-; apply recompute_top; assumption).
  apply recompute_climb with (nd := nd) (p := p); try assumption.
  apply IH; [|exact H].
  apply arena_wf_shape with (m := m); [|exact W].
  apply rel_map_set with (v := nd);
    [apply same_node_refl | exact G
     | apply recomputed_or_kept_same, recomputeNode_ok].
Qed.

Lemma recomputeNode_classify m nd :
  recomputeNode m nd = nd ->
  match children nd with
  | [] => indeterminate nd = false
  | _ :: _ => (checked nd, indeterminate nd)
              = classify (map (childState m) (children nd))
  end.
Proof.
  unfold recomputeNode, classify.
  destruct (children nd) as [|c r].
  - intros E. rewrite <- E. reflexivity.
  - repeat match goal with
           | |- context [if ?b then _ else _] => destruct b
           end; intros E; rewrite <- E; reflexivity.
Qed.

Lemma recomputeIndeterminateUp_effect nodes (nodeId : string) :
  arena_wf nodes ->
  exists nodes',
    recomputeIndeterminateUp nodes nodeId = Some nodes' /\
    rel_map same_node nodes nodes' /\
    (forall x, ~ anc_or_self nodes nodeId x ->
               JsMap.get nodes' x = JsMap.get nodes x) /\
    (forall a na', anc_or_self nodes nodeId a ->
                   JsMap.get nodes' a = Some na' ->
                   match children na' with
                   | [] => indeterminate na' = false
                   | _ :: _ =>
                       (checked na', indeterminate na')
                       = classify (map (childState nodes') (children na'))
                   end).
Proof.
  intros W. destruct (recomputeIndeterminateUp_total nodeId W)
    as (m' & E & R).
  exists m'. split; [exact E|]. split.
  { apply rel_map_impl with (R := @recomputed_or_kept Num);
      [apply recomputed_or_kept_same | exact R]. }
  destruct (recompute_spec _ _ _ _ W E) as (F & C).
  split; [exact F|]. intros a na' A Ga.
  apply recomputeNode_classify. exact (C a na' A Ga).
Qed.

(** X9.  [recomputeIndeterminateUp] on a built arena returns.  Afterwards every
    node on the chain of parents from [nodeId] to the root agrees with its
    children as they are in the resulting arena: with children, it is
    checked and not indeterminate when they all are, unchecked and not
    indeterminate when they all are, and checked and indeterminate
    otherwise; without children it is not indeterminate.  Nodes off the
    chain are as they were, and every node keeps its id, parent, tag,
    children and placemark keys. *)
Theorem recomputeIndeterminateUp_settles_the_chain nodes (nodeId : string) :
  arena_wf nodes ->
  exists nodes',
    recomputeIndeterminateUp nodes nodeId = Some nodes' /\
    rel_map same_node nodes nodes' /\
    (forall x, ~ anc_or_self nodes nodeId x ->
               JsMap.get nodes' x = JsMap.get nodes x) /\
    (forall a na', anc_or_self nodes nodeId a ->
                   JsMap.get nodes' a = Some na' ->
                   match children na' with
                   | [] => indeterminate na' = false
                   | _ :: _ =>
                       (checked na', indeterminate na')
                       = classify (map (childState nodes') (children na'))
                   end).
Proof. apply recomputeIndeterminateUp_effect. Qed.

End ToggleEffects.

(* ------------------------------------------------------------------ *)
(** ** Expanding and collapsing *)

Section Expanding.

Context {Num : Type} {ops : JsNum Num}.
Implicit Types (m nodes : NodeMap Num) (nd : Node Num) (k : string).

Lemma expand_kept_same (v : bool) (a b : Node Num) :
  expand_set_or_kept v a b ->
  same_node a b /\ checked b = checked a /\ indeterminate b = indeterminate a.
Proof. intros [->|(_ & ->)]; repeat split. Qed.

Lemma expand_kept_trans (v : bool) (a b c : Node Num) :
  expand_set_or_kept v a b -> expand_set_or_kept v b c ->
  expand_set_or_kept v a c.
Proof.
  intros [->|(Ha & ->)] [->|(Hb & ->)]; unfold expand_set_or_kept; auto.
Qed.

Lemma expand_kept_refl (v : bool) (a : Node Num) : expand_set_or_kept v a a.
Proof. left. reflexivity. Qed.

Lemma expand_done (v : bool) (a b : Node Num) :
  expand_set_or_kept v (with_expanded a v) b -> b = with_expanded a v.
Proof. intros [->|(_ & ->)]; reflexivity. Qed.

Lemma expand_again (v : bool) (a b : Node Num) :
  expand_set_or_kept v a b -> with_expanded b v = with_expanded a v.
Proof. intros [->|(_ & ->)]; reflexivity. Qed.

Lemma expand_children (v : bool) (a b : Node Num) :
  expand_set_or_kept v a b -> children b = children a.
Proof. intros [->|(_ & ->)]; reflexivity. Qed.

Lemma expand_shape (v : bool) m m' :
  rel_map (expand_set_or_kept v) m m' -> rel_map same_node m m'.
Proof.
  apply rel_map_impl. intros x y H. exact (proj1 (expand_kept_same _ _ _ H)).
Qed.

Lemma setExpanded_rel (fuel : nat) :
  forall m k (v : bool) m',
    setExpandedRecursive_fuel fuel m k v = Some m' ->
    rel_map (expand_set_or_kept v) m m'.
Proof.
  induction fuel as [|f IH]; intros m k v m'; simpl;
    destruct (JsMap.get m k) as [nd|] eqn:G;
    try (intros [= <-]; apply rel_map_refl, expand_kept_refl);
    destruct (children nd) as [|c0 cs] eqn:Ec;
    try (intros [= <-]; apply rel_map_refl, expand_kept_refl);
    try discriminate.
  apply foldM_inv with (P := fun mi => rel_map (expand_set_or_kept v) m mi).
  - intros s a s' _ Hs E.
    apply rel_map_trans with (m2 := s);
      [apply expand_kept_trans | exact Hs | exact (IH _ _ _ _ E)].
  - apply rel_map_set with (v := nd);
      [apply expand_kept_refl | exact G|].
    right. split; [congruence | reflexivity].
Qed.

Lemma setExpanded_total (fuel : nat) :
  forall m k (v : bool) pre nd post,
    arena_wf m -> m = pre ++ (k, nd) :: post -> List.length post < fuel ->
    exists m', setExpandedRecursive_fuel fuel m k v = Some m'.
Proof.
  induction fuel as [|f IH]; intros m k v pre nd post W E Hl; [lia|].
  destruct (W pre k nd post E) as [_ _ F _ C _].
  simpl. assert (G : JsMap.get m k = Some nd)
    by (subst m; apply get_middle; exact F).
  rewrite G. destruct (children nd) as [|c0 cs] eqn:Ec; [eauto|].
  rewrite <- Ec in *.
  destruct (@foldM_total string (NodeMap Num)
              (fun mi c => setExpandedRecursive_fuel f mi c v)
              (fun mi => rel_map (expand_set_or_kept v) m mi) (children nd))
    with (s := JsMap.set m k (with_expanded nd v)) as (m' & Hm' & _).
  - intros mi c Hc Hmi.
    destruct (in_keys_split _ _ (C c Hc)) as (a & nc & pc & Epost).
    assert (Em : m = (pre ++ (k, nd) :: a) ++ (c, nc) :: pc)
      by (subst m post; rewrite <- app_assoc; reflexivity).
    assert (Hmi' := Hmi). rewrite Em in Hmi'.
    assert (exists prei nci pci, mi = prei ++ (c, nci) :: pci /\
                                 List.length pci = List.length pc)
      as (prei & nci & pci & Emi & Hlen).
    { clear - Hmi'. apply Forall2_app_inv_l in Hmi'.
      destruct Hmi' as (l1 & l2 & _ & H2 & ->).
      inversion H2 as [|x [c' nci] l l' [e _] Hp]; subst. simpl in e. subst c'.
      exists l1, nci, l'. split; [reflexivity|].
      symmetry. exact (Forall2_length Hp). }
    destruct (IH mi c v prei nci pci) as (mj & Ej).
    + apply arena_wf_shape with (m := m); [apply (expand_shape v)|]; assumption.
    + exact Emi.
    + subst post. rewrite length_app in Hl. simpl in Hl. lia.
    + exists mj. split; [exact Ej|].
      apply rel_map_trans with (m2 := mi);
        [apply expand_kept_trans | exact Hmi | exact (setExpanded_rel _ _ _ _ _ Ej)].
  - apply rel_map_set with (v := nd);
      [apply expand_kept_refl | exact G|].
    right. split; [congruence | reflexivity].
  - exists m'. exact Hm'.
Qed.

(** Every descendant that has children is written. *)
Lemma setExpanded_desc (fuel : nat) :
  forall m k (v : bool) m',
    setExpandedRecursive_fuel fuel m k v = Some m' ->
    forall x nx, desc_or_self m k x -> JsMap.get m x = Some nx ->
                 children nx <> [] ->
                 JsMap.get m' x = Some (with_expanded nx v).
Proof.
  induction fuel as [|f IH]; intros m k v m' H x nx D Gx Hnx; simpl in H;
    destruct (JsMap.get m k) as [nd|] eqn:G;
    try (exfalso; inversion D; subst; congruence);
    destruct (children nd) as [|c0 cs] eqn:Ec;
    try discriminate;
    try (exfalso; inversion D as [|a nd0 c y G0 i Dc]; subst;
         [congruence | assert (nd0 = nd) by congruence; subst nd0;
                       rewrite Ec in i; contradiction]).
  rewrite <- Ec in H.
  assert (R1 : rel_map (expand_set_or_kept v) m
                 (JsMap.set m k (with_expanded nd v))).
  { apply rel_map_set with (v := nd); [apply expand_kept_refl | exact G|].
    right. split; [congruence | reflexivity]. }
  assert (Hfold : forall l mi,
             rel_map (expand_set_or_kept v) m mi ->
             foldM (fun mi c => setExpandedRecursive_fuel f mi c v) l mi
             = Some m' ->
             rel_map (expand_set_or_kept v) mi m' /\
             forall c, In c l -> desc_or_self m c x ->
                       JsMap.get m' x = Some (with_expanded nx v)).
  { induction l as [|c1 r IHr]; simpl; intros mi Hmi Hf.
    - injection Hf as <-. split; [|contradiction].
      apply rel_map_refl, expand_kept_refl.
    - destruct (setExpandedRecursive_fuel f mi c1 v) as [mj|] eqn:Ej;
        simpl in Hf; [|discriminate].
      assert (Rij := setExpanded_rel _ _ _ _ _ Ej).
      assert (Hmj : rel_map (expand_set_or_kept v) m mj)
        by (apply rel_map_trans with (m2 := mi);
            [apply expand_kept_trans | exact Hmi | exact Rij]).
      destruct (IHr mj Hmj Hf) as (Rj & Hrest).
      split.
      + apply rel_map_trans with (m2 := mj);
          [apply expand_kept_trans | exact Rij | exact Rj].
      + intros c [->|i] Dc; [|exact (Hrest c i Dc)].
        destruct (rel_map_get _ Hmi Gx) as (nxi & Gxi & Rx).
        assert (Gj : JsMap.get mj x = Some (with_expanded nxi v)).
        { apply (IH mi c v mj Ej x nxi); [|exact Gxi|].
          - apply desc_shape with (m := m); [|exact Dc].
            exact (expand_shape v _ _ Hmi).
          - rewrite (expand_children _ _ _ Rx). exact Hnx. }
        rewrite (expand_again _ _ _ Rx) in Gj.
        destruct (rel_map_get _ Rj Gj) as (z & Gz & Rz).
        rewrite Gz. f_equal. apply (expand_done _ _ _ Rz). }
  destruct (Hfold _ _ R1 H) as (R2 & Hc).
  inversion D as [|a nd0 c y G0 i Dc]; subst.
  - assert (nx = nd) by congruence. subst nx.
    destruct (rel_map_get _ R2 (get_set_same m x (with_expanded nd v)))
      as (z & Gz & Rz).
    rewrite Gz. f_equal. apply (expand_done _ _ _ Rz).
  - assert (nd0 = nd) by congruence. subst nd0.
    exact (Hc c i Dc).
Qed.

Lemma setExpanded_frame (fuel : nat) :
  forall m k (v : bool) m',
    setExpandedRecursive_fuel fuel m k v = Some m' ->
    forall x, ~ desc_or_self m k x -> JsMap.get m' x = JsMap.get m x.
Proof.
  induction fuel as [|f IH]; intros m k v m' H x Hx; simpl in H;
    destruct (JsMap.get m k) as [nd|] eqn:G;
    try (injection H as <-; reflexivity);
    destruct (children nd) as [|c0 cs] eqn:Ec;
    try (injection H as <-; reflexivity); try discriminate.
  rewrite <- Ec in H.
  assert (Hk : x <> k) by (intros ->; apply Hx; constructor).
  assert (Hfold : forall l mi,
             (forall c, In c l -> In c (children nd)) ->
             rel_map same_node m mi ->
             foldM (fun mi c => setExpandedRecursive_fuel f mi c v) l mi
             = Some m' -> JsMap.get m' x = JsMap.get mi x).
  { induction l as [|c r IHr]; simpl; intros mi Hsub Hmi Hf.
    - injection Hf as <-. reflexivity.
    - destruct (setExpandedRecursive_fuel f mi c v) as [mj|] eqn:Ej;
        simpl in Hf; [|discriminate].
      rewrite (IHr mj); [| auto | | exact Hf].
      + apply (IH _ _ _ _ Ej). intros D. apply Hx.
        apply desc_down with (nd := nd) (c := c); [exact G | auto |].
        apply desc_shape with (m := mi); [|exact D].
        apply rel_map_sym; [apply same_node_sym | exact Hmi].
      + apply rel_map_trans with (m2 := mi);
          [apply same_node_trans | exact Hmi
           | exact (expand_shape v _ _ (setExpanded_rel _ _ _ _ _ Ej))]. }
  rewrite (Hfold _ _ (fun c i => i)
             ltac:(apply rel_map_set with (v := nd);
                   [apply same_node_refl | exact G | apply same_node_expanded])
             H).
  apply get_set_other. exact Hk.
Qed.

Lemma setExpandedRecursive_effect nodes
        (nodeId : string) (value : bool) :
  arena_wf nodes ->
  exists nodes',
    setExpandedRecursive nodes nodeId value = Some nodes' /\
    JsMap.keys nodes' = JsMap.keys nodes /\
    forall x nx,
      JsMap.get nodes x = Some nx ->
      (desc_or_self nodes nodeId x -> children nx <> [] ->
       JsMap.get nodes' x = Some (with_expanded nx value)) /\
      (~ desc_or_self nodes nodeId x \/ children nx = [] ->
       JsMap.get nodes' x = Some nx).
Proof.
  intros W. unfold setExpandedRecursive.
  assert (exists m', setExpandedRecursive_fuel (S (JsMap.size nodes)) nodes
                       nodeId value = Some m') as (m' & E).
  { destruct (JsMap.get nodes nodeId) as [nd|] eqn:G.
    - destruct (get_split _ _ G) as (pre & post & Em & _).
      apply (setExpanded_total _ _ _ _ pre nd post W Em).
      subst nodes. unfold JsMap.size. rewrite length_app. simpl. lia.
    - exists nodes. simpl. rewrite G. reflexivity. }
  assert (R := setExpanded_rel _ _ _ _ _ E).
  exists m'. split; [exact E|]. split; [exact (rel_map_keys R)|].
  intros x nx G. split.
  - intros D Hc. eapply setExpanded_desc; eassumption.
  - intros [D|Hc].
    + rewrite <- G. eapply setExpanded_frame; eassumption.
    + destruct (rel_map_get _ R G) as (z & Gz & [->|(Hz & _)]);
        [exact Gz | contradiction].
Qed.

(** X10.  [setExpandedRecursive] on a built arena returns; it writes [expanded]
    on the node and on those of its descendants that have children, and on
    nothing else: a node without children, and every node outside the
    subtree, stays as it was, and no other field changes. *)
Theorem setExpandedRecursive_writes_folders_of_subtree nodes
        (nodeId : string) (value : bool) :
  arena_wf nodes ->
  exists nodes',
    setExpandedRecursive nodes nodeId value = Some nodes' /\
    JsMap.keys nodes' = JsMap.keys nodes /\
    forall x nx,
      JsMap.get nodes x = Some nx ->
      (desc_or_self nodes nodeId x -> children nx <> [] ->
       JsMap.get nodes' x = Some (with_expanded nx value)) /\
      (~ desc_or_self nodes nodeId x \/ children nx = [] ->
       JsMap.get nodes' x = Some nx).
Proof. apply setExpandedRecursive_effect. Qed.

(** X11.  [collapseAll] on a built tree returns; it leaves the root expanded,
    collapses every other node that has children, and changes nothing
    else. *)
Theorem collapseAll_keeps_root_open (w : World Num) (rootId : string) :
  session_wf (state w) ->
  rootNodeId (state w) = Some rootId ->
  exists w',
    collapseAll w = Some w' /\
    kmlDataSource w' = kmlDataSource w /\
    forall x nx,
      JsMap.get (nodesById (state w)) x = Some nx ->
      JsMap.get (nodesById (state w')) x
      = Some (if (x =? rootId)%string then with_expanded nx true
              else match children nx with
                   | [] => nx
                   | _ :: _ => with_expanded nx false
                   end).
Proof.
  intros S Er. destruct (root_present S Er) as (Kr & root & Gr).
  unfold collapseAll. rewrite Er, (truthy_key Kr).
  destruct (setExpandedRecursive_effect
              (nodesById (state w)) rootId false (sw_arena S))
    as (m1 & E1 & _ & H1).
  rewrite E1. simpl. eexists. split; [reflexivity|].
  split; [reflexivity|]. simpl.
  assert (Hall : forall x nx,
             JsMap.get (nodesById (state w)) x = Some nx ->
             JsMap.get m1 x = Some (match children nx with
                                    | [] => nx
                                    | _ :: _ => with_expanded nx false
                                    end)).
  { intros x nx G. destruct (H1 x nx G) as (Hd & Hk).
    destruct (children nx) as [|c r] eqn:Ec; [apply Hk; auto|].
    apply Hd; [|congruence].
    apply root_reaches_all; [exact (sw_arena S) | |].
    - rewrite <- (sw_root S). exact Er.
    - apply get_Some_keys with (v := nx). exact G. }
  rewrite (Hall rootId root Gr).
  intros x nx G. destruct (String.eqb_spec x rootId) as [->|ne].
  - rewrite get_set_same. assert (nx = root) by congruence. subst nx.
    destruct (children root); reflexivity.
  - rewrite get_set_other by exact ne. exact (Hall x nx G).
Qed.

(* ---------------------------------------------------------------- *)
(** ** The filter *)

Lemma someM_spec (f : string -> option bool) (P : string -> Prop)
      (l : list string) :
  (forall c, In c l -> exists b, f c = Some b /\ (b = true <-> P c)) ->
  exists b, someM f l = Some b /\ (b = true <-> exists c, In c l /\ P c).
Proof.
  induction l as [|c r IH]; simpl; intros H.
  - exists false. split; [reflexivity|]. split; [discriminate|].
    intros (c & [] & _).
  - destruct (H c (or_introl eq_refl)) as (b & -> & Hb). simpl.
    destruct b.
    + exists true. split; [reflexivity|]. split; [|reflexivity].
      intros _. exists c. split; [auto | apply Hb; reflexivity].
    + destruct (IH (fun c' i => H c' (or_intror i))) as (b' & -> & Hb').
      exists b'. split; [reflexivity|]. rewrite Hb'. split.
      * intros (c' & Hin & Hp). eauto.
      * intros (c' & [<-|Hin] & Hp); [|eauto].
        apply Hb in Hp. discriminate.
Qed.

Lemma subtreeMatches_spec (fuel : nat) (filterText : string) :
  forall m k pre nd post,
    arena_wf m -> m = pre ++ (k, nd) :: post -> List.length post < fuel ->
    exists b,
      subtreeMatches_fuel fuel m filterText k = Some b /\
      (b = true <->
       exists x nx, desc_or_self m k x /\ JsMap.get m x = Some nx /\
                    matchesFilter filterText nx = true).
Proof.
  induction fuel as [|f IH]; intros m k pre nd post W E Hl; [lia|].
  destruct (W pre k nd post E) as [_ _ F _ C _].
  simpl. assert (G : JsMap.get m k = Some nd)
    by (subst m; apply get_middle; exact F).
  rewrite G. destruct (matchesFilter filterText nd) eqn:Hm.
  - exists true. split; [reflexivity|]. split; [|reflexivity].
    intros _. exists k, nd. split; [constructor | auto].
  - destruct (someM_spec (subtreeMatches_fuel f m filterText)
                (fun c => exists x nx, desc_or_self m c x /\
                                       JsMap.get m x = Some nx /\
                                       matchesFilter filterText nx = true)
                (children nd)) as (b & Hb & Hiff).
    + intros c Hc.
      destruct (in_keys_split _ _ (C c Hc)) as (a & nc & pc & Epost).
      apply (IH m c (pre ++ (k, nd) :: a) nc pc W).
      * subst m post. rewrite <- app_assoc. reflexivity.
      * subst post. rewrite length_app in Hl. simpl in Hl. lia.
    + exists b. split; [exact Hb|]. rewrite Hiff. split.
      * intros (c & Hc & x & nx & D & Gx & Hx). exists x, nx.
        split; [|auto]. apply desc_down with (nd := nd) (c := c); assumption.
      * intros (x & nx & D & Gx & Hx).
        inversion D as [|a nd0 c y G0 i Dc]; subst.
        -- assert (nx = nd) by congruence. subst nx. congruence.
        -- assert (nd0 = nd) by congruence. subst nd0.
           exists c. split; [exact i|]. eauto.
Qed.

(** X12.  [subtreeMatches] on a built arena returns, and it returns true exactly
    when the node or one of its descendants matches the filter; with a
    filter that is empty or white space every node of the arena matches. *)
Theorem subtreeMatches_iff_some_descendant_matches nodes
        (filterText nodeId : string) :
  arena_wf nodes ->
  exists b,
    subtreeMatches nodes filterText nodeId = Some b /\
    (b = true <->
     exists x nx, desc_or_self nodes nodeId x /\
                  JsMap.get nodes x = Some nx /\
                  matchesFilter filterText nx = true) /\
    (trim filterText = EmptyString ->
     JsMap.get nodes nodeId <> None -> b = true).
Proof.
  intros W. unfold subtreeMatches.
  destruct (JsMap.get nodes nodeId) as [nd|] eqn:G.
  - destruct (get_split _ _ G) as (pre & post & E & _).
    destruct (subtreeMatches_spec (S (JsMap.size nodes)) filterText
                nodes nodeId pre nd post W E) as (b & Hb & Hiff).
    { subst nodes. unfold JsMap.size. rewrite length_app. simpl. lia. }
    exists b. split; [exact Hb|]. split; [exact Hiff|].
    intros Ht _. apply Hiff. exists nodeId, nd.
    split; [constructor|]. split; [exact G|].
    unfold matchesFilter. rewrite Ht. reflexivity.
  - exists false. simpl. rewrite G. split; [reflexivity|]. split.
    + split; [discriminate|]. intros (x & nx & D & Gx & _).
      inversion D; subst; congruence.
    + intros _ H. contradiction.
Qed.

End Expanding.

(* ------------------------------------------------------------------ *)
(** ** What the tree builder copies and links *)

Section BuiltTree.

Context {Num : Type} {ops : JsNum Num}.
Implicit Types (m : NodeMap Num) (s : BuildState Num) (nd node : Node Num).

Lemma built_more_transfer m m' nd :
  built_more m nd ->
  (forall c, In c (children nd) -> JsMap.get m' c = JsMap.get m c) ->
  built_more m' nd.
Proof.
  intros [T N E C D] H. constructor; auto.
  intros c Hc. rewrite (H c Hc). exact (C c Hc).
Qed.

Lemma more_start m (n : nat) nd :
  tag nd = tagName (featureEl nd) ->
  name nd = getFeatureName (featureEl nd) ->
  expanded nd = negb (tag nd =? "Placemark")%string ->
  children nd = [] ->
  block_more (JsMap.set m (nodeIdOf n) nd) n (S n) [featureEl nd].
Proof.
  intros T N E C. split; [cbn [List.length]; lia|].
  intros j x Hj G. assert (j = n) by lia. subst j.
  rewrite get_set_same in G. injection G as <-.
  rewrite Nat.sub_diag. split; [|reflexivity].
  constructor; auto; rewrite C; [intros c [] | constructor].
Qed.

Lemma more_add_child (tg ctg : string) (parent : option string)
      (s0 s s1 : BuildState Num) node childNode (ks : list string)
      (fs cfs : list (Element Num)) :
  1 <= b_next s0 ->
  build_post tg parent s0 s node ->
  build_post ctg (Some (nodeIdOf (b_next s0))) s s1 childNode ->
  block_more (b_nodes s) (b_next s0) (b_next s) fs ->
  block_more (b_nodes s1) (b_next s) (b_next s1) cfs ->
  block_more
    (JsMap.set (b_nodes s1) (id node)
       (with_children node (children node ++ [id childNode]) ks))
    (b_next s0) (b_next s1) (fs ++ cfs).
Proof.
  intros H1 [N0 Q0 F0 G0 P0 T0 B0] [N1 Q1 F1 G1 P1 T1 B1] (L0 & M0) (L1 & M1).
  set (n := b_next s0) in *. set (c := b_next s) in *.
  set (c' := b_next s1) in *.
  destruct (B0 n ltac:(lia)) as (nd0 & Gn & On).
  assert (nd0 = node) by congruence. subst nd0.
  destruct (B1 c ltac:(lia)) as (ndc & Gc & Oc).
  assert (ndc = childNode) by congruence. subst ndc.
  rewrite (bo_id On).
  set (node' := with_children node (children node ++ [id childNode]) ks).
  set (m2 := JsMap.set (b_nodes s1) (nodeIdOf n) node').
  assert (Old : forall i, n < i < c ->
                          JsMap.get m2 (nodeIdOf i)
                          = JsMap.get (b_nodes s) (nodeIdOf i)).
  { intros i Hi. unfold m2. rewrite get_set_id by lia. apply F1. lia. }
  assert (New : forall i, c <= i ->
                          JsMap.get m2 (nodeIdOf i)
                          = JsMap.get (b_nodes s1) (nodeIdOf i)).
  { intros i Hi. unfold m2. apply get_set_id. lia. }
  split; [rewrite length_app; lia|].
  intros j nd Hj G. destruct (Nat.eq_dec j n) as [->|nej].
  - unfold m2 in G. rewrite get_set_same in G. injection G as <-.
    destruct (M0 n node ltac:(lia) G0) as ([T N E C D] & Hf).
    split.
    + constructor; auto.
      * unfold node'. simpl. intros x Hx. apply in_app_or in Hx.
        destruct Hx as [Hx|[<-|[]]].
        -- destruct (bo_children On x Hx) as (i & Hi & ->).
           rewrite (Old i Hi). exact (C _ Hx).
        -- rewrite (bo_id Oc), (New c (le_n c)). exists childNode.
           split; [exact G1|]. rewrite P1, (bo_id On). reflexivity.
      * unfold node'. simpl. apply NoDup_app.
        -- exact D.
        -- repeat constructor. intros [].
        -- intros x Hx [<-|[]]. destruct (bo_children On _ Hx) as (i & Hi & Ei).
           rewrite (bo_id Oc) in Ei. apply nodeIdOf_inj in Ei. lia.
    + rewrite nth_error_app1 by lia. exact Hf.
  - destruct (Nat.lt_ge_cases j c) as [Hlt|Hge].
    + rewrite (Old j ltac:(lia)) in G.
      destruct (M0 j nd ltac:(lia) G) as (Hm & Hf).
      destruct (B0 j ltac:(lia)) as (nd' & G' & Oj).
      assert (nd' = nd) by congruence. subst nd'.
      split; [|rewrite nth_error_app1 by lia; exact Hf].
      apply built_more_transfer with (m := b_nodes s); [exact Hm|].
      intros x Hx. destruct (bo_children Oj x Hx) as (i & Hi & ->).
      apply Old. lia.
    + rewrite (New j Hge) in G.
      destruct (M1 j nd ltac:(lia) G) as (Hm & Hf).
      destruct (B1 j ltac:(lia)) as (nd' & G' & Oj).
      assert (nd' = nd) by congruence. subst nd'.
      split.
      * apply built_more_transfer with (m := b_nodes s1); [exact Hm|].
        intros x Hx. destruct (bo_children Oj x Hx) as (i & Hi & ->).
        apply New. lia.
      * rewrite nth_error_app2 by lia.
        replace (j - n - List.length fs) with (j - c) by lia. exact Hf.
Qed.

Lemma more_set_keys (tg : string) (parent : option string)
      (s0 s : BuildState Num) node (ks : list string)
      (fs : list (Element Num)) :
  build_post tg parent s0 s node ->
  block_more (b_nodes s) (b_next s0) (b_next s) fs ->
  block_more (JsMap.set (b_nodes s) (id node) (with_placemarkKeys node ks))
             (b_next s0) (b_next s) fs.
Proof.
  intros [N0 Q0 F0 G0 P0 T0 B0] (L0 & M0).
  set (n := b_next s0) in *. set (c := b_next s) in *.
  destruct (B0 n ltac:(lia)) as (nd0 & Gn & On).
  assert (nd0 = node) by congruence. subst nd0.
  rewrite (bo_id On). split; [exact L0|].
  intros j nd Hj G. destruct (Nat.eq_dec j n) as [->|nej].
  - rewrite get_set_same in G. injection G as <-.
    destruct (M0 n node Hj G0) as ([T N E C D] & Hf).
    split; [|exact Hf]. constructor; auto.
    simpl. intros x Hx. destruct (bo_children On x Hx) as (i & Hi & ->).
    rewrite get_set_id by lia. exact (C _ Hx).
  - rewrite get_set_id in G by exact nej.
    destruct (M0 j nd Hj G) as (Hm & Hf). split; [|exact Hf].
    destruct (B0 j Hj) as (nd' & G' & Oj).
    assert (nd' = nd) by congruence. subst nd'.
    apply built_more_transfer with (m := b_nodes s); [exact Hm|].
    intros x Hx. destruct (bo_children Oj x Hx) as (i & Hi & ->).
    apply get_set_id. lia.
Qed.

Lemma buildChildren_more
      (build : Element Num -> list string -> BuildState Num ->
               BuildState Num * Node Num)
      (tg : string) (parent : option string) (s0 : BuildState Num)
      (pathNames : list string) (kids : list (Element Num)) :
  1 <= b_next s0 -> tg <> "Placemark" ->
  Forall (fun c => forall p s s' nd,
              1 <= b_next s -> arena_seq (b_nodes s) (b_next s) ->
              build c p s = (s', nd) ->
              build_post (tagName c) (Some (nodeIdOf (b_next s0))) s s' nd /\
              block_more (b_nodes s') (b_next s) (b_next s') (features c))
         kids ->
  forall s node fs s' node',
    build_post tg parent s0 s node ->
    block_more (b_nodes s) (b_next s0) (b_next s) fs ->
    buildChildren build pathNames kids s node = (s', node') ->
    build_post tg parent s0 s' node' /\
    block_more (b_nodes s') (b_next s0) (b_next s') (fs ++ featuresOf kids).
Proof.
  intros H1 Htg HF. induction HF as [|c r Hc _ IH]; simpl;
    intros s node fs s' node' Hpost Hmore E.
  - injection E as <- <-. rewrite app_nil_r. auto.
  - unfold featuresOf. simpl. fold (featuresOf r).
    destruct (isFeatureTag (tagName c)); [|exact (IH _ _ _ _ _ Hpost Hmore E)].
    destruct (build c _ s) as [s1 childNode] eqn:Eb.
    assert (Hs : 1 <= b_next s) by (pose proof (bp_next Hpost); lia).
    destruct (Hc _ _ _ _ Hs (bp_seq Hpost) Eb) as (Pc & Mc).
    rewrite app_assoc.
    eapply IH; [| | exact E].
    + eapply block_add_child; eassumption.
    + simpl. eapply more_add_child; eassumption.
Qed.

Lemma buildNode_more (el : Element Num) :
  forall (parent : option string) (pathNames : list string) s s' nd,
    1 <= b_next s -> arena_seq (b_nodes s) (b_next s) ->
    buildNode el parent pathNames s = (s', nd) ->
    block_more (b_nodes s') (b_next s) (b_next s') (features el).
Proof.
  induction el as [tg nm co kids IH] using Element_nested_ind.
  intros parent pathNames s s' nd H1 Hs E.
  rewrite buildNode_eq in E. cbv zeta in E.
  set (el := mkElement tg nm co kids) in *.
  set (id0 := nodeIdOf (b_next s)) in *.
  set (node := mkNode id0 parent (getFeatureName el) tg el [] true false
                 (negb (tg =? "Placemark")%string) []) in *.
  assert (P1 : build_post tg parent s
                 (mkBuild (S (b_next s)) (JsMap.set (b_nodes s) id0 node)
                          (b_index s)) node)
    by (apply build_post_start; auto).
  assert (M1 : block_more (JsMap.set (b_nodes s) id0 node) (b_next s)
                 (S (b_next s)) [el])
    by (apply (more_start (b_nodes s) (b_next s) node); reflexivity).
  change (features el) with
    (el :: (if (tg =? "Placemark")%string then [] else featuresOf kids)).
  destruct (String.eqb_spec tg "Placemark") as [Et|Et].
  - injection E as <- <-. simpl.
    exact (more_set_keys _ _ _ _ _ _ _ P1 M1).
  - destruct (buildChildren _ pathNames kids _ node) as [s2 node2] eqn:Ec.
    injection E as <- <-.
    assert (PM : build_post tg parent s s2 node2 /\
                 block_more (b_nodes s2) (b_next s) (b_next s2)
                            ([el] ++ featuresOf kids)).
    { eapply buildChildren_more;
        [exact H1 | exact Et | | exact P1 | exact M1 | exact Ec].
      apply Forall_impl with (2 := IH).
      intros c Hc p sa sb ndc Ha Hq Eq. split.
      - eapply buildNode_post; eassumption.
      - eapply Hc; eassumption. }
    destruct PM as (P2 & M2).
    assert (I2 : id node2 = id0).
    { destruct (bp_block P2 (j := b_next s)) as (x & Gx & Ox);
        [destruct P2; lia|].
      rewrite (bp_node P2) in Gx. injection Gx as <-. exact (bo_id Ox). }
    simpl. rewrite <- I2.
    destruct (Nat.ltb 1 (List.length (placemarkKeys node2))).
    + exact (more_set_keys _ _ _ _ _ _ _ P2 M2).
    + replace node2 with (with_placemarkKeys node2 (placemarkKeys node2))
        at 2 by (destruct node2; reflexivity).
      exact (more_set_keys _ _ _ _ _ _ _ P2 M2).
Qed.

End BuiltTree.

(* ------------------------------------------------------------------ *)
(** ** The children of a node and the child features of its element *)

Section BuiltChildren.

Context {Num : Type} {ops : JsNum Num}.
Implicit Types (m : NodeMap Num) (s : BuildState Num) (nd node : Node Num).

Lemma Forall2_impl_in (A B : Type) (R R' : A -> B -> Prop)
      (l1 : list A) (l2 : list B) :
  Forall2 R l1 l2 ->
  (forall x y, In x l1 -> R x y -> R' x y) ->
  Forall2 R' l1 l2.
Proof.
  induction 1 as [|x y l1 l2 H _ IH]; intros Himp; constructor.
  - apply Himp; [left; reflexivity | exact H].
  - apply IH. intros a b Ha. apply Himp. right. exact Ha.
Qed.

Lemma node_of_transfer m m' nd (es : list (Element Num)) :
  Forall2 (node_of m) (children nd) es ->
  (forall c, In c (children nd) -> JsMap.get m' c = JsMap.get m c) ->
  Forall2 (node_of m') (children nd) es.
Proof.
  intros H Hg. apply Forall2_impl_in with (1 := H).
  intros x y Hx (cn & G & E). exists cn. rewrite (Hg x Hx). auto.
Qed.

Lemma els_start m (n : nat) nd :
  children nd = [] ->
  block_els (JsMap.set m (nodeIdOf n) nd) n (S n) [].
Proof.
  intros C j x Hj G. assert (j = n) by lia. subst j.
  rewrite get_set_same in G. injection G as <-.
  rewrite Nat.eqb_refl, C. constructor.
Qed.

Lemma els_add_child (tg ctg : string) (parent : option string)
      (s0 s s1 : BuildState Num) node childNode (ks : list string)
      (ds : list (Element Num)) (cel : Element Num) :
  1 <= b_next s0 ->
  build_post tg parent s0 s node ->
  build_post ctg (Some (nodeIdOf (b_next s0))) s s1 childNode ->
  featureEl childNode = cel ->
  block_els (b_nodes s) (b_next s0) (b_next s) ds ->
  block_els (b_nodes s1) (b_next s) (b_next s1) (kidsOf cel) ->
  block_els
    (JsMap.set (b_nodes s1) (id node)
       (with_children node (children node ++ [id childNode]) ks))
    (b_next s0) (b_next s1) (ds ++ [cel]).
Proof.
  intros H1 [N0 Q0 F0 G0 P0 T0 B0] [N1 Q1 F1 G1 P1 T1 B1] Ec M0 M1.
  set (n := b_next s0) in *. set (c := b_next s) in *.
  set (c' := b_next s1) in *.
  destruct (B0 n ltac:(lia)) as (nd0 & Gn & On).
  assert (nd0 = node) by congruence. subst nd0.
  destruct (B1 c ltac:(lia)) as (ndc & Gc & Oc).
  assert (ndc = childNode) by congruence. subst ndc.
  rewrite (bo_id On).
  set (node' := with_children node (children node ++ [id childNode]) ks).
  set (m2 := JsMap.set (b_nodes s1) (nodeIdOf n) node').
  assert (Old : forall i, n < i < c ->
                          JsMap.get m2 (nodeIdOf i)
                          = JsMap.get (b_nodes s) (nodeIdOf i)).
  { intros i Hi. unfold m2. rewrite get_set_id by lia. apply F1. lia. }
  assert (New : forall i, c <= i ->
                          JsMap.get m2 (nodeIdOf i)
                          = JsMap.get (b_nodes s1) (nodeIdOf i)).
  { intros i Hi. unfold m2. apply get_set_id. lia. }
  intros j nd Hj G. destruct (Nat.eqb_spec j n) as [->|nej].
  - unfold m2 in G. rewrite get_set_same in G. injection G as <-.
    unfold node'. simpl. apply Forall2_app.
    + assert (H0 := M0 n node ltac:(lia) G0). rewrite Nat.eqb_refl in H0.
      apply Forall2_impl_in with (1 := H0).
      intros x y Hx (cn & Gx & Ex). exists cn. split; [|exact Ex].
      destruct (bo_children On x Hx) as (i & Hi & ->).
      rewrite (Old i Hi). exact Gx.
    + constructor; [|constructor]. exists childNode.
      rewrite (bo_id Oc), (New c (le_n c)). auto.
  - destruct (Nat.lt_ge_cases j c) as [Hlt|Hge].
    + rewrite (Old j ltac:(lia)) in G.
      assert (H0 := M0 j nd ltac:(lia) G).
      destruct (Nat.eqb_spec j n) as [|_]; [contradiction|].
      destruct (B0 j ltac:(lia)) as (nd' & G' & Oj).
      assert (nd' = nd) by congruence. subst nd'.
      apply node_of_transfer with (m := b_nodes s); [exact H0|].
      intros x Hx. destruct (bo_children Oj x Hx) as (i & Hi & ->).
      apply Old. lia.
    + rewrite (New j Hge) in G.
      assert (H0 := M1 j nd ltac:(lia) G).
      destruct (B1 j ltac:(lia)) as (nd' & G' & Oj).
      assert (nd' = nd) by congruence. subst nd'.
      assert (H2 : Forall2 (node_of (b_nodes s1)) (children nd)
                           (kidsOf (featureEl nd))).
      { destruct (Nat.eqb_spec j c) as [->|_]; [|exact H0].
        assert (nd = childNode) by congruence. subst nd.
        rewrite Ec. exact H0. }
      apply node_of_transfer with (m := b_nodes s1); [exact H2|].
      intros x Hx. destruct (bo_children Oj x Hx) as (i & Hi & ->).
      apply New. lia.
Qed.

Lemma els_set_keys (tg : string) (parent : option string)
      (s0 s : BuildState Num) node (ks : list string)
      (ds : list (Element Num)) :
  build_post tg parent s0 s node ->
  block_els (b_nodes s) (b_next s0) (b_next s) ds ->
  block_els (JsMap.set (b_nodes s) (id node) (with_placemarkKeys node ks))
            (b_next s0) (b_next s) ds.
Proof.
  intros [N0 Q0 F0 G0 P0 T0 B0] M0.
  set (n := b_next s0) in *. set (c := b_next s) in *.
  destruct (B0 n ltac:(lia)) as (nd0 & Gn & On).
  assert (nd0 = node) by congruence. subst nd0.
  rewrite (bo_id On).
  intros j nd Hj G. destruct (Nat.eq_dec j n) as [->|nej].
  - rewrite get_set_same in G. injection G as <-.
    assert (H0 := M0 n node Hj G0). simpl.
    apply node_of_transfer with (m := b_nodes s) (nd := node); [exact H0|].
    intros x Hx. destruct (bo_children On x Hx) as (i & Hi & ->).
    apply get_set_id. lia.
  - rewrite get_set_id in G by exact nej.
    assert (H0 := M0 j nd Hj G).
    destruct (B0 j Hj) as (nd' & G' & Oj).
    assert (nd' = nd) by congruence. subst nd'.
    apply node_of_transfer with (m := b_nodes s); [exact H0|].
    intros x Hx. destruct (bo_children Oj x Hx) as (i & Hi & ->).
    apply get_set_id. lia.
Qed.

Lemma buildNode_featureEl (el : Element Num) (parent : option string)
      (pathNames : list string) s s' nd :
  1 <= b_next s -> arena_seq (b_nodes s) (b_next s) ->
  buildNode el parent pathNames s = (s', nd) ->
  featureEl nd = el.
Proof.
  intros H1 Hs E.
  assert (P : build_post (tagName el) parent s s' nd)
    by (eapply buildNode_post; eassumption).
  destruct (buildNode_more el parent pathNames s s' nd H1 Hs E) as (_ & M).
  destruct (M (b_next s) nd) as (_ & Hf).
  - destruct P. lia.
  - exact (bp_node P).
  - rewrite Nat.sub_diag in Hf. destruct el. simpl in Hf. congruence.
Qed.

Lemma buildChildren_els
      (build : Element Num -> list string -> BuildState Num ->
               BuildState Num * Node Num)
      (tg : string) (parent : option string) (s0 : BuildState Num)
      (pathNames : list string) (kids : list (Element Num)) :
  1 <= b_next s0 -> tg <> "Placemark" ->
  Forall (fun c => forall p s s' nd,
              1 <= b_next s -> arena_seq (b_nodes s) (b_next s) ->
              build c p s = (s', nd) ->
              build_post (tagName c) (Some (nodeIdOf (b_next s0))) s s' nd /\
              featureEl nd = c /\
              block_els (b_nodes s') (b_next s) (b_next s') (kidsOf c))
         kids ->
  forall s node ds s' node',
    build_post tg parent s0 s node ->
    block_els (b_nodes s) (b_next s0) (b_next s) ds ->
    buildChildren build pathNames kids s node = (s', node') ->
    build_post tg parent s0 s' node' /\
    block_els (b_nodes s') (b_next s0) (b_next s')
              (ds ++ filter (fun c => isFeatureTag (tagName c)) kids).
Proof.
  intros H1 Htg HF. induction HF as [|c r Hc _ IH]; simpl;
    intros s node ds s' node' Hpost Hmore E.
  - injection E as <- <-. rewrite app_nil_r. auto.
  - destruct (isFeatureTag (tagName c)); [|exact (IH _ _ _ _ _ Hpost Hmore E)].
    destruct (build c _ s) as [s1 childNode] eqn:Eb.
    assert (Hs : 1 <= b_next s) by (pose proof (bp_next Hpost); lia).
    destruct (Hc _ _ _ _ Hs (bp_seq Hpost) Eb) as (Pc & Fc & Mc).
    change (ds ++ c :: filter (fun c0 => isFeatureTag (tagName c0)) r)
      with (ds ++ [c] ++ filter (fun c0 => isFeatureTag (tagName c0)) r).
    rewrite app_assoc.
    eapply IH; [| | exact E].
    + eapply block_add_child; eassumption.
    + simpl. eapply els_add_child; eassumption.
Qed.

Lemma buildNode_els (el : Element Num) :
  forall (parent : option string) (pathNames : list string) s s' nd,
    1 <= b_next s -> arena_seq (b_nodes s) (b_next s) ->
    buildNode el parent pathNames s = (s', nd) ->
    block_els (b_nodes s') (b_next s) (b_next s') (kidsOf el).
Proof.
  induction el as [tg nm co kids IH] using Element_nested_ind.
  intros parent pathNames s s' nd H1 Hs E.
  rewrite buildNode_eq in E. cbv zeta in E.
  set (el := mkElement tg nm co kids) in *.
  set (id0 := nodeIdOf (b_next s)) in *.
  set (node := mkNode id0 parent (getFeatureName el) tg el [] true false
                 (negb (tg =? "Placemark")%string) []) in *.
  assert (P1 : build_post tg parent s
                 (mkBuild (S (b_next s)) (JsMap.set (b_nodes s) id0 node)
                          (b_index s)) node)
    by (apply build_post_start; auto).
  assert (M1 : block_els (JsMap.set (b_nodes s) id0 node) (b_next s)
                 (S (b_next s)) [])
    by (apply (els_start (b_nodes s) (b_next s) node); reflexivity).
  unfold kidsOf. change (tagName el) with tg.
  destruct (String.eqb_spec tg "Placemark") as [Et|Et].
  - injection E as <- <-. simpl.
    exact (els_set_keys _ _ _ _ _ _ _ P1 M1).
  - destruct (buildChildren _ pathNames kids _ node) as [s2 node2] eqn:Ec.
    injection E as <- <-.
    assert (PM : build_post tg parent s s2 node2 /\
                 block_els (b_nodes s2) (b_next s) (b_next s2)
                           ([] ++ getChildFeatures el)).
    { eapply buildChildren_els;
        [exact H1 | exact Et | | exact P1 | exact M1 | exact Ec].
      apply Forall_impl with (2 := IH).
      intros c Hc p sa sb ndc Ha Hq Eq. split; [|split].
      - eapply buildNode_post; eassumption.
      - eapply buildNode_featureEl; eassumption.
      - eapply Hc; eassumption. }
    destruct PM as (P2 & M2).
    assert (I2 : id node2 = id0).
    { destruct (bp_block P2 (j := b_next s)) as (x & Gx & Ox);
        [destruct P2; lia|].
      rewrite (bp_node P2) in Gx. injection Gx as <-. exact (bo_id Ox). }
    simpl. rewrite <- I2.
    destruct (Nat.ltb 1 (List.length (placemarkKeys node2))).
    + exact (els_set_keys _ _ _ _ _ _ _ P2 M2).
    + replace node2 with (with_placemarkKeys node2 (placemarkKeys node2))
        at 2 by (destruct node2; reflexivity).
      exact (els_set_keys _ _ _ _ _ _ _ P2 M2).
Qed.

End BuiltChildren.

(* ------------------------------------------------------------------ *)
(** ** The built tree and the document *)

Section BuiltDocument.

Context {Num : Type} {ops : JsNum Num}.
Implicit Types (m : NodeMap Num) (s : BuildState Num) (nd node : Node Num).

Lemma arena_seq_nth m (n' i : nat) (k : string) nd :
  arena_seq m n' -> nth_error m i = Some (k, nd) ->
  k = nodeIdOf (1 + i) /\ 1 + i < n' /\ JsMap.get m k = Some nd.
Proof.
  intros Hs Hn. destruct (nth_error_split _ _ Hn) as (pre & post & E & L).
  unfold arena_seq in Hs. rewrite E, keys_app in Hs. simpl in Hs.
  assert (Hl := f_equal (@List.length string) Hs).
  unfold JsMap.keys in Hl.
  rewrite length_app, !length_map, length_seq in Hl. simpl in Hl.
  rewrite ?length_map in Hl.
  destruct (split_ids _ _ _ _ _ _ Hs) as (Ek & Epre & _).
  unfold JsMap.keys in Ek, Epre. rewrite length_map in Ek, Epre.
  rewrite L in *. split; [exact Ek|]. split; [lia|].
  rewrite E. apply get_middle. unfold JsMap.keys.
  rewrite Epre, Ek, in_ids. lia.
Qed.

(** What the three inductions over [buildNode] give for a whole tree. *)
Lemma buildTreeFromKml_blocks (rootFeatureEl : Element Num) :
  exists s rootNode,
    buildTreeFromKml rootFeatureEl
    = mkBuilt (b_nodes s) (nodeIdOf 1) (b_index s) /\
    JsMap.get (b_nodes s) (nodeIdOf 1) = Some rootNode /\
    featureEl rootNode = rootFeatureEl /\
    arena_seq (b_nodes s) (b_next s) /\
    block_built (b_nodes s) 1 (b_next s) /\
    block_more (b_nodes s) 1 (b_next s) (features rootFeatureEl) /\
    block_els (b_nodes s) 1 (b_next s) (kidsOf rootFeatureEl).
Proof.
  unfold buildTreeFromKml.
  destruct (buildNode rootFeatureEl None [getFeatureName rootFeatureEl]
                      (mkBuild 1 JsMap.empty JsMap.empty))
    as [s rootNode] eqn:E.
  assert (H1 : 1 <= b_next (mkBuild (Num := Num) 1 JsMap.empty JsMap.empty))
    by (simpl; lia).
  assert (Hs : arena_seq (b_nodes (mkBuild (Num := Num) 1 JsMap.empty
                                           JsMap.empty)) 1)
    by reflexivity.
  assert (P : build_post (tagName rootFeatureEl) None
                         (mkBuild 1 JsMap.empty JsMap.empty) s rootNode)
    by (eapply buildNode_post; eassumption).
  assert (M := buildNode_more _ _ _ _ _ _ H1 Hs E).
  assert (L := buildNode_els _ _ _ _ _ _ H1 Hs E).
  assert (F := buildNode_featureEl _ _ _ _ _ _ H1 Hs E).
  destruct P as [N Q Fr G Pa T B]. simpl in *.
  destruct (B 1 ltac:(lia)) as (r & Gr & Or).
  assert (r = rootNode) by congruence. subst r.
  exists s, rootNode. rewrite (bo_id Or).
  split; [reflexivity|]. split; [exact G|]. split; [exact F|].
  split; [exact Q|]. split; [exact B|]. split; [exact M | exact L].
Qed.

Lemma built_values (rootFeatureEl : Element Num) :
  map (featureEl (Num := Num))
      (JsMap.values (built_nodesById (buildTreeFromKml rootFeatureEl)))
  = features rootFeatureEl /\
  Forall (fun nd => tag nd = tagName (featureEl nd))
         (JsMap.values (built_nodesById (buildTreeFromKml rootFeatureEl))).
Proof.
  destruct (buildTreeFromKml_blocks rootFeatureEl)
    as (s & rootNode & -> & Gr & Fr & Q & B & (Lm & M) & L).
  simpl. split.
  - apply nth_error_ext. intros i. unfold JsMap.values.
    rewrite !nth_error_map.
    destruct (nth_error (b_nodes s) i) as [[k nd]|] eqn:En; simpl.
    + destruct (arena_seq_nth _ _ _ _ _ Q En) as (-> & Hi & G).
      destruct (M (1 + i) nd ltac:(lia) G) as (_ & Hf).
      replace (1 + i - 1) with i in Hf by lia. symmetry. exact Hf.
    + symmetry. apply nth_error_None. apply nth_error_None in En.
      assert (Hl := f_equal (@List.length string) Q).
      unfold JsMap.keys in Hl. rewrite !length_map, length_seq in Hl. lia.
  - apply Forall_forall. intros nd Hin. unfold JsMap.values in Hin.
    apply in_map_iff in Hin. destruct Hin as ([k x] & <- & Hin).
    apply In_nth_error in Hin. destruct Hin as (i & En).
    destruct (arena_seq_nth _ _ _ _ _ Q En) as (-> & Hi & G).
    destruct (M (1 + i) x ltac:(lia) G) as (Hm & _). exact (bm_tag Hm).
Qed.

(** X4.  The arena that [buildTreeFromKml] returns holds one node for each
    feature element of the document, in document order, under the keys
    n1, n2, ... in this order; the root is n1; every node is stored under
    its own [id] and carries the tag and the name of its element; it starts
    expanded iff it is not a placemark; its [children] are, in order and
    without repetition, the nodes of the child features of its element (none
    for a placemark), and each of them names the node as its parent. *)
Theorem buildTreeFromKml_mirrors_document (rootFeatureEl : Element Num) :
  let built := buildTreeFromKml rootFeatureEl in
  let m := built_nodesById built in
  map (featureEl (Num := Num)) (JsMap.values m) = features rootFeatureEl /\
  JsMap.keys m
  = map nodeIdOf (seq 1 (List.length (features rootFeatureEl))) /\
  built_rootNodeId built = nodeIdOf 1 /\
  forall k nd,
    JsMap.get m k = Some nd ->
    id nd = k /\
    tag nd = tagName (featureEl nd) /\
    name nd = getFeatureName (featureEl nd) /\
    expanded nd = negb (tag nd =? "Placemark")%string /\
    Forall2 (node_of m) (children nd) (kidsOf (featureEl nd)) /\
    NoDup (children nd) /\
    forall c, In c (children nd) ->
              exists cn, JsMap.get m c = Some cn /\ parentId cn = Some k.
Proof.
  intros built m. assert (V := proj1 (built_values rootFeatureEl)).
  fold built in V. fold m in V. subst built m.
  destruct (buildTreeFromKml_blocks rootFeatureEl)
    as (s & rootNode & Eb & Gr & Fr & Q & B & (Lm & M) & L).
  rewrite Eb in V |- *.
  simpl in *. split; [exact V|]. split; [|split; [reflexivity|]].
  - rewrite Lm. exact Q.
  - intros k nd G.
    assert (Hk := get_Some_keys _ _ G). rewrite Q in Hk.
    apply in_map_iff in Hk. destruct Hk as (j & <- & Hj).
    apply in_seq in Hj. destruct (B j ltac:(lia)) as (nd' & Gj & Oj).
    assert (nd' = nd) by congruence. subst nd'.
    destruct (M j nd ltac:(lia) G) as ([T N E C D] & _).
    assert (Hl := L j nd ltac:(lia) G).
    rewrite <- (bo_id Oj). repeat split; auto.
    destruct (Nat.eqb_spec j 1) as [->|_]; [|exact Hl].
    assert (nd = rootNode) by congruence. subst nd. rewrite Fr. exact Hl.
Qed.

Lemma computeTotals_fold (l : list (Node Num)) :
  forall a b,
    fold_left (fun fp n =>
                 if (tag n =? "Placemark")%string then (fst fp, S (snd fp))
                 else (S (fst fp), snd fp)) l (a, b)
    = (a + List.length
             (filter (fun n => negb (tag n =? "Placemark")%string) l),
       b + List.length (filter (fun n => (tag n =? "Placemark")%string) l)).
Proof.
  induction l as [|n r IH]; intros a b; simpl.
  - f_equal; lia.
  - destruct (tag n =? "Placemark")%string; simpl; rewrite IH; simpl;
      f_equal; lia.
Qed.

Lemma filter_map_length (A B : Type) (f : A -> B) (p : A -> bool)
      (q : B -> bool) (l : list A) :
  Forall (fun a => p a = q (f a)) l ->
  List.length (filter p l) = List.length (filter q (map f l)).
Proof.
  induction 1 as [|a r Ha _ IH]; simpl; [reflexivity|].
  rewrite <- Ha. destruct (p a); simpl; rewrite IH; reflexivity.
Qed.

(** X5.  On a freshly built tree [computeTotals] returns the number of feature
    elements of the document that are not placemarks and the number of its
    placemark elements. *)
Theorem computeTotals_counts_features (rootFeatureEl : Element Num) :
  computeTotals (built_nodesById (buildTreeFromKml rootFeatureEl))
  = (List.length (filter (fun e => negb (tagName e =? "Placemark")%string)
                         (features rootFeatureEl)),
     List.length (filter (fun e => (tagName e =? "Placemark")%string)
                         (features rootFeatureEl))).
Proof.
  destruct (built_values rootFeatureEl) as (V & T).
  unfold computeTotals. rewrite computeTotals_fold, <- V. simpl. f_equal.
  - apply filter_map_length. apply Forall_impl with (2 := T).
    intros nd ->. reflexivity.
  - apply filter_map_length. apply Forall_impl with (2 := T).
    intros nd ->. reflexivity.
Qed.

End BuiltDocument.

(* ------------------------------------------------------------------ *)
(** ** Placemark keys and the placemark index *)

Section BuiltKeys.

Context {Num : Type} {ops : JsNum Num}.
Implicit Types (m : NodeMap Num) (s : BuildState Num) (nd node : Node Num).

Lemma dedupe_acc_In (l : list string) :
  forall seen x, In x (dedupe_acc seen l) <-> In x l /\ ~ In x seen.
Proof.
  induction l as [|y r IH]; intros seen x; simpl; [tauto|].
  destruct (mem y seen) eqn:Em.
  - rewrite IH. apply mem_In in Em. split; [tauto|].
    intros [[->|H] Hn]; [contradiction | tauto].
  - assert (Hy : ~ In y seen) by (rewrite <- mem_In, Em; discriminate).
    simpl. rewrite IH. simpl.
    destruct (String.eqb_spec y x) as [->|ne]; [tauto|].
    split; [intros [E|(H & Hn)]; [contradiction | tauto]|].
    intros [[E|H] Hn]; [contradiction | tauto].
Qed.

Lemma dedupe_acc_NoDup (l : list string) :
  forall seen, NoDup (dedupe_acc seen l).
Proof.
  induction l as [|y r IH]; intros seen; simpl; [constructor|].
  destruct (mem y seen); [apply IH|].
  constructor; [|apply IH]. rewrite dedupe_acc_In. simpl. tauto.
Qed.

Lemma dedupe_In (l : list string) (x : string) : In x (dedupe l) <-> In x l.
Proof. unfold dedupe. rewrite dedupe_acc_In. simpl. tauto. Qed.

Lemma features_eq (el : Element Num) :
  features el = el :: flat_map (features (Num := Num)) (kidsOf el).
Proof.
  destruct el as [tg nm co kids]. unfold kidsOf, getChildFeatures.
  simpl. destruct (tg =? "Placemark")%string; [reflexivity|]. f_equal.
  induction kids as [|k r IH]; simpl; [reflexivity|].
  destruct (isFeatureTag (tagName k)) eqn:Ek; simpl; rewrite IH;
    reflexivity.
Qed.

Lemma filter_flat_map (A B : Type) (p : B -> bool) (f : A -> list B)
      (l : list A) :
  filter p (flat_map f l) = flat_map (fun a => filter p (f a)) l.
Proof.
  induction l as [|a r IH]; simpl; [reflexivity|].
  rewrite filter_app, IH. reflexivity.
Qed.

Lemma map_flat_map (A B C : Type) (g : B -> C) (f : A -> list B)
      (l : list A) :
  map g (flat_map f l) = flat_map (fun a => map g (f a)) l.
Proof.
  induction l as [|a r IH]; simpl; [reflexivity|].
  rewrite map_app, IH. reflexivity.
Qed.

Lemma placemarksOf_folder (el : Element Num) :
  tagName el <> "Placemark" ->
  placemarksOf el = flat_map (placemarksOf (Num := Num)) (kidsOf el).
Proof.
  intros Ht. unfold placemarksOf at 1. rewrite features_eq. simpl.
  destruct (String.eqb_spec (tagName el) "Placemark"); [contradiction|].
  apply filter_flat_map.
Qed.

Lemma placemarksOf_leaf (el : Element Num) :
  tagName el = "Placemark" -> placemarksOf el = [el].
Proof.
  intros Ht. unfold placemarksOf. rewrite features_eq. unfold kidsOf.
  rewrite Ht. simpl. rewrite Ht. reflexivity.
Qed.

(** *** The keys of a node *)

Lemma buildChildren_keys
      (build : Element Num -> list string -> BuildState Num ->
               BuildState Num * Node Num)
      (pathNames : list string) (kids : list (Element Num)) :
  Forall (fun c => forall p s s' nd,
              build c p s = (s', nd) ->
              forall k, In k (placemarkKeys nd) <-> In k (keysBelow c))
         kids ->
  forall s node s' node',
    buildChildren build pathNames kids s node = (s', node') ->
    featureEl node' = featureEl node /\
    forall k, In k (placemarkKeys node') <->
              In k (placemarkKeys node) \/
              In k (flat_map (keysBelow (Num := Num))
                             (filter (fun c => isFeatureTag (tagName c))
                                     kids)).
Proof.
  induction 1 as [|c r Hc _ IH]; simpl; intros s node s' node' E.
  - injection E as <- <-. split; [reflexivity|]. tauto.
  - destruct (isFeatureTag (tagName c)); [|exact (IH _ _ _ _ E)].
    destruct (build c _ s) as [s1 childNode] eqn:Eb.
    destruct (IH _ _ _ _ E) as (Ef & Hk). split; [exact Ef|].
    intros k. rewrite Hk. simpl. rewrite !in_app_iff, (Hc _ _ _ _ Eb k).
    tauto.
Qed.

Lemma buildNode_keys (el : Element Num) :
  forall (parent : option string) (pathNames : list string) s s' nd,
    buildNode el parent pathNames s = (s', nd) ->
    featureEl nd = el /\
    NoDup (placemarkKeys nd) /\
    forall k, In k (placemarkKeys nd) <-> In k (keysBelow el).
Proof.
  induction el as [tg nm co kids IH] using Element_nested_ind.
  intros parent pathNames s s' nd E.
  rewrite buildNode_eq in E. cbv zeta in E.
  set (el := mkElement tg nm co kids) in *.
  unfold keysBelow.
  destruct (String.eqb_spec tg "Placemark") as [Et|Et].
  - injection E as <- <-. simpl. split; [reflexivity|].
    rewrite placemarksOf_leaf by exact Et. simpl.
    split; [repeat constructor; intros []|]. intros k. reflexivity.
  - destruct (buildChildren _ pathNames kids _ _) as [s2 node2] eqn:Ec.
    injection E as <- <-.
    apply buildChildren_keys in Ec.
    + destruct Ec as (Ef & Hk). simpl in Ef, Hk.
      rewrite placemarksOf_folder by exact Et.
      assert (Hk' : forall k, In k (placemarkKeys node2) <->
                              In k (map keyOfPlacemark
                                      (flat_map (placemarksOf (Num := Num))
                                                (kidsOf el)))).
      { intros k. rewrite Hk. unfold kidsOf, getChildFeatures. simpl.
        destruct (String.eqb_spec tg "Placemark"); [contradiction|].
        rewrite map_flat_map. unfold keysBelow. simpl. tauto. }
      destruct (Nat.ltb 1 (List.length (placemarkKeys node2))) eqn:El.
      * simpl. split; [exact Ef|]. split; [apply dedupe_acc_NoDup|].
        intros k. rewrite dedupe_In. apply Hk'.
      * split; [exact Ef|]. split; [|exact Hk'].
        apply Nat.ltb_ge in El.
        destruct (placemarkKeys node2) as [|a [|b t]];
          [constructor | repeat constructor; intros [] | simpl in El; lia].
    + apply Forall_impl with (2 := IH).
      intros c Hc p sa sb ndc Eq. exact (proj2 (proj2 (Hc _ _ _ _ _ Eq))).
Qed.

(** *** Every node of the arena is one that [buildNode] returned *)

Lemma buildChildren_returned
      (build : Element Num -> list string -> BuildState Num ->
               BuildState Num * Node Num)
      (P : Node Num -> Prop)
      (tg : string) (parent : option string) (s0 : BuildState Num)
      (pathNames : list string) (kids : list (Element Num)) :
  1 <= b_next s0 -> tg <> "Placemark" ->
  Forall (fun c => forall p s s' nd,
              1 <= b_next s -> arena_seq (b_nodes s) (b_next s) ->
              build c p s = (s', nd) ->
              build_post (tagName c) (Some (nodeIdOf (b_next s0))) s s' nd /\
              forall j x, b_next s <= j < b_next s' ->
                          JsMap.get (b_nodes s') (nodeIdOf j) = Some x -> P x)
         kids ->
  forall s node s' node',
    build_post tg parent s0 s node ->
    (forall j x, b_next s0 < j < b_next s ->
                 JsMap.get (b_nodes s) (nodeIdOf j) = Some x -> P x) ->
    buildChildren build pathNames kids s node = (s', node') ->
    build_post tg parent s0 s' node' /\
    (forall j x, b_next s0 < j < b_next s' ->
                 JsMap.get (b_nodes s') (nodeIdOf j) = Some x -> P x).
Proof.
  intros H1 Htg HF. induction HF as [|c r Hc _ IH]; simpl;
    intros s node s' node' Hpost Hin E.
  - injection E as <- <-. auto.
  - destruct (isFeatureTag (tagName c)); [|exact (IH _ _ _ _ Hpost Hin E)].
    destruct (build c _ s) as [s1 childNode] eqn:Eb.
    assert (Hs : 1 <= b_next s) by (pose proof (bp_next Hpost); lia).
    destruct (Hc _ _ _ _ Hs (bp_seq Hpost) Eb) as (Pc & Mc).
    eapply IH; [| | exact E].
    + eapply block_add_child; eassumption.
    + simpl. intros j x Hj G.
      assert (Ei : id node = nodeIdOf (b_next s0)).
      { destruct (bp_block Hpost (j := b_next s0)) as (y & Gy & Oy);
          [destruct Hpost; lia|].
        rewrite (bp_node Hpost) in Gy. injection Gy as <-. exact (bo_id Oy). }
      rewrite Ei, get_set_id in G by lia.
      destruct (Nat.lt_ge_cases j (b_next s)) as [Hlt|Hge].
      * rewrite (bp_frame Pc) in G by exact Hlt. apply (Hin j x); [lia|exact G].
      * apply (Mc j x); [lia | exact G].
Qed.

Lemma buildNode_returned (P : Node Num -> Prop) :
  (forall el parent pathNames s s' nd,
      buildNode el parent pathNames s = (s', nd) -> P nd) ->
  forall (el : Element Num) (parent : option string)
         (pathNames : list string) s s' nd,
    1 <= b_next s -> arena_seq (b_nodes s) (b_next s) ->
    buildNode el parent pathNames s = (s', nd) ->
    forall j x, b_next s <= j < b_next s' ->
                JsMap.get (b_nodes s') (nodeIdOf j) = Some x -> P x.
Proof.
  intros HP el.
  induction el as [tg nm co kids IH] using Element_nested_ind.
  intros parent pathNames s s' nd H1 Hs E.
  assert (Pn : P nd) by exact (HP _ _ _ _ _ _ E).
  assert (Post : build_post tg parent s s' nd)
    by (eapply (buildNode_post (mkElement tg nm co kids)); eassumption).
  intros j x Hj G.
  destruct (Nat.eq_dec j (b_next s)) as [->|nej].
  { rewrite (bp_node Post) in G. injection G as <-. exact Pn. }
  revert j x Hj nej G.
  rewrite buildNode_eq in E. cbv zeta in E.
  set (el := mkElement tg nm co kids) in *.
  set (id0 := nodeIdOf (b_next s)) in *.
  set (node := mkNode id0 parent (getFeatureName el) tg el [] true false
                 (negb (tg =? "Placemark")%string) []) in *.
  assert (P1 : build_post tg parent s
                 (mkBuild (S (b_next s)) (JsMap.set (b_nodes s) id0 node)
                          (b_index s)) node)
    by (apply build_post_start; auto).
  destruct (String.eqb_spec tg "Placemark") as [Et|Et].
  - injection E as <- <-. simpl. intros j x Hj nej G. lia.
  - destruct (buildChildren _ pathNames kids _ node) as [s2 node2] eqn:Ec.
    injection E as <- <-. simpl.
    assert (PM : build_post tg parent s s2 node2 /\
                 (forall j x, b_next s < j < b_next s2 ->
                              JsMap.get (b_nodes s2) (nodeIdOf j) = Some x ->
                              P x)).
    { eapply buildChildren_returned;
        [exact H1 | exact Et | | exact P1 | | exact Ec].
      - apply Forall_impl with (2 := IH).
        intros c Hc p sa sb ndc Ha Hq Eq. split.
        + eapply buildNode_post; eassumption.
        + eapply Hc; eassumption.
      - simpl. intros j x Hj. lia. }
    destruct PM as (P2 & M2).
    intros j x Hj nej G. unfold id0 in G.
    rewrite get_set_id in G by exact nej.
    apply (M2 j x); [lia | exact G].
Qed.
(** *** The index *)

Lemma find_app (A : Type) (p : A -> bool) (l1 l2 : list A) :
  find p (l1 ++ l2)
  = match find p l1 with Some x => Some x | None => find p l2 end.
Proof.
  induction l1 as [|a r IH]; simpl; [reflexivity|].
  destruct (p a); [reflexivity | exact IH].
Qed.

Lemma buildChildren_index
      (build : Element Num -> list string -> BuildState Num ->
               BuildState Num * Node Num)
      (pathNames : list string) (kids : list (Element Num)) (k : string) :
  Forall (fun c => forall p s s' nd,
              build c p s = (s', nd) ->
              option_map (placemarkEl (Num := Num))
                         (JsMap.get (b_index s') k)
              = match lastWithKey k c with
                | Some e => Some e
                | None => option_map (placemarkEl (Num := Num))
                                     (JsMap.get (b_index s) k)
                end)
         kids ->
  forall s node s' node',
    buildChildren build pathNames kids s node = (s', node') ->
    option_map (placemarkEl (Num := Num)) (JsMap.get (b_index s') k)
    = match find (fun e => (keyOfPlacemark e =? k)%string)
                 (rev (flat_map (placemarksOf (Num := Num))
                                (filter (fun c => isFeatureTag (tagName c))
                                        kids))) with
      | Some e => Some e
      | None => option_map (placemarkEl (Num := Num))
                           (JsMap.get (b_index s) k)
      end.
Proof.
  induction 1 as [|c r Hc _ IH]; simpl; intros s node s' node' E.
  - injection E as <- <-. reflexivity.
  - destruct (isFeatureTag (tagName c)); [|exact (IH _ _ _ _ E)].
    destruct (build c _ s) as [s1 childNode] eqn:Eb.
    rewrite (IH _ _ _ _ E). simpl. rewrite rev_app_distr, find_app.
    destruct (find _ (rev (flat_map _ _))); [reflexivity|].
    exact (Hc _ _ _ _ Eb).
Qed.

Lemma buildNode_index (k : string) (el : Element Num) :
  forall (parent : option string) (pathNames : list string) s s' nd,
    buildNode el parent pathNames s = (s', nd) ->
    option_map (placemarkEl (Num := Num)) (JsMap.get (b_index s') k)
    = match lastWithKey k el with
      | Some e => Some e
      | None => option_map (placemarkEl (Num := Num))
                           (JsMap.get (b_index s) k)
      end.
Proof.
  induction el as [tg nm co kids IH] using Element_nested_ind.
  intros parent pathNames s s' nd E.
  rewrite buildNode_eq in E. cbv zeta in E.
  set (el := mkElement tg nm co kids) in *.
  unfold lastWithKey.
  destruct (String.eqb_spec tg "Placemark") as [Et|Et].
  - injection E as <- <-. rewrite placemarksOf_leaf by exact Et. simpl.
    change (placemarkKey (getFeatureName el)
              (option_map (lon (Num := Num)) (firstCoordFromPlacemark el))
              (option_map (lat (Num := Num)) (firstCoordFromPlacemark el)))
      with (keyOfPlacemark el).
    destruct (String.eqb_spec (keyOfPlacemark el) k) as [<-|ne].
    + rewrite get_set_same. reflexivity.
    + rewrite get_set_other by (intros H; apply ne; symmetry; exact H).
      reflexivity.
  - destruct (buildChildren _ pathNames kids _ _) as [s2 node2] eqn:Ec.
    injection E as <- <-. simpl.
    rewrite placemarksOf_folder by exact Et.
    apply buildChildren_index with (k := k) in Ec.
    + rewrite Ec. unfold kidsOf, getChildFeatures. simpl.
      destruct (String.eqb_spec tg "Placemark"); [contradiction|].
      reflexivity.
    + apply Forall_impl with (2 := IH).
      intros c Hc p sa sb ndc Eq. exact (Hc _ _ _ _ _ Eq).
Qed.

(** X6.  In the tree that [buildTreeFromKml] returns, the [placemarkKeys] of
    every node are, without repetition, exactly the keys of the placemark
    elements at or below the element of the node. *)
Theorem placemarkKeys_are_the_keys_below (rootFeatureEl : Element Num) :
  Forall (fun nd =>
            NoDup (placemarkKeys nd) /\
            forall k, In k (placemarkKeys nd) <->
                      In k (keysBelow (featureEl nd)))
         (JsMap.values (built_nodesById (buildTreeFromKml rootFeatureEl))).
Proof.
  unfold buildTreeFromKml.
  destruct (buildNode rootFeatureEl None [getFeatureName rootFeatureEl]
                      (mkBuild 1 JsMap.empty JsMap.empty))
    as [s rootNode] eqn:E.
  simpl. apply Forall_forall. intros nd Hin.
  assert (H1 : 1 <= b_next (mkBuild (Num := Num) 1 JsMap.empty JsMap.empty))
    by (simpl; lia).
  assert (Hs : arena_seq (b_nodes (mkBuild (Num := Num) 1 JsMap.empty
                                           JsMap.empty)) 1)
    by reflexivity.
  assert (P : build_post (tagName rootFeatureEl) None
                         (mkBuild 1 JsMap.empty JsMap.empty) s rootNode)
    by (eapply buildNode_post; eassumption).
  unfold JsMap.values in Hin.
  apply in_map_iff in Hin. destruct Hin as ([k x] & <- & Hin).
  apply In_nth_error in Hin. destruct Hin as (i & En).
  destruct (arena_seq_nth _ _ _ _ _ (bp_seq P) En) as (-> & Hi & G).
  refine (buildNode_returned
            (fun nd => NoDup (placemarkKeys nd) /\
                       forall k, In k (placemarkKeys nd) <->
                                 In k (keysBelow (featureEl nd)))
            _ _ _ _ _ _ _ H1 Hs E (1 + i) x _ G); [|simpl; lia].
  intros el parent pathNames sa sb y Ey.
  destruct (buildNode_keys _ _ _ _ _ _ Ey) as (-> & Hn & Hk). auto.
Qed.

(** X7.  The placemark index that [buildTreeFromKml] returns holds, under each
    key, the last placemark element of the document (in document order)
    with that key: a later placemark replaces an earlier one with the same
    key.  So the keys of the index are exactly the keys of the placemark
    elements of the document. *)
Theorem placemarkIndex_keeps_last_placemark (rootFeatureEl : Element Num) :
  let idx := built_placemarkIndex (buildTreeFromKml rootFeatureEl) in
  (forall k, option_map (placemarkEl (Num := Num)) (JsMap.get idx k)
             = lastWithKey k rootFeatureEl) /\
  (forall k, In k (JsMap.keys idx) <-> In k (keysBelow rootFeatureEl)).
Proof.
  assert (H : forall k,
             option_map (placemarkEl (Num := Num))
               (JsMap.get (built_placemarkIndex
                             (buildTreeFromKml rootFeatureEl)) k)
             = lastWithKey k rootFeatureEl).
  { intros k. unfold buildTreeFromKml.
    destruct (buildNode rootFeatureEl None [getFeatureName rootFeatureEl]
                        (mkBuild 1 JsMap.empty JsMap.empty))
      as [s rootNode] eqn:E.
    simpl. rewrite (buildNode_index k _ _ _ _ _ _ E). simpl.
    destruct (lastWithKey k rootFeatureEl); reflexivity. }
  split; [exact H|]. intros k. specialize (H k).
  unfold lastWithKey in H. unfold keysBelow. rewrite in_map_iff. split.
  - intros Hin.
    destruct (JsMap.get (built_placemarkIndex
                           (buildTreeFromKml rootFeatureEl)) k)
      as [info|] eqn:G.
    + simpl in H. symmetry in H. apply find_some in H.
      destruct H as (Hi & Hk). exists (placemarkEl info).
      apply String.eqb_eq in Hk. split; [exact Hk|].
      apply in_rev. exact Hi.
    + exfalso. apply get_None_keys in G. apply G. exact Hin.
  - intros (e & Ek & He).
    destruct (JsMap.get (built_placemarkIndex
                           (buildTreeFromKml rootFeatureEl)) k)
      as [info|] eqn:G.
    + exact (get_Some_keys _ _ G).
    + exfalso. simpl in H. symmetry in H.
      assert (Hf := find_none _ _ H e (proj1 (in_rev _ _) He)).
      simpl in Hf. apply String.eqb_neq in Hf. contradiction.
Qed.

End BuiltKeys.

(* ------------------------------------------------------------------ *)
(** ** The two indexes of the renderable collection *)

Section Grouping.

Variables (A V : Type) (keep : A -> bool) (key : A -> string) (val : A -> V).

(** The loop shared by [rebuildEntityIndex] and the pools of
    [rebuildPlacemarkToEntityMap]: [arr = m.get(key) || []], [arr.push(v)],
    [m.set(key, arr)]. *)
Lemma group_get (k : string) (l : list A) :
  forall idx : JsMap.t (list V),
    JsMap.get
      (fold_left (fun idx a =>
                    if keep a
                    then JsMap.set idx (key a) (getOrNil idx (key a) ++ [val a])
                    else idx) l idx) k
    = match map val (filter (fun a => keep a && (key a =? k)%string) l) with
      | [] => JsMap.get idx k
      | v :: r => Some (getOrNil idx k ++ v :: r)
      end.
Proof.
  induction l as [|a r IH]; intros idx; simpl; [reflexivity|].
  rewrite IH. destruct (keep a); simpl; [|reflexivity].
  destruct (String.eqb_spec (key a) k) as [<-|ne]; simpl.
  - destruct (map val _) as [|v t]; [apply get_set_same|].
    unfold getOrNil at 1. rewrite get_set_same, <- app_assoc. reflexivity.
  - unfold getOrNil. rewrite get_set_other by congruence. reflexivity.
Qed.

End Grouping.

Section Indexes.

Context {Num : Type} {ops : JsNum Num}.

Lemma indexEntities_get (ents : list (Entity Num)) (k : string) :
  JsMap.get (indexEntities ents) k = nonEmpty (withKey ents k).
Proof.
  unfold indexEntities, withKey.
  rewrite (group_get _ _ (fun _ => true) (fun he => entityKey (snd he))
                     (fun he : Handle * Entity Num => fst he) k).
  simpl. destruct (map _ _); reflexivity.
Qed.

Lemma poolsByName_get (ents : list (Entity Num)) (nm : string) :
  JsMap.get (poolsByName ents) nm = nonEmpty (poolOf ents nm).
Proof.
  unfold poolsByName, poolOf.
  rewrite (group_get _ _ (fun he => hasGeometry (snd he))
                     (fun he => trim (orEmpty (ent_name (snd he))))
                     (fun he : Handle * Entity Num =>
                        mkCandidate (fst he) (firstCoordFromEntity (snd he)))
                     nm).
  simpl. destruct (map _ _); reflexivity.
Qed.


Lemma withKey_In (ents : list (Entity Num)) (k : string) (h : Handle) :
  In h (withKey ents k) <->
  exists e, nth_error ents h = Some e /\ entityKey e = k.
Proof.
  unfold withKey. rewrite in_map_iff. split.
  - intros ([h' e] & <- & Hin). apply filter_In in Hin.
    destruct Hin as (Hin & Hk). apply handles_nth in Hin.
    exists e. split; [exact Hin | apply String.eqb_eq; exact Hk].
  - intros (e & Hn & Hk). exists (h, e). split; [reflexivity|].
    apply filter_In. split; [apply handles_nth; exact Hn|].
    apply String.eqb_eq. exact Hk.
Qed.

Lemma poolOf_In (ents : list (Entity Num)) (nm : string)
      (c : Candidate Num) :
  In c (poolOf ents nm) <->
  exists e, nth_error ents (entity c) = Some e /\
            coord c = firstCoordFromEntity e /\
            hasGeometry e = true /\ trim (orEmpty (ent_name e)) = nm.
Proof.
  unfold poolOf. rewrite in_map_iff. split.
  - intros ([h' e] & <- & Hin). apply filter_In in Hin.
    destruct Hin as (Hin & Hk). apply handles_nth in Hin.
    apply andb_true_iff in Hk. destruct Hk as (Hg & Hk).
    exists e. simpl. repeat split; auto. apply String.eqb_eq. exact Hk.
  - intros (e & Hn & Hc & Hg & Hk). exists (entity c, e). split.
    + destruct c as [h co]. simpl in *. rewrite Hc. reflexivity.
    + apply filter_In. split; [apply handles_nth; exact Hn|].
      apply andb_true_iff. split; [exact Hg | apply String.eqb_eq; exact Hk].
Qed.

Lemma nonEmpty_Some (X : Type) (l l' : list X) :
  nonEmpty l = Some l' -> l' = l /\ l <> [].
Proof.
  destruct l; simpl; [discriminate|]. intros [= <-]. split; congruence.
Qed.

End Indexes.

(* ------------------------------------------------------------------ *)
(** ** What the matching assigns *)

Section Matching.

Context {Num : Type} {ops : JsNum Num}.

Variable ents : list (Entity Num).

Lemma getOrNil_pools (nm : string) :
  getOrNil (poolsByName ents) nm = poolOf ents nm.
Proof.
  unfold getOrNil. rewrite poolsByName_get.
  destruct (poolOf ents nm); reflexivity.
Qed.

Lemma candidate_unused (pmCoord : option (Coord Num))
      (pool : list (Candidate Num)) (used : list string)
      (best : Candidate Num) :
  chooseBest pmCoord
    (filter (fun c => negb (mem (idOfHandle ents (entity c)) used)) pool)
  = Some best ->
  In best pool /\ ~ In (idOfHandle ents (entity best)) used.
Proof.
  intros H. apply chooseBest_In in H. apply filter_In in H.
  destruct H as (Hin & Hm). split; [exact Hin|].
  apply negb_true_iff in Hm. rewrite <- mem_In, Hm. discriminate.
Qed.

(** *** Every assigned entity matches its placemark *)

Lemma matchAll_matches (placemarkIndex : JsMap.t (PmInfo Num)) (k : string)
      (hs : list Handle) :
  JsMap.get (matchAll ents (indexEntities ents) placemarkIndex) k = Some hs ->
  hs <> [] /\
  exists info, In (k, info) placemarkIndex /\
               forall h, In h hs -> matches_placemark ents k info h.
Proof.
  unfold matchAll, JsMap.entries.
  set (Q := fun acc : JsMap.t (list Handle) * list string =>
              forall k hs, JsMap.get (fst acc) k = Some hs ->
                hs <> [] /\
                exists info, In (k, info) placemarkIndex /\
                             forall h, In h hs ->
                                       matches_placemark ents k info h).
  assert (HQ : Q (fold_left
                    (matchPlacemark ents (poolsByName ents)
                                    (indexEntities ents))
                    placemarkIndex (JsMap.empty, []))).
  { apply fold_left_inv; [|intros k' hs' G; discriminate].
    intros [result used] [pmKey info] Hin Hacc. unfold matchPlacemark.
    rewrite getOrNil_pools.
    destruct (chooseBest _ _) as [best|] eqn:Eb.
    - apply candidate_unused in Eb. destruct Eb as (Hb & _).
      apply poolOf_In in Hb. destruct Hb as (e & Hn & _ & Hg & Hnm).
      intros k' hs'. simpl.
      destruct (String.eqb_spec k' pmKey) as [->|ne].
      + rewrite get_set_same. intros [= <-]. split; [discriminate|].
        exists info. split; [exact Hin|]. intros h [<-|[]].
        exists e. split; [exact Hn|]. left. split; [exact Hg | exact Hnm].
      + rewrite get_set_other by exact ne. apply (Hacc k' hs').
    - destruct (JsMap.get (indexEntities ents) pmKey) as [[|h0 r]|] eqn:Ei;
        try exact Hacc.
      intros k' hs'. simpl.
      destruct (String.eqb_spec k' pmKey) as [->|ne].
      + rewrite get_set_same. intros [= <-]. split; [discriminate|].
        exists info. split; [exact Hin|]. intros h Hh.
        rewrite indexEntities_get in Ei. apply nonEmpty_Some in Ei.
        destruct Ei as (Ei & _). rewrite Ei in Hh. apply withKey_In in Hh.
        destruct Hh as (e & Hn & Hk). exists e. split; [exact Hn|].
        right. exact Hk.
      + rewrite get_set_other by exact ne. apply (Hacc k' hs'). }
  exact (HQ k hs).
Qed.

(** *** Two keys share an entity only through the exact-key fallback *)

Variable entityIndex : JsMap.t (list Handle).

Lemma sharing_step (result : JsMap.t (list Handle)) (used : list string)
      (pmKey : string) (info : PmInfo Num) :
  sharing_ok ents entityIndex (result, used) ->
  JsMap.get result pmKey = None ->
  sharing_ok ents entityIndex
             (matchPlacemark ents (poolsByName ents) entityIndex
                             (result, used) (pmKey, info)) /\
  forall k, k <> pmKey ->
            JsMap.get (fst (matchPlacemark ents (poolsByName ents) entityIndex
                                           (result, used) (pmKey, info))) k
            = JsMap.get result k.
Proof.
  intros (I1 & I2) Hnew. unfold matchPlacemark. simpl in I1, I2.
  destruct (chooseBest _ _) as [best|] eqn:Eb.
  - apply candidate_unused in Eb. destruct Eb as (_ & Hfresh).
    split; [|intros k ne; simpl; apply get_set_other; exact ne].
    split; simpl.
    + intros k l h. destruct (String.eqb_spec k pmKey) as [->|ne].
      * rewrite get_set_same. intros [= <-] [<-|[]].
        apply in_or_app. right. left. reflexivity.
      * rewrite get_set_other by exact ne. intros G Hh.
        apply in_or_app. left. exact (I1 _ _ _ G Hh).
    + intros k1 k2 l1 l2 h1 h2 ne.
      destruct (String.eqb_spec k1 pmKey) as [->|n1];
        destruct (String.eqb_spec k2 pmKey) as [->|n2];
        try contradiction.
      * rewrite get_set_same, get_set_other by exact n2.
        intros [= <-] G2 [<-|[]] H2 E. exfalso. apply Hfresh.
        rewrite E. exact (I1 _ _ _ G2 H2).
      * rewrite get_set_same, get_set_other by exact n1.
        intros G1 [= <-] H1 [<-|[]] E. exfalso. apply Hfresh.
        rewrite <- E. exact (I1 _ _ _ G1 H1).
      * rewrite !get_set_other by assumption. apply I2. exact ne.
  - destruct (JsMap.get entityIndex pmKey) as [[|h0 r]|] eqn:Ei;
      try (split; [split; assumption | reflexivity]).
    split; [|intros k ne; simpl; apply get_set_other; exact ne].
    split; simpl.
    + intros k l h. destruct (String.eqb_spec k pmKey) as [->|ne].
      * rewrite get_set_same. intros [= <-] Hh.
        apply in_or_app. right.
        apply (in_map (idOfHandle ents)) in Hh. exact Hh.
      * rewrite get_set_other by exact ne. intros G Hh.
        apply in_or_app. left. exact (I1 _ _ _ G Hh).
    + intros k1 k2 l1 l2 h1 h2 ne.
      destruct (String.eqb_spec k1 pmKey) as [->|n1];
        destruct (String.eqb_spec k2 pmKey) as [->|n2];
        try contradiction.
      * rewrite get_set_same. intros [= <-] _ _ _ _. left. exact Ei.
      * rewrite get_set_same, get_set_other by exact n1.
        intros _ [= <-] _ _ _. right. exact Ei.
      * rewrite !get_set_other by assumption. apply I2. exact ne.
Qed.

Lemma sharing_fold (l : list (string * PmInfo Num)) :
  forall acc,
    NoDup (map fst l) ->
    (forall k, In k (map fst l) -> JsMap.get (fst acc) k = None) ->
    sharing_ok ents entityIndex acc ->
    sharing_ok ents entityIndex
               (fold_left (matchPlacemark ents (poolsByName ents) entityIndex)
                          l acc).
Proof.
  induction l as [|[pmKey info] r IH]; intros [result used] Hnd Hdis Hok;
    simpl; [exact Hok|].
  inversion Hnd as [|? ? Hnotin Hnd']; subst.
  destruct (sharing_step result used pmKey info Hok)
    as (Hok' & Hfr); [apply Hdis; left; reflexivity|].
  apply IH; [exact Hnd' | | exact Hok'].
  intros k Hk. rewrite Hfr.
  - apply Hdis. right. exact Hk.
  - intros ->. apply Hnotin. exact Hk.
Qed.

End Matching.

Section Assignment.

Context {Num : Type} {ops : JsNum Num}.


(** X17. Every entity that the matching assigns to a placemark key stands in
    the collection and matches the placemark filed under that key: it has
    geometry and the trimmed name of the placemark (the name pools), or it
    has the exact key (the fallback). No key is given an empty list. *)
Theorem reconcile_assigns_matching_entities
        (placemarkIndex : JsMap.t (PmInfo Num)) (ents : list (Entity Num))
        (k : string) (hs : list Handle) :
  JsMap.get (reconcile placemarkIndex ents) k = Some hs ->
  hs <> [] /\
  exists info, In (k, info) placemarkIndex /\
               forall h, In h hs -> matches_placemark ents k info h.
Proof.
  unfold reconcile. destruct (JsMap.size placemarkIndex); [discriminate|].
  apply matchAll_matches.
Qed.

(** X18.  When the keys of the placemark index are distinct, two keys of the
    result hold entities with the same id only if one of the two entries is
    the entry of the exact index for its key, that is, was assigned by the
    fallback: the name pools alone never assign an entity twice. *)
Theorem shared_entity_only_by_fallback
        (ents : list (Entity Num)) (entityIndex : JsMap.t (list Handle))
        (placemarkIndex : JsMap.t (PmInfo Num))
        (k1 k2 : string) (l1 l2 : list Handle) (h1 h2 : Handle) :
  NoDup (JsMap.keys placemarkIndex) ->
  k1 <> k2 ->
  JsMap.get (matchAll ents entityIndex placemarkIndex) k1 = Some l1 ->
  JsMap.get (matchAll ents entityIndex placemarkIndex) k2 = Some l2 ->
  In h1 l1 -> In h2 l2 ->
  idOfHandle ents h1 = idOfHandle ents h2 ->
  JsMap.get entityIndex k1 = Some l1 \/ JsMap.get entityIndex k2 = Some l2.
Proof.
  intros Hnd ne G1 G2 H1 H2 E.
  assert (Hok : sharing_ok ents entityIndex
                  (fold_left (matchPlacemark ents (poolsByName ents)
                                             entityIndex)
                             placemarkIndex (JsMap.empty, []))).
  { apply sharing_fold; [exact Hnd | reflexivity|].
    split; simpl; intros; discriminate. }
  destruct Hok as (_ & I2). exact (I2 k1 k2 l1 l2 h1 h2 ne G1 G2 H1 H2 E).
Qed.

End Assignment.

(* ------------------------------------------------------------------ *)
(** ** The nearest candidate *)

Section Nearest.

Context {Num : Type} {ops : JsNum Num}.

(** [<] on numbers is irreflexive and transitive. *)
Hypothesis ltb_irrefl : forall x : Num, num_ltb x x = false.
Hypothesis ltb_trans : forall x y z : Num,
    num_ltb x y = true -> num_ltb y z = true -> num_ltb x z = true.

Lemma ltb_not_both (x y : Num) :
  num_ltb x y = true -> num_ltb y x = false.
Proof.
  intros H. destruct (num_ltb y x) eqn:E; [|reflexivity].
  rewrite <- (ltb_irrefl x). symmetry. exact (ltb_trans _ _ _ H E).
Qed.

Lemma ltb_below (x y z : Num) :
  num_ltb x z = false -> num_ltb y z = true -> num_ltb x y = false.
Proof.
  intros H1 H2. destruct (num_ltb x y) eqn:E; [|reflexivity].
  rewrite <- H1. symmetry. exact (ltb_trans _ _ _ E H2).
Qed.

Lemma nearest_None (pc : Coord Num) (l : list (Candidate Num)) :
  forall (d : Num) (best : option (Candidate Num)),
    nearest pc l d best = None ->
    best = None /\
    forall c cc, In c l -> coord c = Some cc ->
                 num_ltb (haversineMeters pc cc) d = false.
Proof.
  induction l as [|c r IH]; intros d best; simpl.
  - intros ->. split; [reflexivity | intros c cc []].
  - destruct (coord c) as [cc|] eqn:Ec.
    + destruct (num_ltb (haversineMeters pc cc) d) eqn:El; intros H.
      * apply IH in H. destruct H as (H & _). discriminate.
      * apply IH in H. destruct H as (Hb & Hr). split; [exact Hb|].
        intros c' cc' [<-|Hin] Hc'; [|exact (Hr _ _ Hin Hc')].
        rewrite Ec in Hc'. injection Hc' as <-. exact El.
    + intros H. apply IH in H. destruct H as (Hb & Hr). split; [exact Hb|].
      intros c' cc' [<-|Hin] Hc'; [congruence | exact (Hr _ _ Hin Hc')].
Qed.

Lemma nearest_Some (pc : Coord Num) (l : list (Candidate Num)) :
  forall (d : Num) (best : option (Candidate Num)) (b : Candidate Num),
    nearest pc l d best = Some b ->
    (forall b0, best = Some b0 ->
                exists c0, coord b0 = Some c0 /\ haversineMeters pc c0 = d) ->
    exists cb, coord b = Some cb /\
               ((In b l /\ num_ltb (haversineMeters pc cb) d = true) \/
                (best = Some b /\ haversineMeters pc cb = d)) /\
               forall c cc, In c l -> coord c = Some cc ->
                            num_ltb (haversineMeters pc cc)
                                    (haversineMeters pc cb) = false.
Proof.
  induction l as [|c r IH]; intros d best b; simpl.
  - intros -> Hb. destruct (Hb b eq_refl) as (c0 & Hc & Hd).
    exists c0. split; [exact Hc|]. split; [right; auto | intros ? ? []].
  - destruct (coord c) as [cc|] eqn:Ec.
    + destruct (num_ltb (haversineMeters pc cc) d) eqn:El; intros H Hb.
      * apply IH in H; [|intros b0 [= <-]; exists cc; auto].
        destruct H as (cb & Hcb & Hd & Hr). exists cb.
        split; [exact Hcb|]. split.
        -- left. destruct Hd as [(Hin & Hlt)|(Hs & He)].
           ++ split; [right; exact Hin | exact (ltb_trans _ _ _ Hlt El)].
           ++ injection Hs as <-. split; [left; reflexivity|].
              rewrite He. exact El.
        -- intros c' cc' [<-|Hin] Hc'; [|exact (Hr _ _ Hin Hc')].
           rewrite Ec in Hc'. injection Hc' as <-.
           destruct Hd as [(_ & Hlt)|(_ & He)].
           ++ apply ltb_not_both. exact Hlt.
           ++ rewrite He. apply ltb_irrefl.
      * apply IH in H; [|exact Hb].
        destruct H as (cb & Hcb & Hd & Hr). exists cb.
        split; [exact Hcb|]. split.
        -- destruct Hd as [(Hin & Hlt)|Hd]; [left | right; exact Hd].
           split; [right; exact Hin | exact Hlt].
        -- intros c' cc' [<-|Hin] Hc'; [|exact (Hr _ _ Hin Hc')].
           rewrite Ec in Hc'. injection Hc' as <-.
           destruct Hd as [(_ & Hlt)|(_ & He)].
           ++ exact (ltb_below _ _ _ El Hlt).
           ++ rewrite He. exact El.
    + intros H Hb. apply IH in H; [|exact Hb].
      destruct H as (cb & Hcb & Hd & Hr). exists cb.
      split; [exact Hcb|]. split.
      * destruct Hd as [(Hin & Hlt)|Hd]; [left | right; exact Hd].
        split; [right; exact Hin | exact Hlt].
      * intros c' cc' [<-|Hin] Hc'; [congruence | exact (Hr _ _ Hin Hc')].
Qed.

(** X19.  What [chooseBest] picks among the unused candidates of a name: nothing
    from an empty list; the only candidate of a list of one, wherever it
    lies; among several, nothing when the placemark has no coordinate, and
    otherwise a candidate whose distance to the placemark is below Infinity
    and such that no candidate is strictly closer, or, when no candidate has
    a distance below Infinity, the first candidate. *)
Theorem chooseBest_takes_the_nearest (pmCoord : option (Coord Num))
        (candidates : list (Candidate Num)) :
  match candidates with
  | [] => chooseBest pmCoord candidates = None
  | [c] => chooseBest pmCoord candidates = Some c
  | first :: _ :: _ =>
      match pmCoord with
      | None => chooseBest pmCoord candidates = None
      | Some pc =>
          exists b, chooseBest pmCoord candidates = Some b /\
            ((exists cb, In b candidates /\ coord b = Some cb /\
                         num_ltb (haversineMeters pc cb) num_infinity = true /\
                         forall c cc, In c candidates -> coord c = Some cc ->
                                      num_ltb (haversineMeters pc cc)
                                              (haversineMeters pc cb)
                                      = false) \/
             (b = first /\
              forall c cc, In c candidates -> coord c = Some cc ->
                           num_ltb (haversineMeters pc cc) num_infinity
                           = false))
      end
  end.
Proof.
  destruct candidates as [|c [|c2 r]]; [reflexivity | reflexivity|].
  destruct pmCoord as [pc|]; [|reflexivity].
  unfold chooseBest.
  destruct (nearest pc (c :: c2 :: r) num_infinity None) as [b|] eqn:En.
  - exists b. split; [reflexivity|]. left.
    apply nearest_Some in En; [|intros b0; discriminate].
    destruct En as (cb & Hcb & Hd & Hr). exists cb.
    destruct Hd as [(Hin & Hlt)|(Hs & _)]; [|discriminate]. auto.
  - exists c. split; [reflexivity|]. right. split; [reflexivity|].
    apply nearest_None in En. exact (proj2 En).
Qed.

End Nearest.

(* ------------------------------------------------------------------ *)
(** ** Every session of the page *)

Section Sessions.

Context {Num : Type} {ops : JsNum Num}.


















End Sessions.

(* ------------------------------------------------------------------ *)
(** ** The check boxes of the tree *)

Section CheckBoxes.

Context {Num : Type} {ops : JsNum Num}.
Implicit Types (m nodes : NodeMap Num) (nd : Node Num) (k : string).

Lemma applyVisibility_interacted (w w' : World Num) :
  applyVisibilityFromTree w = Some w' ->
  userHasInteracted (state w') = userHasInteracted (state w).
Proof.
  unfold applyVisibilityFromTree.
  destruct (kmlDataSource w); [|intros [= <-]; reflexivity].
  destruct (enabledKeysOf (nodesById (state w))); simpl; [|discriminate].
  destruct (ensureMapping_frame w) as (_ & _ & _ & _ & Ei).
  destruct (JsMap.size (placemarkToEntity (state (ensureMapping w))));
    intros [= <-]; simpl; exact Ei.
Qed.

Lemma desc_comes_after m (k x : string) :
  arena_wf m -> desc_or_self m k x -> x = k \/ comes_before m k x.
Proof.
  intros W D. induction D as [a|a nd c x G i D IH]; [left; reflexivity|].
  right. assert (Hc := child_comes_after m a nd c W G i).
  destruct IH as [->|Hx]; [exact Hc|].
  exact (comes_before_trans m a c x W Hc Hx).
Qed.

(** A node at or below [k] is not at or above the parent of [k]. *)
Lemma desc_not_above m k nd (p x : string) :
  arena_wf m -> JsMap.get m k = Some nd -> parentId nd = Some p ->
  desc_or_self m k x -> ~ anc_or_self m p x.
Proof.
  intros W G Ep D A.
  assert (Hpk := parent_comes_before m k nd p W G Ep).
  assert (Hxk : comes_before m x k).
  { destruct (anc_comes_before m p x W A) as [->|Hxp]; [exact Hpk|].
    exact (comes_before_trans m x p k W Hxp Hpk). }
  destruct (desc_comes_after m k x W D) as [->|Hkx].
  - exact (comes_before_neq m k k W Hxk eq_refl).
  - exact (comes_before_asym m x k W Hxk Hkx).
Qed.

(** X13.  Ticking or unticking the box of a node of a built tree returns.  It
    gives the node and every node below it the new value with no mixed
    mark, leaves every node that is neither below nor above it as it was,
    and leaves each node above it with the flags that its children, as they
    then are, call for; the session is marked as interacted with. *)
Theorem toggleChecked_sets_subtree_and_settles_ancestors
        (w : World Num) (nodeId : string) (value : bool) (node : Node Num) :
  session_wf (state w) ->
  nodeId <> "" ->
  JsMap.get (nodesById (state w)) nodeId = Some node ->
  exists w',
    toggleChecked w nodeId value = Some w' /\
    userHasInteracted (state w') = true /\
    (forall x nx,
        desc_or_self (nodesById (state w)) nodeId x ->
        JsMap.get (nodesById (state w)) x = Some nx ->
        JsMap.get (nodesById (state w')) x
        = Some (with_toggle nx value false)) /\
    (forall x,
        ~ desc_or_self (nodesById (state w)) nodeId x ->
        ~ anc_or_self (nodesById (state w)) nodeId x ->
        JsMap.get (nodesById (state w')) x
        = JsMap.get (nodesById (state w)) x) /\
    (forall a na',
        anc_or_self (nodesById (state w)) nodeId a -> a <> nodeId ->
        JsMap.get (nodesById (state w')) a = Some na' ->
        match children na' with
        | [] => indeterminate na' = false
        | _ :: _ =>
            (checked na', indeterminate na')
            = classify (map (childState (nodesById (state w')))
                            (children na'))
        end).
Proof.
  intros S Hk G. assert (W := sw_arena S).
  set (m := nodesById (state w)) in *.
  unfold toggleChecked. rewrite (truthy_key Hk). fold m. rewrite G.
  destruct (setCheckedRecursive_effect m nodeId value W)
    as (m1 & E1 & K1 & H1).
  rewrite E1. simpl.
  assert (R1 : rel_map same_node m m1).
  { unfold setCheckedRecursive in E1.
    eapply setChecked_shape. exact E1. }
  assert (W1 : arena_wf m1) by exact (arena_wf_shape R1 W).
  rewrite (truthy_parent m nodeId node W G).
  assert (exists m2,
             match parentId node with
             | Some p => recomputeIndeterminateUp m1 p
             | None => Some m1
             end = Some m2 /\
             (forall x nx, desc_or_self m nodeId x -> JsMap.get m x = Some nx ->
                           JsMap.get m2 x
                           = Some (with_toggle nx value false)) /\
             (forall x, ~ desc_or_self m nodeId x ->
                        ~ anc_or_self m nodeId x ->
                        JsMap.get m2 x = JsMap.get m x) /\
             (forall a na', anc_or_self m nodeId a -> a <> nodeId ->
                            JsMap.get m2 a = Some na' ->
                            match children na' with
                            | [] => indeterminate na' = false
                            | _ :: _ =>
                                (checked na', indeterminate na')
                                = classify (map (childState m2) (children na'))
                            end))
    as (m2 & E2 & Hd & Ho & Ha).
  { destruct (parentId node) as [p|] eqn:Ep.
    - destruct (recomputeIndeterminateUp_effect m1 p W1)
        as (m2 & E2 & _ & Hoff & Hon).
      assert (Hanc : forall x, anc_or_self m1 p x -> anc_or_self m p x).
      { intros x A. apply anc_shape with (m := m1); [|exact A].
        apply rel_map_sym; [apply same_node_sym | exact R1]. }
      exists m2. split; [exact E2|]. split; [|split].
      + intros x nx D Gx. rewrite Hoff.
        * exact (proj1 (H1 x nx Gx) D).
        * intros A.
          exact (desc_not_above m nodeId node p x W G Ep D (Hanc x A)).
      + intros x Hnd Hna. rewrite Hoff.
        * destruct (JsMap.get m x) as [nx|] eqn:Gx.
          -- exact (proj2 (H1 x nx Gx) Hnd).
          -- apply get_None_keys. rewrite K1. apply get_None_keys. exact Gx.
        * intros A. apply Hna.
          eapply anc_up; [exact G | exact Ep | exact (Hanc x A)].
      + intros a na' A ne Ga. apply (Hon a na'); [|exact Ga].
        apply anc_shape with (m := m); [exact R1|].
        inversion A as [|? nd0 p0 ? G0 Ep0 A0]; subst; [contradiction|].
        assert (nd0 = node) by congruence. subst nd0.
        assert (p0 = p) by congruence. subst p0. exact A0.
    - exists m1. split; [reflexivity|]. split; [|split].
      + intros x nx D Gx. exact (proj1 (H1 x nx Gx) D).
      + intros x Hnd _. destruct (JsMap.get m x) as [nx|] eqn:Gx.
        * exact (proj2 (H1 x nx Gx) Hnd).
        * apply get_None_keys. rewrite K1. apply get_None_keys. exact Gx.
      + intros a na' A ne. exfalso.
        inversion A as [|? nd0 p0 ? G0 Ep0 A0]; subst; [contradiction|].
        congruence. }
  rewrite E2. simpl.
  set (w1 := with_state w (with_interacted (with_nodes (state w) m2) true)).
  assert (W2 : arena_wf (nodesById (state w1))).
  { simpl. destruct (parentId node) as [p|].
    - destruct (recomputeIndeterminateUp_effect m1 p W1)
        as (m2' & E2' & R2 & _).
      assert (m2' = m2) by congruence. subst m2'.
      exact (arena_wf_shape R2 W1).
    - injection E2 as <-. exact W1. }
  destruct (applyVisibility_total w1 W2) as (w' & Ev).
  destruct (applyVisibility_frame _ Ev) as (En & _).
  exists w'. split; [exact Ev|].
  rewrite (applyVisibility_interacted w1 w' Ev), En. simpl.
  split; [reflexivity|]. split; [exact Hd|]. split; [exact Ho | exact Ha].
Qed.

(** X14.  [checkAll] on a built tree returns and leaves every node checked with
    no mixed mark, whatever the toggle state was; nothing else of a node
    changes, and the session is marked as interacted with. *)
Theorem checkAll_checks_every_node (w : World Num) (rootId : string) :
  session_wf (state w) ->
  rootNodeId (state w) = Some rootId ->
  exists w',
    checkAll w = Some w' /\
    userHasInteracted (state w') = true /\
    JsMap.keys (nodesById (state w')) = JsMap.keys (nodesById (state w)) /\
    forall x nx,
      JsMap.get (nodesById (state w)) x = Some nx ->
      JsMap.get (nodesById (state w')) x = Some (with_toggle nx true false).
Proof.
  intros S Er. destruct (root_present S Er) as (Kr & root & Gr).
  assert (W := sw_arena S). unfold checkAll. rewrite Er, (truthy_key Kr).
  destruct (setCheckedRecursive_effect (nodesById (state w)) rootId true W)
    as (m1 & E1 & K1 & H1).
  rewrite E1. simpl.
  set (w1 := with_state w (with_interacted (with_nodes (state w) m1) true)).
  assert (W1 : arena_wf (nodesById (state w1))).
  { simpl. unfold setCheckedRecursive in E1.
    eapply arena_wf_shape; [eapply setChecked_shape; exact E1 | exact W]. }
  destruct (applyVisibility_total w1 W1) as (w' & Ev).
  destruct (applyVisibility_frame _ Ev) as (En & _).
  exists w'. split; [exact Ev|].
  rewrite (applyVisibility_interacted w1 w' Ev), En. simpl.
  split; [reflexivity|]. split; [exact K1|].
  intros x nx G. apply (proj1 (H1 x nx G)).
  apply root_reaches_all; [exact W | |].
  - rewrite <- (sw_root S). exact Er.
  - apply get_Some_keys with (v := nx). exact G.
Qed.

End CheckBoxes.

Set Implicit Arguments.

(* ------------------------------------------------------------------ *)
(** ** The properties on the sample documents *)

Import Sample.




(** C4 on the two-sites tree. *)
Lemma getEffectiveChecked_iff_chain_checked_witness :
  arena_wfb (nodesById (state twoSitesWorld)) = true /\
  exists b, getEffectiveChecked (nodesById (state twoSitesWorld)) "n3"
            = Some b /\
            (b = true <->
             forall a, anc_or_self (nodesById (state twoSitesWorld)) "n3" a ->
                       exists na,
                         JsMap.get (nodesById (state twoSitesWorld)) a
                         = Some na /\ checked na = true).
Proof.
  split; [reflexivity|].
  apply getEffectiveChecked_iff_chain_checked.
  apply arena_wfb_sound. vm_compute. reflexivity.
Defined.

(** C5 refuted: on a document whose root has no feature, [uncheckAll]
    leaves the root indeterminate without a child. *)
Lemma childless_root_left_indeterminate :
  exists w' nd,
    runOps (sessionOf emptyDocument JsMap.empty None false false)
           [OpUncheckAll] = Some w' /\
    JsMap.get (nodesById (state w')) "n1" = Some nd /\
    indeterminate nd = true /\ children nd = [] /\
    ~ tri_state_ok nd.
Proof.
  eexists. eexists.
  split; [vm_compute; reflexivity|].
  split; [vm_compute; reflexivity|].
  split; [reflexivity|]. split; [reflexivity|].
  intros H. destruct (H eq_refl) as (_ & _ & Hc). apply Hc. reflexivity.
Qed.

(** C5 on the two-sites session. *)
Lemma tri_state_kept_but_root_witness :
  (session_wfb (state twoSitesWorld) = true /\
   freshb (nodesById (state twoSitesWorld)) = true) /\
  exists w',
    runOps twoSitesWorld
           [OpUncheckAll; OpSetCheckedRecursive "n3" true;
            OpRecomputeIndeterminateUp "n2"] = Some w' /\
    forall k nd,
      JsMap.get (nodesById (state w')) k = Some nd ->
      indeterminate nd = true ->
      checked nd = true /\ tag nd <> "Placemark" /\
      (children nd <> [] \/ rootNodeId (state w') = Some k).
Proof.
  split; [split; reflexivity|].
  apply tri_state_kept_but_root.
  - apply session_wfb_sound. vm_compute. reflexivity.
  - apply freshb_sound. vm_compute. reflexivity.
Defined.

(** C6 on the two-sites session. *)
Lemma uncheckAll_leaves_root_mixed_witness :
  (session_wfb (state twoSitesWorld) = true /\
   rootNodeId (state twoSitesWorld) = Some "n1") /\
  exists w',
    uncheckAll twoSitesWorld = Some w' /\
    JsMap.keys (nodesById (state w'))
    = JsMap.keys (nodesById (state twoSitesWorld)) /\
    forall k nd,
      JsMap.get (nodesById (state w')) k = Some nd ->
      if (k =? "n1")%string
      then checked nd = true /\ indeterminate nd = true
      else checked nd = false /\ indeterminate nd = false.
Proof.
  split; [split; reflexivity|].
  apply uncheckAll_leaves_root_mixed.
  - apply session_wfb_sound. vm_compute. reflexivity.
  - reflexivity.
Defined.

(** C7.  With the hide-labels box ticked, a load and a further run of the
    projection leave the labels of both entities shown: the placemark index
    of the session is never filled, so the map stays empty and the
    projection returns before it reaches the labels. *)
Lemma labels_untouched_when_map_is_empty :
  exists w1 w2,
    loadKml (freshWorld true) twoSitesFile = Some (w1, Loaded) /\
    applyVisibilityFromTree w1 = Some w2 /\
    hideLabels w2 = true /\
    placemarkToEntity (state w2) = [] /\
    option_map (map (@ent_label GridNum)) (kmlDataSource w2)
    = Some [Some true; Some true].
Proof.
  eexists. eexists.
  split; [vm_compute; reflexivity|].
  split; [vm_compute; reflexivity|].
  repeat split.
Qed.

(** C8 refuted: the only entity of [bareOnlyEntities] has no geometry, and
    the placemark gets it from the exact index. *)
Lemma bare_instance_assigned_by_fallback :
  exists e,
    nth_error bareOnlyEntities 0 = Some e /\ hasGeometry e = false /\
    JsMap.get (poolsByName bareOnlyEntities) "Site" = None /\
    JsMap.get (indexEntities bareOnlyEntities) "Site" = Some [0] /\
    reconcile (built_placemarkIndex (buildTreeFromKml bareOnly))
              bareOnlyEntities = [("Site", [0])].
Proof.
  eexists. split; [reflexivity|]. repeat split.
Qed.

(** C9 on the two-sites tree. *)
Lemma absent_node_inert_witness :
  JsMap.get (nodesById (state twoSitesWorld)) "n9" = None /\
  (setCheckedRecursive (nodesById (state twoSitesWorld)) "n9" false
   = Some (nodesById (state twoSitesWorld)) /\
   setExpandedRecursive (nodesById (state twoSitesWorld)) "n9" false
   = Some (nodesById (state twoSitesWorld)) /\
   recomputeIndeterminateUp (nodesById (state twoSitesWorld)) "n9"
   = Some (nodesById (state twoSitesWorld)) /\
   getEffectiveChecked (nodesById (state twoSitesWorld)) "n9" = Some false).
Proof.
  split; [reflexivity|].
  apply absent_node_inert. reflexivity.
Defined.



(** C8 on the placemark without geometry. *)
Lemma fallback_index_is_unfiltered_witness :
  In 0 (getOrNil (indexEntities bareOnlyEntities)
                 (entityKey (bareEntity "e1" "Site"))) /\
  JsMap.get (indexEntities bareOnlyEntities) "Site" = Some [0].
Proof.
  destruct (fallback_index_is_unfiltered bareOnlyEntities
              (built_placemarkIndex (buildTreeFromKml bareOnly)))
    as (_ & Hidx & Hres).
  split.
  - apply (Hidx 0 (bareEntity "e1" "Site")). reflexivity.
  - apply (Hres "Site" [0] 0 (bareEntity "e1" "Site"));
      [reflexivity | simpl; auto | reflexivity | reflexivity].
Defined.

(* ------------------------------------------------------------------ *)
(** ** The further properties on the sample documents *)

Lemma grid_ltb_irrefl (x : GridNum) : num_ltb x x = false.
Proof. destruct x; simpl; [apply Z.ltb_irrefl | reflexivity | reflexivity]. Qed.

Lemma grid_ltb_trans (x y z : GridNum) :
  num_ltb x y = true -> num_ltb y z = true -> num_ltb x z = true.
Proof.
  destruct x, y, z; simpl; try discriminate; try reflexivity.
  rewrite !Z.ltb_lt. lia.
Qed.

Lemma escapeText_injective_witness :
  escapeText (Some "a<b") = escapeText (Some "a<b") /\
  "a<b"%string = "a<b"%string.
Proof.
  split; [reflexivity|].
  apply (escapeText_injective "a<b" "a<b"). reflexivity.
Defined.

Lemma setCheckedRecursive_writes_exactly_the_subtree_witness :
  arena_wfb (nodesById (state twoSitesWorld)) = true /\
  exists nodes',
    setCheckedRecursive (nodesById (state twoSitesWorld)) "n2" false
    = Some nodes' /\
    JsMap.keys nodes' = JsMap.keys (nodesById (state twoSitesWorld)) /\
    forall x nx,
      JsMap.get (nodesById (state twoSitesWorld)) x = Some nx ->
      (desc_or_self (nodesById (state twoSitesWorld)) "n2" x ->
       JsMap.get nodes' x = Some (with_toggle nx false false)) /\
      (~ desc_or_self (nodesById (state twoSitesWorld)) "n2" x ->
       JsMap.get nodes' x = Some nx).
Proof.
  split; [reflexivity|].
  apply setCheckedRecursive_writes_exactly_the_subtree.
  apply arena_wfb_sound. vm_compute. reflexivity.
Defined.

Lemma recomputeIndeterminateUp_settles_the_chain_witness :
  arena_wfb (nodesById (state twoSitesWorld)) = true /\
  exists nodes',
    recomputeIndeterminateUp (nodesById (state twoSitesWorld)) "n2"
    = Some nodes' /\
    rel_map same_node (nodesById (state twoSitesWorld)) nodes' /\
    (forall x, ~ anc_or_self (nodesById (state twoSitesWorld)) "n2" x ->
               JsMap.get nodes' x
               = JsMap.get (nodesById (state twoSitesWorld)) x) /\
    (forall a na', anc_or_self (nodesById (state twoSitesWorld)) "n2" a ->
                   JsMap.get nodes' a = Some na' ->
                   match children na' with
                   | [] => indeterminate na' = false
                   | _ :: _ =>
                       (checked na', indeterminate na')
                       = classify (map (childState nodes') (children na'))
                   end).
Proof.
  split; [reflexivity|].
  apply recomputeIndeterminateUp_settles_the_chain.
  apply arena_wfb_sound. vm_compute. reflexivity.
Defined.

Lemma setExpandedRecursive_writes_folders_of_subtree_witness :
  arena_wfb (nodesById (state twoSitesWorld)) = true /\
  exists nodes',
    setExpandedRecursive (nodesById (state twoSitesWorld)) "n2" false
    = Some nodes' /\
    JsMap.keys nodes' = JsMap.keys (nodesById (state twoSitesWorld)) /\
    forall x nx,
      JsMap.get (nodesById (state twoSitesWorld)) x = Some nx ->
      (desc_or_self (nodesById (state twoSitesWorld)) "n2" x ->
       children nx <> [] ->
       JsMap.get nodes' x = Some (with_expanded nx false)) /\
      (~ desc_or_self (nodesById (state twoSitesWorld)) "n2" x \/
       children nx = [] ->
       JsMap.get nodes' x = Some nx).
Proof.
  split; [reflexivity|].
  apply setExpandedRecursive_writes_folders_of_subtree.
  apply arena_wfb_sound. vm_compute. reflexivity.
Defined.

Lemma collapseAll_keeps_root_open_witness :
  (session_wfb (state twoSitesWorld) = true /\
   rootNodeId (state twoSitesWorld) = Some "n1") /\
  exists w',
    collapseAll twoSitesWorld = Some w' /\
    kmlDataSource w' = kmlDataSource twoSitesWorld /\
    forall x nx,
      JsMap.get (nodesById (state twoSitesWorld)) x = Some nx ->
      JsMap.get (nodesById (state w')) x
      = Some (if (x =? "n1")%string then with_expanded nx true
              else match children nx with
                   | [] => nx
                   | _ :: _ => with_expanded nx false
                   end).
Proof.
  split; [split; reflexivity|].
  apply collapseAll_keeps_root_open.
  - apply session_wfb_sound. vm_compute. reflexivity.
  - reflexivity.
Defined.

Lemma subtreeMatches_iff_some_descendant_matches_witness :
  arena_wfb (nodesById (state twoSitesWorld)) = true /\
  exists b,
    subtreeMatches (nodesById (state twoSitesWorld)) "site" "n1" = Some b /\
    (b = true <->
     exists x nx, desc_or_self (nodesById (state twoSitesWorld)) "n1" x /\
                  JsMap.get (nodesById (state twoSitesWorld)) x = Some nx /\
                  matchesFilter "site" nx = true) /\
    (trim "site" = EmptyString ->
     JsMap.get (nodesById (state twoSitesWorld)) "n1" <> None -> b = true).
Proof.
  split; [reflexivity|].
  apply subtreeMatches_iff_some_descendant_matches.
  apply arena_wfb_sound. vm_compute. reflexivity.
Defined.

Lemma toggleChecked_sets_subtree_and_settles_ancestors_witness :
  session_wfb (state twoSitesWorld) = true /\
  exists w',
    toggleChecked twoSitesWorld "n3" false = Some w' /\
    userHasInteracted (state w') = true /\
    (forall x nx,
        desc_or_self (nodesById (state twoSitesWorld)) "n3" x ->
        JsMap.get (nodesById (state twoSitesWorld)) x = Some nx ->
        JsMap.get (nodesById (state w')) x
        = Some (with_toggle nx false false)) /\
    (forall x,
        ~ desc_or_self (nodesById (state twoSitesWorld)) "n3" x ->
        ~ anc_or_self (nodesById (state twoSitesWorld)) "n3" x ->
        JsMap.get (nodesById (state w')) x
        = JsMap.get (nodesById (state twoSitesWorld)) x) /\
    (forall a na',
        anc_or_self (nodesById (state twoSitesWorld)) "n3" a -> a <> "n3" ->
        JsMap.get (nodesById (state w')) a = Some na' ->
        match children na' with
        | [] => indeterminate na' = false
        | _ :: _ =>
            (checked na', indeterminate na')
            = classify (map (childState (nodesById (state w')))
                            (children na'))
        end).
Proof.
  split; [reflexivity|].
  destruct (JsMap.get (nodesById (state twoSitesWorld)) "n3") as [node|]
    eqn:G; [|vm_compute in G; discriminate].
  apply (toggleChecked_sets_subtree_and_settles_ancestors
           twoSitesWorld "n3" false node).
  - apply session_wfb_sound. vm_compute. reflexivity.
  - discriminate.
  - exact G.
Defined.

Lemma checkAll_checks_every_node_witness :
  (session_wfb (state twoSitesWorld) = true /\
   rootNodeId (state twoSitesWorld) = Some "n1") /\
  exists w',
    checkAll twoSitesWorld = Some w' /\
    userHasInteracted (state w') = true /\
    JsMap.keys (nodesById (state w'))
    = JsMap.keys (nodesById (state twoSitesWorld)) /\
    forall x nx,
      JsMap.get (nodesById (state twoSitesWorld)) x = Some nx ->
      JsMap.get (nodesById (state w')) x = Some (with_toggle nx true false).
Proof.
  split; [split; reflexivity|].
  apply (checkAll_checks_every_node twoSitesWorld "n1").
  - apply session_wfb_sound. vm_compute. reflexivity.
  - reflexivity.
Defined.

Lemma reconcile_assigns_matching_entities_witness :
  JsMap.get (reconcile (built_placemarkIndex (buildTreeFromKml twoSites))
                       twoSiteEntities) "Site|-12200100,3700100"
  = Some [1] /\
  [1] <> [] /\
  exists info,
    In ("Site|-12200100,3700100"%string, info)
       (built_placemarkIndex (buildTreeFromKml twoSites)) /\
    forall h, In h [1] ->
              matches_placemark twoSiteEntities "Site|-12200100,3700100"
                                info h.
Proof.
  split; [reflexivity|].
  apply (reconcile_assigns_matching_entities
           (built_placemarkIndex (buildTreeFromKml twoSites))
           twoSiteEntities "Site|-12200100,3700100" [1]).
  reflexivity.
Defined.

Lemma shared_entity_only_by_fallback_witness :
  JsMap.get (matchAll bareAndPointEntities
                      (indexEntities bareAndPointEntities)
                      (built_placemarkIndex (buildTreeFromKml bareAndPoint)))
            "Site" = Some [1] /\
  JsMap.get (matchAll bareAndPointEntities
                      (indexEntities bareAndPointEntities)
                      (built_placemarkIndex (buildTreeFromKml bareAndPoint)))
            "Site|-12200100,3700100" = Some [1] /\
  (JsMap.get (indexEntities bareAndPointEntities) "Site" = Some [1] \/
   JsMap.get (indexEntities bareAndPointEntities) "Site|-12200100,3700100"
   = Some [1]).
Proof.
  split; [reflexivity|]. split; [reflexivity|].
  apply (shared_entity_only_by_fallback
           bareAndPointEntities (indexEntities bareAndPointEntities)
           (built_placemarkIndex (buildTreeFromKml bareAndPoint))
           "Site" "Site|-12200100,3700100" [1] [1] 1 1).
  - repeat constructor; simpl; intuition discriminate.
  - discriminate.
  - reflexivity.
  - reflexivity.
  - left. reflexivity.
  - left. reflexivity.
  - reflexivity.
Defined.

Lemma chooseBest_takes_the_nearest_witness :
  exists b,
    chooseBest (Some siteA) farAndNear = Some b /\
    ((exists cb, In b farAndNear /\ coord b = Some cb /\
                 num_ltb (haversineMeters siteA cb) num_infinity = true /\
                 forall c cc, In c farAndNear -> coord c = Some cc ->
                              num_ltb (haversineMeters siteA cc)
                                      (haversineMeters siteA cb) = false) \/
     (b = mkCandidate 0 (Some siteB) /\
      forall c cc, In c farAndNear -> coord c = Some cc ->
                   num_ltb (haversineMeters siteA cc) num_infinity = false)).
Proof.
  exact (chooseBest_takes_the_nearest grid_ltb_irrefl grid_ltb_trans
           (Some siteA) farAndNear).
Defined.

